(** * Images grid: layout and annotation placement

    A shallow embedding of [src/utils/images_grid.py].  The Python code
    drives an imaging library (canvases that are allocated, cropped and
    pasted into) and a font service (text measurement and drawing).  Canvases
    are Python objects that are shared by reference and mutated in place, so
    the embedding threads a store of images through every call, together with
    the chronological trace of the imaging calls that were made. *)

From Stdlib Require Import ZArith QArith Qround Ascii String List Lia Bool.
From stdpp Require Import base list.
Import ListNotations.

Local Open Scope string_scope.
Local Open Scope list_scope.
Local Open Scope Z_scope.

(** ** The imaging service *)

Inductive color : Type := RGB (r g b : Z).

Definition white : color := RGB 255 255 255.
Definition black : color := RGB 0 0 0.

(** A raster: its dimensions can never be negative, and its content is read
    through pixel coordinates (only those inside the raster matter). *)
Record Image : Type := mkImage {
  im_width : N;
  im_height : N;
  im_pixel : Z -> Z -> color
}.

(** [image.size] *)
Definition size (im : Image) : Z * Z :=
  (Z.of_N (im_width im), Z.of_N (im_height im)).

Definition inside (im : Image) (px py : Z) : bool :=
  (0 <=? px) && (px <? fst (size im)) && (0 <=? py) && (py <? snd (size im)).

(** Images live in a store and are passed around as handles. *)
Abbreviation handle := nat (only parsing).

(** A font handle: its point size and its measuring and inking functions.
    [getbbox] gives (left, top, right, bottom) for a text set at the origin;
    [ink pos text px py] tells whether drawing [text] at [pos] marks the
    pixel (px, py). *)
Record Font : Type := mkFont {
  font_size : Z;
  getlength : string -> Q;
  getbbox : string -> Z * Z * Z * Z;
  ink : Q * Q -> string -> Z -> Z -> bool
}.

Inductive Event : Type :=
| EvNew (im : handle) (sz : Z * Z) (fill : color)
| EvCrop (src new : handle) (box : Z * Z * Z * Z)
| EvPaste (dst src : handle) (at_ : Z * Z)
| EvText (dst : handle) (pos : Q * Q) (text : string) (fill : color).

Record World : Type := mkWorld {
  heap : list Image;
  log : list Event
}.

Inductive exn : Type :=
| ValueError (msg : string)
| IndexError
| ZeroDivisionError
| InvalidHandle.

(** ** Computations: state, exceptions and fuel for the [while] loops *)

Inductive Outcome (A : Type) : Type :=
| Returns (a : A) (w : World)
| Raises (e : exn) (w : World)
| OutOfFuel.

Arguments Returns {A} a w.
Arguments Raises {A} e w.
Arguments OutOfFuel {A}.

Definition M (A : Type) : Type := World -> Outcome A.

Definition ret {A} (a : A) : M A := fun w => Returns a w.

Definition bind {A B} (c : M A) (k : A -> M B) : M B :=
  fun w =>
    match c w with
    | Returns a w' => k a w'
    | Raises e w' => Raises e w'
    | OutOfFuel => OutOfFuel
    end.

Definition raise {A} (e : exn) : M A := fun w => Raises e w.

Definition out_of_fuel {A} : M A := fun _ => OutOfFuel.

Declare Scope comp_scope.
Delimit Scope comp_scope with comp.
Notation "x <- c ;; k" := (bind c (fun x => k))
  (at level 100, c at next level, right associativity) : comp_scope.
Notation "c ;;; k" := (bind c (fun _ => k))
  (at level 100, right associativity) : comp_scope.
Local Open Scope comp_scope.

Definition emit (e : Event) : M unit :=
  fun w => Returns tt {| heap := heap w; log := log w ++ [e] |}.

Definition deref (h : handle) : M Image :=
  fun w =>
    match heap w !! h with
    | Some im => Returns im w
    | None => Raises InvalidHandle w
    end.

Definition alloc (im : Image) : M handle :=
  fun w => Returns (length (heap w)) {| heap := heap w ++ [im]; log := log w |}.

Definition store (h : handle) (im : Image) : M unit :=
  fun w => Returns tt {| heap := <[h := im]> (heap w); log := log w |}.

(** [Image.new("RGB", size, color=fill)] *)
Definition Image_new (sz : Z * Z) (fill : color) : M handle :=
  if (fst sz <? 0) || (snd sz <? 0)
  then raise (ValueError "Width and height must be >= 0")
  else
    h <- alloc {| im_width := Z.to_N (fst sz); im_height := Z.to_N (snd sz);
                  im_pixel := fun _ _ => fill |} ;;
    emit (EvNew h sz fill) ;;;
    ret h.

(** [image.size] through a handle *)
Definition Image_size (h : handle) : M (Z * Z) :=
  im <- deref h ;; ret (size im).

Definition crop_image (src : Image) (box : Z * Z * Z * Z) : Image :=
  let '(x0, y0, x1, y1) := box in
  {| im_width := Z.to_N (x1 - x0);
     im_height := Z.to_N (y1 - y0);
     im_pixel := fun px py =>
       if inside src (px + x0) (py + y0)
       then im_pixel src (px + x0) (py + y0)
       else black |}.

(** [image.crop(box)]: a new image; the source is only read.  The part of
    the box that lies outside the source comes out black. *)
Definition Image_crop (h : handle) (box : Z * Z * Z * Z) : M handle :=
  let '(x0, y0, x1, y1) := box in
  src <- deref h ;;
  if x1 <? x0
  then raise (ValueError "Coordinate 'right' is less than 'left'")
  else if y1 <? y0
  then raise (ValueError "Coordinate 'lower' is less than 'upper'")
  else
    new <- alloc (crop_image src box) ;;
    emit (EvCrop h new box) ;;;
    ret new.

Definition paste_image (dst src : Image) (at_ : Z * Z) : Image :=
  let '(x, y) := at_ in
  {| im_width := im_width dst;
     im_height := im_height dst;
     im_pixel := fun px py =>
       if inside src (px - x) (py - y)
       then im_pixel src (px - x) (py - y)
       else im_pixel dst px py |}.

(** [dst.paste(src, (x, y))]: overwrites the destination in place. *)
Definition Image_paste (dst src : handle) (at_ : Z * Z) : M unit :=
  s <- deref src ;;
  d <- deref dst ;;
  store dst (paste_image d s at_) ;;;
  emit (EvPaste dst src at_).

(** A drawing context: [ImageDraw.Draw(image)] with its [font] attribute. *)
Record Draw : Type := mkDraw {
  draw_image : handle;
  draw_font : Font
}.

(** [draw.textbbox(xy, text)] *)
Definition ImageDraw_textbbox (draw : Draw) (xy : Z * Z) (text : string)
  : M (Z * Z * Z * Z) :=
  let '(l, t, r, b) := getbbox (draw_font draw) text in
  ret (l + fst xy, t + snd xy, r + fst xy, b + snd xy).

Definition ink_image (f : Font) (im : Image) (pos : Q * Q) (text : string)
    (fill : color) : Image :=
  {| im_width := im_width im;
     im_height := im_height im;
     im_pixel := fun px py =>
       if ink f pos text px py then fill else im_pixel im px py |}.

(** [draw.text(pos, text, fill=fill)] *)
Definition ImageDraw_text (draw : Draw) (pos : Q * Q) (text : string)
    (fill : color) : M unit :=
  im <- deref (draw_image draw) ;;
  store (draw_image draw) (ink_image (draw_font draw) im pos text fill) ;;;
  emit (EvText (draw_image draw) pos text fill).

(** ** Python built-ins used by the module *)

(** [l[i]] for a Python list: negative indices count from the end. *)
Definition py_index {A} (l : list A) (i : Z) : option A :=
  let n := Z.of_nat (length l) in
  if (0 <=? i) && (i <? n) then l !! Z.to_nat i
  else if (- n <=? i) && (i <? 0) then l !! Z.to_nat (n + i)
  else None.

(** [a // b] and [a % b] on integers *)
Definition py_floordiv (a b : Z) : M Z :=
  if b =? 0 then raise ZeroDivisionError else ret (a / b).

Definition py_mod (a b : Z) : M Z :=
  if b =? 0 then raise ZeroDivisionError else ret (a mod b).

(** [max(xs)] keeps the first of the largest elements. *)
Definition py_max (xs : list Q) : option Q :=
  match xs with
  | [] => None
  | x :: rest => Some (fold_left (fun m y => if Qlt_le_dec m y then y else m) rest x)
  end.

(** [int(x)]: truncation towards zero. *)
Definition py_int (x : Q) : Z := Z.quot (Qnum x) (Zpos (Qden x)).

(** [with suppress(IndexError): c] *)
Definition suppress_IndexError (c : M unit) : M unit :=
  fun w =>
    match c w with
    | Raises IndexError w' => Returns tt w'
    | o => o
    end.

(** ** The module *)

Record Annotation : Type := mkAnnotation {
  column_texts : list string;
  row_texts : list string;
  font : Font
}.

Record _GridInfo : Type := mk_GridInfo {
  image : handle;
  gap : Z;
  one_image_size : Z * Z
}.

(** [_arrange_images_on_grid]: the [for i, image in enumerate(images)] loop,
    [i] being the running index. *)
Fixpoint _arrange_images_from (i : Z) (grid_image : handle)
    (images : list handle) (size : Z * Z) (max_columns gap : Z) : M unit :=
  match images with
  | [] => ret tt
  | image :: rest =>
      image_size <- Image_size image ;;
      image <- (if negb (Z.eqb (fst image_size) (fst size)
                         && Z.eqb (snd image_size) (snd size))
                then Image_crop image (0, 0, fst size, snd size)
                else ret image) ;;
      c <- py_mod i max_columns ;;
      let x := c * (fst size + gap) in
      r <- py_floordiv i max_columns ;;
      let y := r * (snd size + gap) in
      Image_paste grid_image image (x, y) ;;;
      _arrange_images_from (i + 1) grid_image rest size max_columns gap
  end.

Definition _arrange_images_on_grid (grid_image : handle)
    (images : list handle) (size : Z * Z) (max_columns gap : Z) : M unit :=
  _arrange_images_from 0 grid_image images size max_columns gap.

(** [_draw_center_text].  The two coordinates are [int / 2] in Python, a
    float that is exact for halves of integers of pixel magnitude; they are
    kept here as the rationals with denominator two. *)
Definition _draw_center_text (draw : Draw) (xy : Z * Z * Z * Z)
    (text : string) (fill : color) : M unit :=
  let '(xy0, xy1, xy2, xy3) := xy in
  bbox <- ImageDraw_textbbox draw (0, 0) text ;;
  let '(_, _, text_size0, text_size1) := bbox in
  ImageDraw_text draw
    (Qmake (xy2 - text_size0 + xy0) 2, Qmake (xy3 - text_size1 + xy1) 2)
    text fill.

(** [_draw_text_by_xy] *)
Definition _draw_text_by_xy (xy : Z * Z * Z * Z) (index : Z) (draw : Draw)
    (texts : list string) : M Z :=
  suppress_IndexError
    (match py_index texts index with
     | Some text => _draw_center_text draw xy text black
     | None => raise IndexError
     end) ;;;
  ret (index + 1).

(** The local variables of the two label loops. *)
Record Band : Type := mkBand {
  b_i : Z;
  b_x0 : Z;
  b_y0 : Z;
  b_x1 : Z;
  b_y1 : Z
}.

(** The [while] loop of [_draw_column_text]: one unit of fuel per turn; the
    locals at the exit are returned. *)
Fixpoint _draw_column_text_while (fuel : nat) (draw : Draw)
    (texts : list string) (grid_info : _GridInfo) (left_padding : Z)
    (b : Band) : M Band :=
  grid_size <- Image_size (image grid_info) ;;
  if negb (b_x0 b =? fst grid_size + left_padding + gap grid_info) then
    match fuel with
    | O => out_of_fuel
    | S fuel' =>
        i <- _draw_text_by_xy (b_x0 b, b_y0 b, b_x1 b, b_y1 b) (b_i b) draw texts ;;
        _draw_column_text_while fuel' draw texts grid_info left_padding
          {| b_i := i;
             b_x0 := b_x0 b + (fst (one_image_size grid_info) + gap grid_info);
             b_y0 := b_y0 b;
             b_x1 := b_x1 b + (fst (one_image_size grid_info) + gap grid_info);
             b_y1 := b_y1 b |}
    end
  else ret b.

Definition _draw_column_text (fuel : nat) (draw : Draw) (texts : list string)
    (grid_info : _GridInfo) (left_padding top_padding : Z) : M unit :=
  _draw_column_text_while fuel draw texts grid_info left_padding
    {| b_i := 0;
       b_x0 := left_padding;
       b_y0 := 0;
       b_x1 := left_padding + fst (one_image_size grid_info);
       b_y1 := top_padding |} ;;;
  ret tt.

Fixpoint _draw_row_text_while (fuel : nat) (draw : Draw)
    (texts : list string) (grid_info : _GridInfo) (top_padding : Z)
    (b : Band) : M Band :=
  grid_size <- Image_size (image grid_info) ;;
  if negb (b_y0 b =? snd grid_size + top_padding + gap grid_info) then
    match fuel with
    | O => out_of_fuel
    | S fuel' =>
        i <- _draw_text_by_xy (b_x0 b, b_y0 b, b_x1 b, b_y1 b) (b_i b) draw texts ;;
        _draw_row_text_while fuel' draw texts grid_info top_padding
          {| b_i := i;
             b_x0 := b_x0 b;
             b_y0 := b_y0 b + (snd (one_image_size grid_info) + gap grid_info);
             b_x1 := b_x1 b;
             b_y1 := b_y1 b + (snd (one_image_size grid_info) + gap grid_info) |}
    end
  else ret b.

Definition _draw_row_text (fuel : nat) (draw : Draw) (texts : list string)
    (grid_info : _GridInfo) (left_padding top_padding : Z) : M unit :=
  _draw_row_text_while fuel draw texts grid_info top_padding
    {| b_i := 0;
       b_x0 := 0;
       b_y0 := top_padding;
       b_x1 := left_padding;
       b_y1 := top_padding + snd (one_image_size grid_info) |} ;;;
  ret tt.

(** [_paste_image_to_lower_left_corner] *)
Definition _paste_image_to_lower_left_corner (base image : handle) : M unit :=
  base_size <- Image_size base ;;
  image_size <- Image_size image ;;
  Image_paste base image
    (fst base_size - fst image_size, snd base_size - snd image_size).

Definition empty_labels_error : exn :=
  ValueError "Column text or row text is empty".

(** [not texts] for a list *)
Definition py_not {A} (l : list A) : bool :=
  match l with [] => true | _ => false end.

(** [_create_grid_annotations] *)
Definition _create_grid_annotations (fuel : nat) (grid_info : _GridInfo)
    (column_texts row_texts : list string) (font : Font) : M handle :=
  if py_not column_texts || py_not row_texts
  then raise empty_labels_error
  else
    let grid := image grid_info in
    let margin := font_size font / 2 in
    match py_max (map (getlength font) row_texts) with
    | None => raise (ValueError "max() arg is an empty sequence")
    | Some widest =>
        let left_padding := py_int widest + 2 * margin in
        let top_padding := font_size font + 2 * margin in
        grid_size <- Image_size grid ;;
        image <- Image_new (fst grid_size + left_padding,
                            snd grid_size + top_padding) white ;;
        let draw := {| draw_image := image; draw_font := font |} in
        _paste_image_to_lower_left_corner image grid ;;;
        _draw_column_text fuel draw column_texts grid_info
          left_padding top_padding ;;;
        _draw_row_text fuel draw row_texts grid_info
          left_padding top_padding ;;;
        ret image
    end.

(** [_create_images_grid] *)
Definition _create_images_grid (fuel : nat) (images : list handle)
    (gap max_columns max_rows : Z) (annotation : option Annotation)
  : M handle :=
  match py_index images 0 with
  | None => raise IndexError
  | Some first =>
      size <- Image_size first ;;
      let grid_width := fst size * max_columns + (max_columns - 1) * gap in
      let grid_height := snd size * max_rows + (max_rows - 1) * gap in
      grid_image <- Image_new (grid_width, grid_height) white ;;
      _arrange_images_on_grid grid_image images size max_columns gap ;;;
      match annotation with
      | None => ret grid_image
      | Some a =>
          _create_grid_annotations fuel
            {| image := grid_image; gap := gap; one_image_size := size |}
            (column_texts a) (row_texts a) (font a)
      end
  end.

(** [create_images_grid_by_columns] *)
Definition create_images_grid_by_columns (fuel : nat) (images : list handle)
    (gap max_columns : Z) (annotation : option Annotation) : M handle :=
  max_rows <- py_floordiv (Z.of_nat (length images) + max_columns - 1)
                max_columns ;;
  _create_images_grid fuel images gap max_columns max_rows annotation.

(** [create_images_grid_by_rows] *)
Definition create_images_grid_by_rows (fuel : nat) (images : list handle)
    (gap max_rows : Z) (annotation : option Annotation) : M handle :=
  max_columns <- py_floordiv (Z.of_nat (length images) + max_rows - 1)
                   max_rows ;;
  _create_images_grid fuel images gap max_columns max_rows annotation.

(** ** The grid stage on its own

    What [_create_images_grid] does before it looks at the annotation: the
    canvas of the grid with the tiles pasted, and the tile size. *)
Definition build_grid (images : list handle) (gap max_columns max_rows : Z)
  : M (handle * (Z * Z)) :=
  match py_index images 0 with
  | None => raise IndexError
  | Some first =>
      size <- Image_size first ;;
      let grid_width := fst size * max_columns + (max_columns - 1) * gap in
      let grid_height := snd size * max_rows + (max_rows - 1) * gap in
      grid_image <- Image_new (grid_width, grid_height) white ;;
      _arrange_images_on_grid grid_image images size max_columns gap ;;;
      ret (grid_image, size)
  end.

(** ** Reading the trace *)

Definition paste_of (e : Event) : option (handle * handle * (Z * Z)) :=
  match e with
  | EvPaste dst src at_ => Some (dst, src, at_)
  | _ => None
  end.

(** The paste calls of a trace, in order: destination, source, origin. *)
Definition pastes (l : list Event) : list (handle * handle * (Z * Z)) :=
  omap paste_of l.

(** The pixel origin of the tile with linear index [i]. *)
Definition tile_origin (size : Z * Z) (max_columns gap i : Z) : Z * Z :=
  ((i mod max_columns) * (fst size + gap), (i / max_columns) * (snd size + gap)).

(** What is pasted for an input image [h] that held [img] when the placer
    started in [w]: the image itself when it has the tile size, otherwise an
    image allocated after [w] that holds the crop of [img] to the tile box. *)
Definition tile_source (w w' : World) (tile : Z * Z) (h src : handle) : Prop :=
  exists img, heap w !! h = Some img /\
    ((size img = tile /\ src = h) \/
     (size img <> tile /\
      (length (heap w) <= src)%nat /\
      heap w' !! src = Some (crop_image img (0, 0, fst tile, snd tile)))).

(** [ceil(n / m)], over the rationals *)
Definition ceil_div (n m : Z) : Z := Qceiling (inject_Z n / inject_Z m).

(** ** The label loops as counted loops

    The two [while] loops are described a second time, as loops that visit a
    given number of bands; the properties below relate the code to them. *)

(** Where a label is drawn inside the band rectangle (x0, y0, x1, y1). *)
Definition label_position (f : Font) (xy : Z * Z * Z * Z) (text : string)
  : Q * Q :=
  let '(x0, y0, x1, y1) := xy in
  let '(_, _, bboxWidth, bboxHeight) := getbbox f text in
  (Qmake (x1 - bboxWidth + x0) 2, Qmake (y1 - bboxHeight + y0) 2).

(** The store and trace after one label has been drawn centred in a band. *)
Definition draw_label (draw : Draw) (xy : Z * Z * Z * Z) (text : string)
    (w : World) : World :=
  match heap w !! draw_image draw with
  | Some im =>
      let pos := label_position (draw_font draw) xy text in
      {| heap := <[draw_image draw :=
                     ink_image (draw_font draw) im pos text black]> (heap w);
         log := log w ++ [EvText (draw_image draw) pos text black] |}
  | None => w
  end.

Definition band_rect (b : Band) : Z * Z * Z * Z :=
  (b_x0 b, b_y0 b, b_x1 b, b_y1 b).

(** One band: its label is drawn when there is one for its index. *)
Definition draw_band (draw : Draw) (texts : list string) (b : Band)
    (w : World) : World :=
  match py_index texts (b_i b) with
  | Some text => draw_label draw (band_rect b) text w
  | None => w
  end.

(** The band that follows [b] along the columns, and along the rows. *)
Definition next_column (step : Z) (b : Band) : Band :=
  {| b_i := b_i b + 1;
     b_x0 := b_x0 b + step; b_y0 := b_y0 b;
     b_x1 := b_x1 b + step; b_y1 := b_y1 b |}.

Definition next_row (step : Z) (b : Band) : Band :=
  {| b_i := b_i b + 1;
     b_x0 := b_x0 b; b_y0 := b_y0 b + step;
     b_x1 := b_x1 b; b_y1 := b_y1 b + step |}.

(** [count] bands visited from [b] on. *)
Fixpoint draw_bands (next : Band -> Band) (draw : Draw) (texts : list string)
    (count : nat) (b : Band) (w : World) : World :=
  match count with
  | O => w
  | S count' =>
      draw_bands next draw texts count' (next b) (draw_band draw texts b w)
  end.

(** The rectangles of these bands. *)
Fixpoint band_rects (next : Band -> Band) (count : nat) (b : Band)
  : list (Z * Z * Z * Z) :=
  match count with
  | O => []
  | S count' => band_rect b :: band_rects next count' (next b)
  end.

(** The first bands of the two passes. *)
Definition first_column (left_padding top_padding tileWidth : Z) : Band :=
  {| b_i := 0; b_x0 := left_padding; b_y0 := 0;
     b_x1 := left_padding + tileWidth; b_y1 := top_padding |}.

Definition first_row (left_padding top_padding tileHeight : Z) : Band :=
  {| b_i := 0; b_x0 := 0; b_y0 := top_padding;
     b_x1 := left_padding; b_y1 := top_padding + tileHeight |}.

(** The drawing call of a label in a band. *)
Definition label_event (draw : Draw) (text : string) (xy : Z * Z * Z * Z)
  : Event :=
  EvText (draw_image draw) (label_position (draw_font draw) xy text) text black.

(** The paddings of the annotation stage, for the widest row label. *)
Definition margin_of (f : Font) : Z := font_size f / 2.
Definition left_padding_of (f : Font) (widest : Q) : Z :=
  py_int widest + 2 * margin_of f.
Definition top_padding_of (f : Font) : Z := font_size f + 2 * margin_of f.

(** The annotated canvas when it has just received the grid: a white canvas
    allocated after the store, with the grid pasted at the paddings. *)
Definition canvas_with_grid (gimg : Image) (lp tp : Z) (grid : handle)
    (w : World) : World :=
  let canvas := length (heap w) in
  let csz := (fst (size gimg) + lp, snd (size gimg) + tp) in
  let blank := {| im_width := Z.to_N (fst csz); im_height := Z.to_N (snd csz);
                  im_pixel := fun _ _ => white |} in
  {| heap := <[canvas := paste_image blank gimg (lp, tp)]> (heap w ++ [blank]);
     log := log w ++ [EvNew canvas csz white; EvPaste canvas grid (lp, tp)] |}.

(** The annotation stage as two counted passes over [cols] column bands and
    [rows] row bands. *)
Definition annotation_stage (gi : _GridInfo) (gimg : Image)
    (column_texts row_texts : list string) (f : Font) (widest : Q)
    (cols rows : nat) (w : World) : World :=
  let lp := left_padding_of f widest in
  let tp := top_padding_of f in
  let draw := {| draw_image := length (heap w); draw_font := f |} in
  let tile := one_image_size gi in
  draw_bands (next_row (snd tile + gap gi)) draw row_texts rows
    (first_row lp tp (snd tile))
    (draw_bands (next_column (fst tile + gap gi)) draw column_texts cols
       (first_column lp tp (fst tile))
       (canvas_with_grid gimg lp tp (image gi) w)).

(** A computation that never raises the empty-labels error. *)
Definition quiet {A} (c : M A) : Prop :=
  forall w w', c w <> Raises empty_labels_error w'.

(** ** Stores that only grow

    [extends n0 w w']: the store [w'] still holds, unchanged, the first [n0]
    images of [w].  [keeps n0 c Q]: from any store of at least [n0] images,
    the computation [c] leaves the first [n0] images alone, whether it
    returns or raises, and a returned value satisfies [Q]. *)
Definition extends (n0 : nat) (w w' : World) : Prop :=
  (n0 <= length (heap w'))%nat /\
  forall h, (h < n0)%nat -> heap w' !! h = heap w !! h.

Definition keeps {A} (n0 : nat) (c : M A) (Q : A -> Prop) : Prop :=
  forall w, (n0 <= length (heap w))%nat ->
    match c w with
    | Returns a w' => extends n0 w w' /\ Q a
    | Raises _ w' => extends n0 w w'
    | OutOfFuel => True
    end.

(** ** Tiles on the canvas *)

(** What a tile shows of an image: the image itself, cut at the tile, and
    black where the image is too small to fill it. *)
Definition shown (img : Image) (px py : Z) : color :=
  if inside img px py then im_pixel img px py else black.

(** The pixel (X, Y) lies in the tile rectangle at [origin]. *)
Definition in_tile (tile origin : Z * Z) (X Y : Z) : bool :=
  (fst origin <=? X) && (X <? fst origin + fst tile)
  && (snd origin <=? Y) && (Y <? snd origin + snd tile).

(** Whether one of the label drawings of a trace has ink on the pixel
    (X, Y), with the font [f]. *)
Definition inked (f : Font) (labels : list Event) (X Y : Z) : bool :=
  existsb (fun e => match e with
                    | EvText _ pos text _ => ink f pos text X Y
                    | _ => false
                    end) labels.

(** ** Sample data

    A store with four 10x10 images of distinct colours, then variants in
    which one image has another size. *)

Definition solid (w h : N) (c : color) : Image :=
  {| im_width := w; im_height := h; im_pixel := fun _ _ => c |}.

Definition four_tiles : World :=
  {| heap := [solid 10 10 (RGB 200 0 0); solid 10 10 (RGB 0 200 0);
              solid 10 10 (RGB 0 0 200); solid 10 10 (RGB 200 200 0)];
     log := [] |}.

(** A 10x10 image followed by a 5x5 one. *)
Definition small_second : World :=
  {| heap := [solid 10 10 (RGB 200 0 0); solid 5 5 (RGB 0 200 0)];
     log := [] |}.

(** The same store once the 22x10 canvas of the grid has been allocated. *)
Definition small_second_canvas : World :=
  {| heap := heap small_second ++ [solid 22 10 white]; log := [] |}.

(** A font that inks the whole bounding box of a label. *)
Definition ink_box (bbox : Z * Z * Z * Z) (pos : Q * Q) (px py : Z) : bool :=
  let '(l, t, r, b) := bbox in
  Qle_bool (fst pos + inject_Z l) (inject_Z px)
  && negb (Qle_bool (fst pos + inject_Z r) (inject_Z px))
  && Qle_bool (snd pos + inject_Z t) (inject_Z py)
  && negb (Qle_bool (snd pos + inject_Z b) (inject_Z py)).

Definition box_font (sz : Z) (width : Q) (bbox : Z * Z * Z * Z) : Font :=
  {| font_size := sz;
     getlength := fun _ => width;
     getbbox := fun _ => bbox;
     ink := fun pos _ px py => ink_box bbox pos px py |}.

(** Size 10, labels 8 wide and 7 high. *)
Definition block_font : Font := box_font 10 (8 # 1) (0, 2, 8, 9).

(** The same with an advance width of ten pixels and a half. *)
Definition half_pixel_font : Font := box_font 10 (21 # 2) (0, 2, 8, 9).

(** A font of size 10 that sets a label line by line, ten pixels a line:
    a label of four lines is 40 pixels high. *)
Fixpoint count_lines (text : string) : Z :=
  match text with
  | EmptyString => 1
  | String c rest =>
      (if Ascii.eqb c "010"%char then 1 else 0) + count_lines rest
  end.

Definition lines_font : Font :=
  {| font_size := 10;
     getlength := fun _ => 8 # 1;
     getbbox := fun text => (0, 0, 6, 10 * count_lines text);
     ink := fun pos text px py =>
              ink_box (0, 0, 6, 10 * count_lines text) pos px py |}.

Definition newline : string := String "010"%char EmptyString.

Definition four_lines : string :=
  String.append "one" (String.append newline
    (String.append "two" (String.append newline
      (String.append "three" (String.append newline "four"))))).

(** A 22x22 grid of 2x2 tiles of 10x10 with gap 2, alone in the store, and
    then with a 42x42 canvas to draw on. *)
Definition grey : color := RGB 90 90 90.

Definition grid_only : World :=
  {| heap := [solid 22 22 grey]; log := [] |}.

Definition grid_and_canvas : World :=
  {| heap := [solid 22 22 grey; solid 42 42 white]; log := [] |}.

Definition sample_grid_info : _GridInfo :=
  {| image := 0%nat; gap := 2; one_image_size := (10, 10) |}.

Definition sample_draw : Draw :=
  {| draw_image := 1%nat; draw_font := block_font |}.

Definition two_by_two (f : Font) : Annotation :=
  {| column_texts := ["left"; "right"]; row_texts := ["top"; "bottom"];
     font := f |}.

(** The same annotation with a first column label of four lines. *)
Definition tall_first_column : Annotation :=
  {| column_texts := [four_lines; "right"]; row_texts := ["top"; "bottom"];
     font := lines_font |}.



(** * Properties *)

Arguments paste_image : simpl never.
Arguments crop_image : simpl never.
Arguments ink_image : simpl never.
Arguments tile_origin : simpl never.
Arguments pastes : simpl never.

(** ** Running the primitives *)

Lemma bind_returns {A B} (c : M A) (k : A -> M B) w a w' :
  c w = Returns a w' -> bind c k w = k a w'.
Proof. intros H. unfold bind. now rewrite H. Qed.

Lemma bind_raises {A B} (c : M A) (k : A -> M B) w e w' :
  c w = Raises e w' -> bind c k w = Raises e w'.
Proof. intros H. unfold bind. now rewrite H. Qed.

Lemma deref_ok h w im : heap w !! h = Some im -> deref h w = Returns im w.
Proof. intros H. unfold deref. now rewrite H. Qed.

Lemma Image_size_ok h w im :
  heap w !! h = Some im -> Image_size h w = Returns (size im) w.
Proof.
  intros H. unfold Image_size.
  now rewrite (bind_returns _ _ _ _ _ (deref_ok _ _ _ H)).
Qed.

Lemma Image_new_ok sz fill w :
  0 <= fst sz -> 0 <= snd sz ->
  Image_new sz fill w =
    Returns (length (heap w))
      {| heap := heap w ++ [{| im_width := Z.to_N (fst sz);
                               im_height := Z.to_N (snd sz);
                               im_pixel := fun _ _ => fill |}];
         log := log w ++ [EvNew (length (heap w)) sz fill] |}.
Proof.
  intros Hw Hh. unfold Image_new.
  destruct (Z.ltb_spec (fst sz) 0); [lia |].
  destruct (Z.ltb_spec (snd sz) 0); [lia |].
  reflexivity.
Qed.

Lemma Image_crop_ok h w im x0 y0 x1 y1 :
  heap w !! h = Some im -> x0 <= x1 -> y0 <= y1 ->
  Image_crop h (x0, y0, x1, y1) w =
    Returns (length (heap w))
      {| heap := heap w ++ [crop_image im (x0, y0, x1, y1)];
         log := log w ++ [EvCrop h (length (heap w)) (x0, y0, x1, y1)] |}.
Proof.
  intros H Hx Hy. unfold Image_crop.
  rewrite (bind_returns _ _ _ _ _ (deref_ok _ _ _ H)).
  destruct (Z.ltb_spec x1 x0); [lia |].
  destruct (Z.ltb_spec y1 y0); [lia |].
  reflexivity.
Qed.

Lemma Image_paste_ok dst src at_ w d s :
  heap w !! src = Some s -> heap w !! dst = Some d ->
  Image_paste dst src at_ w =
    Returns tt
      {| heap := <[dst := paste_image d s at_]> (heap w);
         log := log w ++ [EvPaste dst src at_] |}.
Proof.
  intros Hs Hd. unfold Image_paste.
  rewrite (bind_returns _ _ _ _ _ (deref_ok _ _ _ Hs)).
  rewrite (bind_returns _ _ _ _ _ (deref_ok _ _ _ Hd)).
  reflexivity.
Qed.

Lemma ImageDraw_text_ok draw pos text fill w im :
  heap w !! draw_image draw = Some im ->
  ImageDraw_text draw pos text fill w =
    Returns tt
      {| heap := <[draw_image draw := ink_image (draw_font draw) im pos text fill]> (heap w);
         log := log w ++ [EvText (draw_image draw) pos text fill] |}.
Proof.
  intros H. unfold ImageDraw_text.
  rewrite (bind_returns _ _ _ _ _ (deref_ok _ _ _ H)).
  reflexivity.
Qed.

Lemma py_mod_ok a b w : b <> 0 -> py_mod a b w = Returns (a mod b) w.
Proof. intros H. unfold py_mod. destruct (Z.eqb_spec b 0); [lia | reflexivity]. Qed.

Lemma py_floordiv_ok a b w : b <> 0 -> py_floordiv a b w = Returns (a / b) w.
Proof. intros H. unfold py_floordiv. destruct (Z.eqb_spec b 0); [lia | reflexivity]. Qed.

Lemma size_paste_image d s at_ : size (paste_image d s at_) = size d.
Proof. destruct at_. reflexivity. Qed.

Lemma size_crop_image im x0 y0 x1 y1 :
  x0 <= x1 -> y0 <= y1 -> size (crop_image im (x0, y0, x1, y1)) = (x1 - x0, y1 - y0).
Proof. intros. unfold size, crop_image. simpl. f_equal; lia. Qed.

Lemma size_nonneg im : 0 <= fst (size im) /\ 0 <= snd (size im).
Proof. unfold size. simpl. lia. Qed.

(** ** The tile placer *)

Lemma size_eqb_spec (a b : Z * Z) :
  reflect (a = b) (Z.eqb (fst a) (fst b) && Z.eqb (snd a) (snd b)).
Proof.
  destruct a as [a1 a2], b as [b1 b2]. simpl.
  destruct (Z.eqb_spec a1 b1), (Z.eqb_spec a2 b2); constructor; congruence.
Qed.

Lemma bind_ret {A B} (a : A) (k : A -> M B) w : bind (ret a) k w = k a w.
Proof. reflexivity. Qed.

(** One turn of the loop on an image of the tile size: a single paste. *)
Lemma arrange_step_same i g h rest tile mc gap w img d :
  mc <> 0 ->
  heap w !! h = Some img -> heap w !! g = Some d -> size img = tile ->
  _arrange_images_from i g (h :: rest) tile mc gap w =
  _arrange_images_from (i + 1) g rest tile mc gap
    {| heap := <[g := paste_image d img (tile_origin tile mc gap i)]> (heap w);
       log := log w ++ [EvPaste g h (tile_origin tile mc gap i)] |}.
Proof.
  intros Hmc Hh Hg Hsz. simpl.
  rewrite (bind_returns _ _ _ _ _ (Image_size_ok _ _ _ Hh)).
  destruct (size_eqb_spec (size img) tile) as [_ | Hne]; [| contradiction].
  cbn [negb]. rewrite bind_ret.
  rewrite (bind_returns _ _ _ _ _ (py_mod_ok i mc w Hmc)).
  rewrite (bind_returns _ _ _ _ _ (py_floordiv_ok i mc w Hmc)).
  rewrite (bind_returns _ _ _ _ _ (Image_paste_ok g h _ w d img Hh Hg)).
  reflexivity.
Qed.

(** One turn on an image of another size: a crop into a new image, which is
    what gets pasted. *)
Lemma arrange_step_crop i g h rest tile mc gap w img d :
  mc <> 0 -> 0 <= fst tile -> 0 <= snd tile ->
  heap w !! h = Some img -> heap w !! g = Some d -> size img <> tile ->
  _arrange_images_from i g (h :: rest) tile mc gap w =
  _arrange_images_from (i + 1) g rest tile mc gap
    {| heap := <[g := paste_image d (crop_image img (0, 0, fst tile, snd tile))
                        (tile_origin tile mc gap i)]>
                 (heap w ++ [crop_image img (0, 0, fst tile, snd tile)]);
       log := (log w ++ [EvCrop h (length (heap w)) (0, 0, fst tile, snd tile)])
                ++ [EvPaste g (length (heap w)) (tile_origin tile mc gap i)] |}.
Proof.
  intros Hmc Hw Hh' Hh Hg Hsz. simpl.
  rewrite (bind_returns _ _ _ _ _ (Image_size_ok _ _ _ Hh)).
  destruct (size_eqb_spec (size img) tile) as [He | _]; [contradiction |].
  cbn [negb].
  rewrite (bind_returns _ _ _ _ _ (Image_crop_ok h w img 0 0 _ _ Hh Hw Hh')).
  set (w1 := {| heap := heap w ++ _; log := _ |}).
  rewrite (bind_returns _ _ _ _ _ (py_mod_ok i mc w1 Hmc)).
  rewrite (bind_returns _ _ _ _ _ (py_floordiv_ok i mc w1 Hmc)).
  assert (Hnew : heap w1 !! length (heap w) = Some (crop_image img (0, 0, fst tile, snd tile))).
  { subst w1. simpl. rewrite lookup_app_r by lia. now rewrite Nat.sub_diag. }
  assert (Hg1 : heap w1 !! g = Some d).
  { subst w1. simpl. rewrite lookup_app_l; [assumption |]. eapply lookup_lt_Some; eauto. }
  rewrite (bind_returns _ _ _ _ _ (Image_paste_ok g _ _ w1 d _ Hnew Hg1)).
  reflexivity.
Qed.

Lemma pastes_app l1 l2 : pastes (l1 ++ l2) = pastes l1 ++ pastes l2.
Proof. apply omap_app. Qed.

Lemma pastes_cons_paste dst src at_ l :
  pastes (EvPaste dst src at_ :: l) = (dst, src, at_) :: pastes l.
Proof. reflexivity. Qed.

Lemma pastes_cons_crop src new box l : pastes (EvCrop src new box :: l) = pastes l.
Proof. reflexivity. Qed.

Lemma pastes_cons_new im sz fill l : pastes (EvNew im sz fill :: l) = pastes l.
Proof. reflexivity. Qed.

Lemma pastes_cons_text dst pos text fill l :
  pastes (EvText dst pos text fill :: l) = pastes l.
Proof. reflexivity. Qed.

Lemma tile_source_weaken w w1 w' tile h src :
  (length (heap w) <= length (heap w1))%nat ->
  heap w1 !! h = heap w !! h ->
  tile_source w1 w' tile h src -> tile_source w w' tile h src.
Proof.
  intros Hlen Heq (img & Himg & Hcase). exists img. split; [congruence |].
  destruct Hcase as [? | (? & ? & ?)]; [now left | right].
  repeat split; [assumption | lia | assumption].
Qed.

(** The whole loop, from any index and any store in which the canvas and the
    input images are live and distinct: it returns, it writes to the canvas
    only, it keeps the canvas size, and its pastes are one per input image,
    in order, each at its tile origin. *)
Lemma arrange_from_spec g tile mc gap images : forall i w,
  mc <> 0 -> 0 <= fst tile -> 0 <= snd tile ->
  (g < length (heap w))%nat ->
  Forall (fun h => (h < length (heap w))%nat /\ h <> g) images ->
  exists w', _arrange_images_from i g images tile mc gap w = Returns tt w' /\
    (length (heap w) <= length (heap w'))%nat /\
    (forall h, (h < length (heap w))%nat -> h <> g -> heap w' !! h = heap w !! h) /\
    size <$> heap w' !! g = size <$> heap w !! g /\
    exists new, log w' = log w ++ new /\
      length (pastes new) = length images /\
      forall k h, images !! k = Some h ->
        exists src,
          pastes new !! k = Some (g, src, tile_origin tile mc gap (i + Z.of_nat k)) /\
          tile_source w w' tile h src.
Proof.
  induction images as [| h rest IH]; intros i w Hmc Htw Hth Hg Hall.
  - exists w. simpl. repeat split; try reflexivity; try lia.
    exists []. rewrite app_nil_r. repeat split. intros k h Hk. discriminate.
  - apply Forall_cons in Hall as [[Hh Hne] Hrest].
    destruct (lookup_lt_is_Some_2 _ _ Hh) as [img Himg].
    destruct (lookup_lt_is_Some_2 _ _ Hg) as [d Hd].
    destruct (size_eqb_spec (size img) tile) as [Hsz | Hsz].
    + rewrite (arrange_step_same i g h rest tile mc gap w img d Hmc Himg Hd Hsz).
      set (w1 := {| heap := <[g := _]> (heap w); log := _ |}).
      assert (Hlen1 : length (heap w1) = length (heap w)) by apply length_insert.
      destruct (IH (i + 1) w1 Hmc Htw Hth) as (w' & Hrun & Hlen & Hframe & Hgsz & new & Hlog & Hcount & Hpastes).
      { lia. }
      { rewrite Hlen1. exact Hrest. }
      exists w'. split; [exact Hrun |]. split; [lia |]. split; [| split].
      * intros h0 Hh0 Hne0. rewrite Hframe by (rewrite ?Hlen1; auto).
        subst w1. simpl. apply list_lookup_insert_ne. congruence.
      * rewrite Hgsz. subst w1. simpl. rewrite list_lookup_insert_eq by exact Hg.
        rewrite Hd. cbn [fmap option_fmap option_map]. now rewrite size_paste_image.
      * exists (EvPaste g h (tile_origin tile mc gap i) :: new).
        split; [rewrite Hlog; subst w1; simpl; now rewrite <- app_assoc |].
        split; [rewrite ?pastes_cons_crop, pastes_cons_paste; simpl; now rewrite Hcount |].
        intros [| k] h0 Hk.
        -- injection Hk as <-. exists h. split.
           ++ rewrite ?pastes_cons_crop, pastes_cons_paste. simpl. now rewrite Z.add_0_r.
           ++ exists img. split; [exact Himg | left; now split].
        -- destruct (Hpastes k h0 Hk) as (src & Hsrc & Hts). exists src. split.
           ++ rewrite ?pastes_cons_crop, pastes_cons_paste. simpl. rewrite Hsrc. do 3 f_equal. lia.
           ++ apply (tile_source_weaken w w1); [lia | | exact Hts].
              subst w1. simpl. apply list_lookup_insert_ne.
              simpl in Hk. apply list_elem_of_lookup_2 in Hk.
              rewrite Forall_forall in Hrest. destruct (Hrest h0 Hk). congruence.
    + rewrite (arrange_step_crop i g h rest tile mc gap w img d Hmc Htw Hth Himg Hd Hsz).
      set (c := crop_image img (0, 0, fst tile, snd tile)).
      set (w1 := {| heap := <[g := _]> (heap w ++ [c]); log := _ |}).
      assert (Hlen1 : length (heap w1) = S (length (heap w))).
      { subst w1. simpl. rewrite length_insert, length_app. simpl. lia. }
      destruct (IH (i + 1) w1 Hmc Htw Hth) as (w' & Hrun & Hlen & Hframe & Hgsz & new & Hlog & Hcount & Hpastes).
      { lia. }
      { rewrite Hlen1. eapply Forall_impl; [exact Hrest |]. simpl. intros ? [? ?]. split; [lia | assumption]. }
      assert (Hold : forall h0, (h0 < length (heap w))%nat -> h0 <> g ->
                       heap w1 !! h0 = heap w !! h0).
      { intros h0 Hh0 Hne0. subst w1. simpl.
        rewrite list_lookup_insert_ne by congruence. now apply lookup_app_l. }
      exists w'. split; [exact Hrun |]. split; [lia |]. split; [| split].
      * intros h0 Hh0 Hne0. rewrite Hframe by (rewrite ?Hlen1; auto; lia). now apply Hold.
      * rewrite Hgsz. subst w1. simpl.
        rewrite list_lookup_insert_eq by (rewrite length_app; simpl; lia).
        rewrite Hd. cbn [fmap option_fmap option_map]. now rewrite size_paste_image.
      * exists (EvCrop h (length (heap w)) (0, 0, fst tile, snd tile)
                :: EvPaste g (length (heap w)) (tile_origin tile mc gap i) :: new).
        split; [rewrite Hlog; subst w1; simpl; now rewrite <- !app_assoc |].
        split; [rewrite ?pastes_cons_crop, pastes_cons_paste; simpl; now rewrite Hcount |].
        intros [| k] h0 Hk.
        -- injection Hk as <-. exists (length (heap w)). split.
           ++ rewrite ?pastes_cons_crop, pastes_cons_paste. simpl. now rewrite Z.add_0_r.
           ++ exists img. split; [exact Himg | right]. split; [exact Hsz |]. split; [lia |].
              rewrite Hframe by lia. subst w1. simpl.
              rewrite list_lookup_insert_ne by lia.
              rewrite lookup_app_r by lia. now rewrite Nat.sub_diag.
        -- destruct (Hpastes k h0 Hk) as (src & Hsrc & Hts). exists src. split.
           ++ rewrite ?pastes_cons_crop, pastes_cons_paste. simpl. rewrite Hsrc. do 3 f_equal. lia.
           ++ apply (tile_source_weaken w w1); [lia | | exact Hts].
              simpl in Hk. apply list_elem_of_lookup_2 in Hk.
              rewrite Forall_forall in Hrest. destruct (Hrest h0 Hk). now apply Hold.
Qed.

(** ** Grid sizing *)

Lemma ceil_div_floordiv n m : 1 <= m -> ceil_div n m = (n + m - 1) / m.
Proof.
  intros Hm. destruct m as [| p | p]; try lia.
  unfold ceil_div, Qceiling, Qfloor, Qdiv, Qinv, Qmult, Qopp, inject_Z. simpl.
  rewrite Z.mul_1_r. change (1 * p)%positive with p.
  apply Z.div_unique with (r := Z.pos p - 1 - (- n) mod Z.pos p).
  - left. pose proof (Z.mod_pos_bound (- n) (Z.pos p)). lia.
  - pose proof (Z.div_mod (- n) (Z.pos p)). rewrite Z.mul_opp_r. lia.
Qed.

Lemma py_index_0 {A} (x : A) (l : list A) : py_index (x :: l) 0 = Some x.
Proof. unfold py_index. simpl. destruct (Z.ltb_spec 0 (Z.pos (Pos.of_succ_nat (length l)))); [reflexivity | lia]. Qed.

(** [_create_images_grid] is the grid stage followed by the choice on the
    annotation. *)
Lemma create_images_grid_stages fuel images gap mc mr annotation w :
  _create_images_grid fuel images gap mc mr annotation w =
  bind (build_grid images gap mc mr)
    (fun built =>
       match annotation with
       | None => ret (fst built)
       | Some a =>
           _create_grid_annotations fuel
             {| image := fst built; gap := gap; one_image_size := snd built |}
             (column_texts a) (row_texts a) (font a)
       end) w.
Proof.
  unfold _create_images_grid, build_grid.
  destruct (py_index images 0) as [first |]; [| reflexivity].
  unfold bind.
  destruct (Image_size first w) as [sz w1 | |]; try reflexivity.
  destruct (Image_new _ white w1) as [g w2 | |]; try reflexivity.
  destruct (_arrange_images_on_grid g images sz mc gap w2); reflexivity.
Qed.

(** The first stage on a non-empty list of live images: a new white canvas
    of the computed size is allocated after the store, the tiles are pasted
    into it, and nothing that was in the store changes. *)
Lemma build_grid_spec first rest gap mc mr w fimg :
  Forall (fun h => (h < length (heap w))%nat) (first :: rest) ->
  heap w !! first = Some fimg ->
  mc <> 0 ->
  0 <= fst (size fimg) * mc + (mc - 1) * gap ->
  0 <= snd (size fimg) * mr + (mr - 1) * gap ->
  let g := length (heap w) in
  let tile := size fimg in
  let gsz := (fst tile * mc + (mc - 1) * gap, snd tile * mr + (mr - 1) * gap) in
  exists w', build_grid (first :: rest) gap mc mr w = Returns (g, tile) w' /\
    size <$> heap w' !! g = Some gsz /\
    (length (heap w) < length (heap w'))%nat /\
    (forall h, (h < length (heap w))%nat -> heap w' !! h = heap w !! h) /\
    exists new, log w' = log w ++ EvNew g gsz white :: new /\
      length (pastes new) = length (first :: rest) /\
      forall k h, (first :: rest) !! k = Some h ->
        exists src,
          pastes new !! k = Some (g, src, tile_origin tile mc gap (Z.of_nat k)) /\
          tile_source w w' tile h src.
Proof.
  intros Hall Hfirst Hmc Hgw Hgh g tile gsz.
  unfold build_grid. rewrite py_index_0.
  rewrite (bind_returns _ _ _ _ _ (Image_size_ok _ _ _ Hfirst)).
  rewrite (bind_returns _ _ _ _ _ (Image_new_ok gsz white w Hgw Hgh)).
  fold g.
  set (canvas := {| im_width := _; im_height := _; im_pixel := _ |}).
  set (w1 := {| heap := heap w ++ [canvas]; log := _ |}).
  assert (Hlen1 : length (heap w1) = S g).
  { subst w1. simpl. rewrite length_app. simpl. lia. }
  destruct (arrange_from_spec g tile mc gap (first :: rest) 0 w1)
    as (w' & Hrun & Hlen & Hframe & Hgsz & new & Hlog & Hcount & Hpastes);
    try assumption; try apply size_nonneg.
  { lia. }
  { eapply Forall_impl; [exact Hall |]. intros h Hh. cbv beta in Hh.
    split; [rewrite Hlen1 |]; subst g; lia. }
  unfold _arrange_images_on_grid. rewrite (bind_returns _ _ _ _ _ Hrun).
  exists w'. split; [reflexivity |]. split; [| split; [lia | split]].
  - rewrite Hgsz. subst w1. simpl. rewrite lookup_app_r by (fold g; lia).
    fold g. rewrite Nat.sub_diag. simpl. f_equal. subst canvas gsz.
    unfold size at 1. cbn [im_width im_height fst snd].
    rewrite !Z2N.id by assumption. reflexivity.
  - intros h Hh. rewrite Hframe by (fold g in Hh; lia).
    subst w1. simpl. now apply lookup_app_l.
  - exists new. split; [rewrite Hlog; subst w1; simpl; now rewrite <- app_assoc |].
    split; [exact Hcount |].
    intros k h Hk. destruct (Hpastes k h Hk) as (src & Hsrc & Hts).
    exists src. split; [exact Hsrc |].
    apply (tile_source_weaken w w1); [lia | | exact Hts].
    subst w1. simpl. apply lookup_app_l.
    apply list_elem_of_lookup_2 in Hk. rewrite Forall_forall in Hall. now apply Hall.
Qed.

Lemma rows_at_least_one n m : 1 <= n -> 1 <= m -> 1 <= (n + m - 1) / m.
Proof. intros Hn Hm. apply Z.div_le_lower_bound; lia. Qed.

(** C1. For a non-empty list of n live images whose first image has size
    (tileW, tileH), a gap >= 0 and maxColumns >= 1, [create_images_grid_by_columns]
    builds a canvas of width tileW*maxColumns + gap*(maxColumns-1) and height
    tileH*rows + gap*(rows-1) with rows = ceil(n/maxColumns); symmetrically
    [create_images_grid_by_rows] with maxRows >= 1 uses cols = ceil(n/maxRows)
    for the width.  That canvas is what is returned when no annotation is
    given, and what the annotation stage receives otherwise. *)
Theorem grid_canvas_size fuel first rest w fimg tileW tileH gap :
  Forall (fun h => (h < length (heap w))%nat) (first :: rest) ->
  heap w !! first = Some fimg ->
  size fimg = (tileW, tileH) ->
  0 <= gap ->
  let images := first :: rest in
  let n := Z.of_nat (length images) in
  (forall maxColumns, 1 <= maxColumns ->
     let rows := ceil_div n maxColumns in
     exists canvas w',
       size <$> heap w' !! canvas =
         Some (tileW * maxColumns + gap * (maxColumns - 1),
               tileH * rows + gap * (rows - 1)) /\
       forall annotation,
         create_images_grid_by_columns fuel images gap maxColumns annotation w =
         match annotation with
         | None => Returns canvas w'
         | Some a =>
             _create_grid_annotations fuel
               {| image := canvas; gap := gap; one_image_size := (tileW, tileH) |}
               (column_texts a) (row_texts a) (font a) w'
         end) /\
  (forall maxRows, 1 <= maxRows ->
     let cols := ceil_div n maxRows in
     exists canvas w',
       size <$> heap w' !! canvas =
         Some (tileW * cols + gap * (cols - 1),
               tileH * maxRows + gap * (maxRows - 1)) /\
       forall annotation,
         create_images_grid_by_rows fuel images gap maxRows annotation w =
         match annotation with
         | None => Returns canvas w'
         | Some a =>
             _create_grid_annotations fuel
               {| image := canvas; gap := gap; one_image_size := (tileW, tileH) |}
               (column_texts a) (row_texts a) (font a) w'
         end).
Proof.
  intros Hall Hfirst Hsz Hgap images n.
  assert (Hn : 1 <= n) by (subst n images; simpl; lia).
  pose proof (size_nonneg fimg) as [Htw Hth]. rewrite Hsz in Htw, Hth. simpl in Htw, Hth.
  split.
  - intros mc Hmc rows. subst rows. rewrite (ceil_div_floordiv n mc Hmc).
    pose proof (rows_at_least_one n mc Hn Hmc) as Hrows.
    set (rows := (n + mc - 1) / mc) in *.
    destruct (build_grid_spec first rest gap mc rows w fimg Hall Hfirst)
      as (w' & Hrun & Hgsz & _); rewrite ?Hsz; simpl; try nia.
    rewrite Hsz in Hrun, Hgsz. simpl in Hgsz.
    exists (length (heap w)), w'. split.
    + rewrite Hgsz. do 2 f_equal; lia.
    + intros annotation. unfold create_images_grid_by_columns.
      rewrite (bind_returns _ _ _ _ _ (py_floordiv_ok _ mc w ltac:(lia))).
      fold n rows. rewrite create_images_grid_stages.
      rewrite (bind_returns _ _ _ _ _ Hrun). now destruct annotation.
  - intros mr Hmr cols. subst cols. rewrite (ceil_div_floordiv n mr Hmr).
    pose proof (rows_at_least_one n mr Hn Hmr) as Hcols.
    set (cols := (n + mr - 1) / mr) in *.
    destruct (build_grid_spec first rest gap cols mr w fimg Hall Hfirst)
      as (w' & Hrun & Hgsz & _); rewrite ?Hsz; simpl; try nia.
    rewrite Hsz in Hrun, Hgsz. simpl in Hgsz.
    exists (length (heap w)), w'. split.
    + rewrite Hgsz. do 2 f_equal; lia.
    + intros annotation. unfold create_images_grid_by_rows.
      rewrite (bind_returns _ _ _ _ _ (py_floordiv_ok _ mr w ltac:(lia))).
      fold n cols. rewrite create_images_grid_stages.
      rewrite (bind_returns _ _ _ _ _ Hrun). now destruct annotation.
Qed.

Lemma four_tiles_live :
  Forall (fun h => (h < length (heap four_tiles))%nat) [0; 1; 2; 3]%nat.
Proof. repeat constructor. Qed.

Lemma grid_canvas_size_witness :
  exists canvas w',
    size <$> heap w' !! canvas = Some (10 * 3 + 2 * (3 - 1), 10 * 2 + 2 * (2 - 1)) /\
    create_images_grid_by_columns 0 [0; 1; 2; 3]%nat 2 3 None four_tiles =
      Returns canvas w'.
Proof.
  destruct (grid_canvas_size 0 0%nat [1; 2; 3]%nat four_tiles
              (solid 10 10 (RGB 200 0 0)) 10 10 2
              four_tiles_live eq_refl eq_refl ltac:(lia)) as [Hcols _].
  destruct (Hcols 3 ltac:(lia)) as (canvas & w' & Hsize & Hrun).
  exists canvas, w'. split; [exact Hsize | exact (Hrun None)].
Defined.

Lemma four_tiles_apart :
  Forall (fun h => (h < length (heap four_tiles))%nat /\ h <> 3%nat) [0; 1; 2]%nat.
Proof. repeat constructor; auto. Qed.

(** ** Cropping *)

(** A crop to a box anchored at (0,0) keeps every pixel where it was. *)
Lemma crop_image_pixel img w h px py :
  im_pixel (crop_image img (0, 0, w, h)) px py =
  if inside img px py then im_pixel img px py else black.
Proof. unfold crop_image. simpl. now rewrite !Z.add_0_r. Qed.

Lemma tile_source_same w w' tile h src img :
  tile_source w w' tile h src -> heap w !! h = Some img -> size img = tile ->
  src = h.
Proof.
  intros (img' & Himg' & Hcase) Himg Hsz.
  assert (img' = img) as -> by congruence.
  destruct Hcase as [[_ ?] | [Hne _]]; [assumption | contradiction].
Qed.

Lemma tile_source_crop w w' tile h src img :
  tile_source w w' tile h src -> heap w !! h = Some img -> size img <> tile ->
  (length (heap w) <= src)%nat /\
  heap w' !! src = Some (crop_image img (0, 0, fst tile, snd tile)).
Proof.
  intros (img' & Himg' & Hcase) Himg Hsz.
  assert (img' = img) as -> by congruence.
  destruct Hcase as [[? _] | (_ & ? & ?)]; [contradiction | now split].
Qed.

(** C8. Tile placement writes to the destination canvas only: every other
    image of the store, and so every input image, is left as it was.  An
    input image whose size differs from the tile size is not modified in
    place: what is pasted for it is a new image, its crop to the box
    (0,0)-(tileWidth,tileHeight), of the tile size, in which every pixel of
    the input that the box keeps sits at the same coordinates (top-left
    anchored, not scaled). *)
Theorem tile_placer_frame grid_image images tileWidth tileHeight maxColumns gap w :
  maxColumns <> 0 -> 0 <= tileWidth -> 0 <= tileHeight ->
  (grid_image < length (heap w))%nat ->
  Forall (fun h => (h < length (heap w))%nat /\ h <> grid_image) images ->
  exists w' new,
    _arrange_images_on_grid grid_image images (tileWidth, tileHeight)
      maxColumns gap w = Returns tt w' /\
    log w' = log w ++ new /\
    (forall h, (h < length (heap w))%nat -> h <> grid_image ->
       heap w' !! h = heap w !! h) /\
    (forall (i : nat) h img,
       images !! i = Some h -> heap w !! h = Some img ->
       heap w' !! h = Some img /\
       exists src,
         fst <$> pastes new !! i = Some (grid_image, src) /\
         (size img = (tileWidth, tileHeight) -> src = h) /\
         (size img <> (tileWidth, tileHeight) ->
            let cropped := crop_image img (0, 0, tileWidth, tileHeight) in
            (length (heap w) <= src)%nat /\
            heap w' !! src = Some cropped /\
            size cropped = (tileWidth, tileHeight) /\
            forall px py, inside img px py = true ->
              im_pixel cropped px py = im_pixel img px py)).
Proof.
  intros Hmc Htw Hth Hg Hall.
  destruct (arrange_from_spec grid_image (tileWidth, tileHeight) maxColumns gap
              images 0 w Hmc Htw Hth Hg Hall)
    as (w' & Hrun & _ & Hframe & _ & new & Hlog & _ & Hpastes).
  exists w', new. split; [exact Hrun |]. split; [exact Hlog |].
  split; [exact Hframe |].
  intros i h img Hi Himg.
  assert (Hin : h ∈ images) by (eapply list_elem_of_lookup_2; eauto).
  rewrite Forall_forall in Hall. destruct (Hall h Hin) as [Hh Hne].
  split; [rewrite Hframe by assumption; exact Himg |].
  destruct (Hpastes i h Hi) as (src & Hsrc & Hts).
  exists src. split; [now rewrite Hsrc |]. split.
  - intros Hsz. exact (tile_source_same _ _ _ _ _ _ Hts Himg Hsz).
  - intros Hsz cropped.
    destruct (tile_source_crop _ _ _ _ _ _ Hts Himg Hsz) as [Hfresh Hsrc'].
    split; [exact Hfresh |]. split; [exact Hsrc' |]. split.
    + subst cropped. rewrite size_crop_image by assumption. f_equal; lia.
    + intros px py Hin'. subst cropped. rewrite crop_image_pixel. now rewrite Hin'.
Qed.

Lemma tile_placer_frame_witness :
  exists w' new,
    _arrange_images_on_grid 3%nat [0; 1; 2]%nat (10, 10) 2 2 four_tiles =
      Returns tt w' /\
    log w' = log four_tiles ++ new /\
    heap w' !! 1%nat = heap four_tiles !! 1%nat.
Proof.
  destruct (tile_placer_frame 3%nat [0; 1; 2]%nat 10 10 2 2 four_tiles
              ltac:(lia) ltac:(lia) ltac:(lia) ltac:(simpl; lia) four_tiles_apart)
    as (w' & new & Hrun & Hlog & Hframe & _).
  exists w', new. split; [exact Hrun |]. split; [exact Hlog |].
  apply Hframe; [simpl; lia | lia].
Defined.



Lemma small_second_apart :
  Forall (fun h => (h < length (heap small_second_canvas))%nat /\ h <> 2%nat)
    [0; 1]%nat.
Proof. repeat constructor; auto. Qed.


(** ** Drawing one label *)

Lemma draw_center_text_ok draw x0 y0 x1 y1 text fill w im :
  heap w !! draw_image draw = Some im ->
  _draw_center_text draw (x0, y0, x1, y1) text fill w =
    Returns tt
      {| heap := <[draw_image draw :=
                     ink_image (draw_font draw) im
                       (label_position (draw_font draw) (x0, y0, x1, y1) text)
                       text fill]> (heap w);
         log := log w ++ [EvText (draw_image draw)
                            (label_position (draw_font draw) (x0, y0, x1, y1) text)
                            text fill] |}.
Proof.
  intros Him. unfold _draw_center_text, ImageDraw_textbbox, label_position.
  destruct (getbbox (draw_font draw) text) as [[[l t] r] b].
  rewrite bind_ret. cbn [fst snd]. rewrite !Z.add_0_r.
  now apply ImageDraw_text_ok.
Qed.

Lemma py_index_nat {A} (l : list A) (k : nat) : py_index l (Z.of_nat k) = l !! k.
Proof.
  unfold py_index. destruct (Z.leb_spec 0 (Z.of_nat k)); [| lia]. simpl.
  destruct (Z.ltb_spec (Z.of_nat k) (Z.of_nat (length l))).
  - now rewrite Nat2Z.id.
  - destruct (Z.leb_spec (- Z.of_nat (length l)) (Z.of_nat k)); simpl.
    + destruct (Z.ltb_spec (Z.of_nat k) 0); [lia |].
      symmetry. apply lookup_ge_None_2. lia.
    + symmetry. apply lookup_ge_None_2. lia.
Qed.

(** [_draw_text_by_xy] never fails on a live drawing context: it performs
    [draw_band] and hands back the next index. *)
Lemma draw_text_by_xy_ok b draw texts w :
  (draw_image draw < length (heap w))%nat ->
  _draw_text_by_xy (band_rect b) (b_i b) draw texts w =
    Returns (b_i b + 1) (draw_band draw texts b w).
Proof.
  intros Hlive. destruct (lookup_lt_is_Some_2 _ _ Hlive) as [im Him].
  unfold _draw_text_by_xy, draw_band, bind, suppress_IndexError.
  destruct (py_index texts (b_i b)) as [text |].
  - unfold band_rect. rewrite (draw_center_text_ok _ _ _ _ _ _ _ _ _ Him).
    unfold draw_label. now rewrite Him.
  - reflexivity.
Qed.

Lemma draw_label_length draw xy text w :
  length (heap (draw_label draw xy text w)) = length (heap w).
Proof.
  unfold draw_label. destruct (heap w !! draw_image draw); [| reflexivity].
  simpl. apply length_insert.
Qed.

Lemma draw_label_size draw xy text w h :
  size <$> heap (draw_label draw xy text w) !! h = size <$> heap w !! h.
Proof.
  unfold draw_label. destruct (heap w !! draw_image draw) as [im |] eqn:Him; [| reflexivity].
  simpl. destruct (decide (draw_image draw = h)) as [<- | Hne].
  - rewrite list_lookup_insert_eq by (eapply lookup_lt_Some; eauto).
    now rewrite Him.
  - now rewrite list_lookup_insert_ne.
Qed.

Lemma draw_label_other draw xy text w h :
  h <> draw_image draw -> heap (draw_label draw xy text w) !! h = heap w !! h.
Proof.
  intros Hne. unfold draw_label.
  destruct (heap w !! draw_image draw); [| reflexivity].
  simpl. now rewrite list_lookup_insert_ne.
Qed.

Lemma draw_band_length draw texts b w :
  length (heap (draw_band draw texts b w)) = length (heap w).
Proof. unfold draw_band. destruct (py_index texts (b_i b)); [apply draw_label_length | reflexivity]. Qed.

Lemma draw_band_size draw texts b w h :
  size <$> heap (draw_band draw texts b w) !! h = size <$> heap w !! h.
Proof. unfold draw_band. destruct (py_index texts (b_i b)); [apply draw_label_size | reflexivity]. Qed.

Lemma draw_band_other draw texts b w h :
  h <> draw_image draw -> heap (draw_band draw texts b w) !! h = heap w !! h.
Proof.
  intros Hne. unfold draw_band.
  destruct (py_index texts (b_i b)); [now apply draw_label_other | reflexivity].
Qed.

Lemma draw_bands_length next draw texts count : forall b w,
  length (heap (draw_bands next draw texts count b w)) = length (heap w).
Proof.
  induction count as [| count IH]; intros b w; simpl; [reflexivity |].
  rewrite IH. apply draw_band_length.
Qed.

Lemma draw_bands_size next draw texts count h : forall b w,
  size <$> heap (draw_bands next draw texts count b w) !! h = size <$> heap w !! h.
Proof.
  induction count as [| count IH]; intros b w; simpl; [reflexivity |].
  rewrite IH. apply draw_band_size.
Qed.

Lemma draw_bands_other next draw texts count h : forall b w,
  h <> draw_image draw ->
  heap (draw_bands next draw texts count b w) !! h = heap w !! h.
Proof.
  induction count as [| count IH]; intros b w Hne; simpl; [reflexivity |].
  rewrite IH by assumption. now apply draw_band_other.
Qed.

(** ** The label loops *)

Lemma Image_size_of h w sz :
  size <$> heap w !! h = Some sz -> Image_size h w = Returns sz w.
Proof.
  intros H. apply fmap_Some in H as (im & Him & ->). now apply Image_size_ok.
Qed.

(** The column loop started [count] bands before its boundary makes exactly
    [count] turns: with that much fuel it returns the store of the counted
    loop, with less it runs out of fuel. *)
Lemma column_while_run draw texts gi lp gsz : forall (count fuel : nat) b w,
  let step := fst (one_image_size gi) + gap gi in
  size <$> heap w !! image gi = Some gsz ->
  (draw_image draw < length (heap w))%nat ->
  0 < step ->
  b_x0 b + Z.of_nat count * step = fst gsz + lp + gap gi ->
  (count <= fuel)%nat ->
  _draw_column_text_while fuel draw texts gi lp b w =
    Returns (Nat.iter count (next_column step) b)
            (draw_bands (next_column step) draw texts count b w).
Proof.
  intros count fuel b w step. revert fuel b w.
  induction count as [| count IH]; intros fuel b w Hsz Hlive Hstep Hx Hfuel.
  - assert (Hexit : (b_x0 b =? fst gsz + lp + gap gi) = true) by (apply Z.eqb_eq; lia).
    destruct fuel; simpl;
      rewrite (bind_returns _ _ _ _ _ (Image_size_of _ _ _ Hsz)), Hexit; reflexivity.
  - destruct fuel as [| fuel]; [lia |].
    assert (Hgo : (b_x0 b =? fst gsz + lp + gap gi) = false) by (apply Z.eqb_neq; nia).
    cbn [_draw_column_text_while].
    rewrite (bind_returns _ _ _ _ _ (Image_size_of _ _ _ Hsz)), Hgo. cbn [negb].
    rewrite (bind_returns _ _ _ _ _ (draw_text_by_xy_ok b draw texts w Hlive)).
    change (mkBand ?i ?a ?b' ?c ?d) with (next_column step b).
    rewrite IH.
    + rewrite Nat.iter_succ_r. reflexivity.
    + rewrite draw_band_size. exact Hsz.
    + rewrite draw_band_length. exact Hlive.
    + exact Hstep.
    + simpl. lia.
    + lia.
Qed.


(** The row loop, likewise. *)
Lemma row_while_run draw texts gi tp gsz : forall (count fuel : nat) b w,
  let step := snd (one_image_size gi) + gap gi in
  size <$> heap w !! image gi = Some gsz ->
  (draw_image draw < length (heap w))%nat ->
  0 < step ->
  b_y0 b + Z.of_nat count * step = snd gsz + tp + gap gi ->
  (count <= fuel)%nat ->
  _draw_row_text_while fuel draw texts gi tp b w =
    Returns (Nat.iter count (next_row step) b)
            (draw_bands (next_row step) draw texts count b w).
Proof.
  intros count fuel b w step. revert fuel b w.
  induction count as [| count IH]; intros fuel b w Hsz Hlive Hstep Hy Hfuel.
  - assert (Hexit : (b_y0 b =? snd gsz + tp + gap gi) = true) by (apply Z.eqb_eq; lia).
    destruct fuel; simpl;
      rewrite (bind_returns _ _ _ _ _ (Image_size_of _ _ _ Hsz)), Hexit; reflexivity.
  - destruct fuel as [| fuel]; [lia |].
    assert (Hgo : (b_y0 b =? snd gsz + tp + gap gi) = false) by (apply Z.eqb_neq; nia).
    cbn [_draw_row_text_while].
    rewrite (bind_returns _ _ _ _ _ (Image_size_of _ _ _ Hsz)), Hgo. cbn [negb].
    rewrite (bind_returns _ _ _ _ _ (draw_text_by_xy_ok b draw texts w Hlive)).
    change (mkBand ?i ?a ?b' ?c ?d) with (next_row step b).
    rewrite IH.
    + rewrite Nat.iter_succ_r. reflexivity.
    + rewrite draw_band_size. exact Hsz.
    + rewrite draw_band_length. exact Hlive.
    + exact Hstep.
    + simpl. lia.
    + lia.
Qed.


Lemma iter_next_column step (count : nat) b :
  Nat.iter count (next_column step) b =
  {| b_i := b_i b + Z.of_nat count;
     b_x0 := b_x0 b + Z.of_nat count * step; b_y0 := b_y0 b;
     b_x1 := b_x1 b + Z.of_nat count * step; b_y1 := b_y1 b |}.
Proof.
  induction count as [| count IH].
  - destruct b. simpl. f_equal; lia.
  - rewrite Nat.iter_succ, IH. unfold next_column. simpl. f_equal; lia.
Qed.

Lemma iter_next_row step (count : nat) b :
  Nat.iter count (next_row step) b =
  {| b_i := b_i b + Z.of_nat count;
     b_x0 := b_x0 b; b_y0 := b_y0 b + Z.of_nat count * step;
     b_x1 := b_x1 b; b_y1 := b_y1 b + Z.of_nat count * step |}.
Proof.
  induction count as [| count IH].
  - destruct b. simpl. f_equal; lia.
  - rewrite Nat.iter_succ, IH. unfold next_row. simpl. f_equal; lia.
Qed.

(** ** What the counted loop draws *)

Lemma draw_label_log draw xy text w :
  (draw_image draw < length (heap w))%nat ->
  log (draw_label draw xy text w) = log w ++ [label_event draw text xy].
Proof.
  intros Hlive. destruct (lookup_lt_is_Some_2 _ _ Hlive) as [im Him].
  unfold draw_label. now rewrite Him.
Qed.

(** Labels are handed out by index: the trace gains the labels from the
    current index on, paired off with the bands, as far as both last. *)
Lemma draw_bands_log next draw texts :
  (forall b, b_i (next b) = b_i b + 1) ->
  forall count b w (k : nat),
    b_i b = Z.of_nat k ->
    (draw_image draw < length (heap w))%nat ->
    log (draw_bands next draw texts count b w) =
      log w ++ zip_with (label_event draw) (drop k texts) (band_rects next count b).
Proof.
  intros Hnext. induction count as [| count IH]; intros b w k Hk Hlive.
  - simpl. destruct (drop k texts); simpl; now rewrite app_nil_r.
  - simpl. unfold draw_band at 1. rewrite Hk, py_index_nat.
    destruct (texts !! k) as [text |] eqn:Htext.
    + rewrite (IH (next b) _ (S k)).
      * rewrite draw_label_log by exact Hlive.
        rewrite (drop_S _ _ _ Htext). simpl. now rewrite <- app_assoc.
      * rewrite Hnext, Hk. lia.
      * now rewrite draw_label_length.
    + rewrite (IH (next b) _ (S k)); [| rewrite Hnext, Hk; lia | exact Hlive].
      apply lookup_ge_None_1 in Htext.
      rewrite !drop_ge by lia. reflexivity.
Qed.

(** The image drawn on keeps its size, and keeps every pixel that the ink of
    no drawn label covers. *)
Lemma draw_bands_inked next draw texts : forall count b w im,
  heap w !! draw_image draw = Some im ->
  exists im' new,
    heap (draw_bands next draw texts count b w) !! draw_image draw = Some im' /\
    log (draw_bands next draw texts count b w) = log w ++ new /\
    pastes new = [] /\
    size im' = size im /\
    forall px py,
      (forall pos text fill, In (EvText (draw_image draw) pos text fill) new ->
         ink (draw_font draw) pos text px py = false) ->
      im_pixel im' px py = im_pixel im px py.
Proof.
  induction count as [| count IH]; intros b w im Him.
  - exists im, []. simpl. rewrite app_nil_r. repeat split; auto.
  - simpl. unfold draw_band. destruct (py_index texts (b_i b)) as [text |].
    + unfold draw_label. rewrite Him.
      set (pos := label_position (draw_font draw) (band_rect b) text).
      set (im1 := ink_image (draw_font draw) im pos text black).
      set (w1 := {| heap := _; log := _ |}).
      assert (Him1 : heap w1 !! draw_image draw = Some im1).
      { subst w1. simpl. apply list_lookup_insert_eq. eapply lookup_lt_Some; eauto. }
      destruct (IH (next b) w1 im1 Him1) as (im' & new & Him' & Hlog & Hnone & Hsz & Hpix).
      exists im', (EvText (draw_image draw) pos text black :: new).
      split; [exact Him' |]. split; [rewrite Hlog; subst w1; simpl; now rewrite <- app_assoc |].
      split; [now rewrite pastes_cons_text |].
      split; [rewrite Hsz; reflexivity |].
      intros px py Hclear. rewrite Hpix.
      * subst im1. unfold ink_image. simpl.
        rewrite (Hclear pos text black); [reflexivity | now left].
      * intros pos' text' fill' Hin. apply (Hclear pos' text' fill'). now right.
    + exact (IH (next b) w im Him).
Qed.

(** ** Python's [max] and [int] *)

Lemma fold_max_spec (rest : list Q) : forall (m0 : Q),
  let m := fold_left (fun m y => if Qlt_le_dec m y then y else m) rest m0 in
  (m = m0 \/ In m rest) /\ (m0 <= m)%Q /\ (forall x, In x rest -> (x <= m)%Q).
Proof.
  induction rest as [| y rest IH]; intros m0; simpl.
  - split; [now left |]. split; [apply Qle_refl | intros x []].
  - destruct (Qlt_le_dec m0 y) as [Hlt | Hle].
    + destruct (IH y) as (Hin & Hge & Hall). split; [| split].
      * destruct Hin as [-> | Hin]; right; [now left | now right].
      * eapply Qle_trans; [apply Qlt_le_weak; exact Hlt | exact Hge].
      * intros x [<- | Hx]; [exact Hge | now apply Hall].
    + destruct (IH m0) as (Hin & Hge & Hall). split; [| split].
      * destruct Hin as [-> | Hin]; [now left | right; now right].
      * exact Hge.
      * intros x [<- | Hx]; [eapply Qle_trans; eauto | now apply Hall].
Qed.

Lemma py_max_spec (xs : list Q) m :
  py_max xs = Some m -> In m xs /\ forall x, In x xs -> (x <= m)%Q.
Proof.
  destruct xs as [| x0 rest]; [discriminate |]. simpl. intros [= <-].
  destruct (fold_max_spec rest x0) as (Hin & Hge & Hall). split.
  - destruct Hin as [-> | Hin]; [now left | now right].
  - intros x [<- | Hx]; [exact Hge | now apply Hall].
Qed.

Lemma py_max_nonempty (xs : list Q) : xs <> [] -> exists m, py_max xs = Some m.
Proof. destruct xs; [congruence | eexists; reflexivity]. Qed.

Lemma py_int_nonneg (q : Q) : (0 <= q)%Q -> 0 <= py_int q.
Proof.
  unfold py_int, Qle. simpl. intros H. rewrite Z.mul_1_r in H.
  apply Z.quot_pos; lia.
Qed.

(** ** The annotation stage *)

Lemma paste_to_corner_ok base img w b i :
  heap w !! base = Some b -> heap w !! img = Some i ->
  _paste_image_to_lower_left_corner base img w =
    Returns tt
      {| heap := <[base := paste_image b i
                     (fst (size b) - fst (size i), snd (size b) - snd (size i))]>
                   (heap w);
         log := log w ++ [EvPaste base img
                            (fst (size b) - fst (size i), snd (size b) - snd (size i))] |}.
Proof.
  intros Hb Hi. unfold _paste_image_to_lower_left_corner.
  rewrite (bind_returns _ _ _ _ _ (Image_size_ok _ _ _ Hb)).
  rewrite (bind_returns _ _ _ _ _ (Image_size_ok _ _ _ Hi)).
  now apply Image_paste_ok.
Qed.

Lemma size_new a b pix :
  0 <= a -> 0 <= b ->
  size {| im_width := Z.to_N a; im_height := Z.to_N b; im_pixel := pix |} = (a, b).
Proof. intros Ha Hb. unfold size. simpl. now rewrite !Z2N.id. Qed.

Lemma draw_column_text_run fuel draw texts gi lp tp w b' w' :
  _draw_column_text_while fuel draw texts gi lp
    (first_column lp tp (fst (one_image_size gi))) w = Returns b' w' ->
  _draw_column_text fuel draw texts gi lp tp w = Returns tt w'.
Proof.
  intros H. unfold _draw_column_text.
  change (mkBand ?i ?a ?b ?c ?d) with (first_column lp tp (fst (one_image_size gi))).
  now rewrite (bind_returns _ _ _ _ _ H).
Qed.

Lemma draw_row_text_run fuel draw texts gi lp tp w b' w' :
  _draw_row_text_while fuel draw texts gi tp
    (first_row lp tp (snd (one_image_size gi))) w = Returns b' w' ->
  _draw_row_text fuel draw texts gi lp tp w = Returns tt w'.
Proof.
  intros H. unfold _draw_row_text.
  change (mkBand ?i ?a ?b ?c ?d) with (first_row lp tp (snd (one_image_size gi))).
  now rewrite (bind_returns _ _ _ _ _ H).
Qed.

Lemma py_not_nonempty {A} (l : list A) : l <> [] -> py_not l = false.
Proof. destruct l; [congruence | reflexivity]. Qed.

(** With non-empty label lists, a grid of [cols] x [rows] tiles, a positive
    step on each axis and fuel for the longer pass, the annotation stage
    returns the new canvas in the store of the counted description. *)
Lemma annotations_run fuel gi column_texts row_texts f w gimg widest
    (cols rows : nat) :
  column_texts <> [] -> row_texts <> [] ->
  heap w !! image gi = Some gimg ->
  size gimg =
    (fst (one_image_size gi) * Z.of_nat cols + (Z.of_nat cols - 1) * gap gi,
     snd (one_image_size gi) * Z.of_nat rows + (Z.of_nat rows - 1) * gap gi) ->
  0 < fst (one_image_size gi) + gap gi ->
  0 < snd (one_image_size gi) + gap gi ->
  py_max (map (getlength f) row_texts) = Some widest ->
  0 <= fst (size gimg) + left_padding_of f widest ->
  0 <= snd (size gimg) + top_padding_of f ->
  (cols <= fuel)%nat -> (rows <= fuel)%nat ->
  _create_grid_annotations fuel gi column_texts row_texts f w =
    Returns (length (heap w))
      (annotation_stage gi gimg column_texts row_texts f widest cols rows w).
Proof.
  intros Hc Hr Hg Hsz Hsx Hsy Hmax Hcw Hch Hfc Hfr.
  unfold _create_grid_annotations.
  rewrite (py_not_nonempty _ Hc), (py_not_nonempty _ Hr). cbn [orb].
  rewrite Hmax.
  fold (margin_of f). fold (left_padding_of f widest). fold (top_padding_of f).
  set (lp := left_padding_of f widest) in *. set (tp := top_padding_of f) in *.
  rewrite (bind_returns _ _ _ _ _ (Image_size_ok _ _ _ Hg)).
  rewrite (bind_returns _ _ _ _ _
             (Image_new_ok (fst (size gimg) + lp, snd (size gimg) + tp) white w Hcw Hch)).
  set (canvas := length (heap w)).
  set (blank := {| im_width := _; im_height := _; im_pixel := _ |}).
  set (w0 := {| heap := heap w ++ [blank]; log := _ |}).
  assert (Hb : heap w0 !! canvas = Some blank).
  { subst w0 canvas. simpl. rewrite lookup_app_r by lia. now rewrite Nat.sub_diag. }
  assert (Hg0 : heap w0 !! image gi = Some gimg).
  { subst w0. simpl. rewrite lookup_app_l; [exact Hg | eapply lookup_lt_Some; eauto]. }
  rewrite (bind_returns _ _ _ _ _ (paste_to_corner_ok canvas (image gi) w0 blank gimg Hb Hg0)).
  assert (Hoff : (fst (size blank) - fst (size gimg), snd (size blank) - snd (size gimg))
                 = (lp, tp)).
  { subst blank. rewrite size_new by assumption. cbn [fst snd]. f_equal; lia. }
  rewrite Hoff.
  change {| heap := <[canvas := paste_image blank gimg (lp, tp)]> (heap w0);
            log := log w0 ++ [EvPaste canvas (image gi) (lp, tp)] |}
    with {| heap := <[canvas := paste_image blank gimg (lp, tp)]> (heap w ++ [blank]);
            log := (log w ++ [EvNew canvas (fst (size gimg) + lp, snd (size gimg) + tp) white])
                     ++ [EvPaste canvas (image gi) (lp, tp)] |}.
  rewrite <- app_assoc. cbn [app].
  change {| heap := _; log := _ |} with (canvas_with_grid gimg lp tp (image gi) w).
  set (w1 := canvas_with_grid gimg lp tp (image gi) w).
  set (draw := {| draw_image := canvas; draw_font := f |}).
  assert (Hlen1 : length (heap w1) = S canvas).
  { subst w1. unfold canvas_with_grid. simpl. rewrite length_insert, length_app. simpl. lia. }
  assert (Hne : image gi <> canvas).
  { apply lookup_lt_Some in Hg. subst canvas. lia. }
  assert (Hg1 : size <$> heap w1 !! image gi = Some (size gimg)).
  { subst w1. unfold canvas_with_grid. simpl.
    rewrite list_lookup_insert_ne by (fold canvas; congruence).
    rewrite lookup_app_l by (eapply lookup_lt_Some; eauto). now rewrite Hg. }
  assert (Hcol := column_while_run draw column_texts gi lp (size gimg) cols fuel
                    (first_column lp tp (fst (one_image_size gi))) w1 Hg1).
  cbv zeta in Hcol. rewrite Hlen1 in Hcol.
  specialize (Hcol ltac:(simpl; lia) Hsx ltac:(rewrite Hsz; simpl; lia) Hfc).
  rewrite (bind_returns _ _ _ _ _ (draw_column_text_run _ _ _ _ _ _ _ _ _ Hcol)).
  set (w2 := draw_bands _ draw column_texts cols _ w1).
  assert (Hg2 : size <$> heap w2 !! image gi = Some (size gimg)).
  { subst w2. now rewrite draw_bands_size. }
  assert (Hlen2 : length (heap w2) = S canvas).
  { subst w2. now rewrite draw_bands_length. }
  assert (Hrow := row_while_run draw row_texts gi tp (size gimg) rows fuel
                    (first_row lp tp (snd (one_image_size gi))) w2 Hg2).
  cbv zeta in Hrow. rewrite Hlen2 in Hrow.
  specialize (Hrow ltac:(simpl; lia) Hsy ltac:(rewrite Hsz; simpl; lia) Hfr).
  rewrite (bind_returns _ _ _ _ _ (draw_row_text_run _ _ _ _ _ _ _ _ _ Hrow)).
  reflexivity.
Qed.

(** ** The claims on the label loops *)

Lemma band_rects_length next count : forall b,
  length (band_rects next count b) = count.
Proof. induction count as [| count IH]; intros b; simpl; [reflexivity | now rewrite IH]. Qed.

Lemma band_rects_lookup next count : forall b (i : nat),
  (i < count)%nat ->
  band_rects next count b !! i = Some (band_rect (Nat.iter i next b)).
Proof.
  induction count as [| count IH]; intros b i Hi; [lia |].
  destruct i as [| i]; [reflexivity |].
  simpl band_rects. cbn [lookup list_lookup]. rewrite IH by lia.
  now rewrite Nat.iter_succ_r.
Qed.



Lemma column_pass_log fuel draw texts gi w gimg (cols : nat) lp tp :
  heap w !! image gi = Some gimg ->
  fst (size gimg) = fst (one_image_size gi) * Z.of_nat cols
                    + (Z.of_nat cols - 1) * gap gi ->
  0 < fst (one_image_size gi) + gap gi ->
  (draw_image draw < length (heap w))%nat ->
  (cols <= fuel)%nat ->
  exists w',
    _draw_column_text fuel draw texts gi lp tp w = Returns tt w' /\
    log w' = log w ++
      zip_with (label_event draw) texts
        (band_rects (next_column (fst (one_image_size gi) + gap gi)) cols
           (first_column lp tp (fst (one_image_size gi)))).
Proof.
  intros Hg Hsz Hstep Hlive Hfuel.
  assert (Hgsz : size <$> heap w !! image gi = Some (size gimg)) by now rewrite Hg.
  pose proof (column_while_run draw texts gi lp (size gimg) cols fuel
                (first_column lp tp (fst (one_image_size gi))) w Hgsz Hlive Hstep) as Hrun.
  cbv zeta in Hrun. specialize (Hrun ltac:(rewrite Hsz; simpl; lia) Hfuel).
  eexists. split; [exact (draw_column_text_run _ _ _ _ _ _ _ _ _ Hrun) |].
  rewrite (draw_bands_log (next_column (fst (one_image_size gi) + gap gi)) draw texts
             (fun b => eq_refl) cols
             (first_column lp tp (fst (one_image_size gi))) w 0%nat eq_refl Hlive).
  now rewrite drop_0.
Qed.

Lemma row_pass_log fuel draw texts gi w gimg (rows : nat) lp tp :
  heap w !! image gi = Some gimg ->
  snd (size gimg) = snd (one_image_size gi) * Z.of_nat rows
                    + (Z.of_nat rows - 1) * gap gi ->
  0 < snd (one_image_size gi) + gap gi ->
  (draw_image draw < length (heap w))%nat ->
  (rows <= fuel)%nat ->
  exists w',
    _draw_row_text fuel draw texts gi lp tp w = Returns tt w' /\
    log w' = log w ++
      zip_with (label_event draw) texts
        (band_rects (next_row (snd (one_image_size gi) + gap gi)) rows
           (first_row lp tp (snd (one_image_size gi)))).
Proof.
  intros Hg Hsz Hstep Hlive Hfuel.
  assert (Hgsz : size <$> heap w !! image gi = Some (size gimg)) by now rewrite Hg.
  pose proof (row_while_run draw texts gi tp (size gimg) rows fuel
                (first_row lp tp (snd (one_image_size gi))) w Hgsz Hlive Hstep) as Hrun.
  cbv zeta in Hrun. specialize (Hrun ltac:(rewrite Hsz; simpl; lia) Hfuel).
  eexists. split; [exact (draw_row_text_run _ _ _ _ _ _ _ _ _ Hrun) |].
  rewrite (draw_bands_log (next_row (snd (one_image_size gi) + gap gi)) draw texts
             (fun b => eq_refl) rows
             (first_row lp tp (snd (one_image_size gi))) w 0%nat eq_refl Hlive).
  now rewrite drop_0.
Qed.

Lemma zip_labels_lookup draw texts rects (i : nat) t r :
  texts !! i = Some t -> rects !! i = Some r ->
  zip_with (label_event draw) texts rects !! i = Some (label_event draw t r).
Proof. intros Ht Hr. rewrite lookup_zip_with, Ht, Hr. reflexivity. Qed.

(** The image drawn on by a pass, pixel by pixel: black where one of the
    labels drawn has ink, as it was elsewhere. *)
Lemma draw_bands_store next draw texts :
  (forall b, b_i (next b) = b_i b + 1) ->
  forall count b w (k : nat) im,
    b_i b = Z.of_nat k ->
    heap w !! draw_image draw = Some im ->
    let labels :=
      zip_with (label_event draw) (drop k texts) (band_rects next count b) in
    exists im',
      heap (draw_bands next draw texts count b w) !! draw_image draw = Some im' /\
      size im' = size im /\
      forall X Y,
        im_pixel im' X Y =
        if inked (draw_font draw) labels X Y then black else im_pixel im X Y.
Proof.
  intros Hnext. induction count as [| count IH]; intros b w k im Hk Him labels.
  - exists im. subst labels. simpl. split; [exact Him |]. split; [reflexivity |].
    intros X Y. now destruct (drop k texts).
  - subst labels. simpl. unfold draw_band. rewrite Hk, py_index_nat.
    destruct (texts !! k) as [text |] eqn:Htext.
    + unfold draw_label. rewrite Him.
      set (pos := label_position (draw_font draw) (band_rect b) text).
      set (im1 := ink_image (draw_font draw) im pos text black).
      set (w1 := {| heap := _; log := _ |}).
      assert (Him1 : heap w1 !! draw_image draw = Some im1).
      { subst w1. cbn [heap]. apply list_lookup_insert_eq. eapply lookup_lt_Some; eauto. }
      destruct (IH (next b) w1 (S k) im1) as (im' & Him' & Hsz & Hpix).
      { rewrite Hnext, Hk. lia. }
      { exact Him1. }
      exists im'. split; [exact Him' |]. split; [rewrite Hsz; reflexivity |].
      intros X Y. rewrite Hpix, (drop_S _ _ _ Htext).
      cbn [zip_with inked existsb label_event]. fold pos.
      unfold inked. subst im1. unfold ink_image. cbn [im_pixel].
      destruct (ink (draw_font draw) pos text X Y); cbn [orb]; [| reflexivity].
      now destruct (existsb _ _).
    + destruct (IH (next b) w (S k) im) as (im' & Him' & Hsz & Hpix).
      { rewrite Hnext, Hk. lia. }
      { exact Him. }
      exists im'. split; [exact Him' |]. split; [exact Hsz |].
      intros X Y. rewrite Hpix.
      apply lookup_ge_None_1 in Htext. rewrite !drop_ge by lia. reflexivity.
Qed.

(** A whole pass, from the code to its counted description. *)
Lemma column_pass_run fuel draw texts gi w gimg (cols : nat) lp tp :
  heap w !! image gi = Some gimg ->
  fst (size gimg) = fst (one_image_size gi) * Z.of_nat cols
                    + (Z.of_nat cols - 1) * gap gi ->
  0 < fst (one_image_size gi) + gap gi ->
  (draw_image draw < length (heap w))%nat ->
  (cols <= fuel)%nat ->
  _draw_column_text fuel draw texts gi lp tp w =
    Returns tt
      (draw_bands (next_column (fst (one_image_size gi) + gap gi)) draw texts cols
         (first_column lp tp (fst (one_image_size gi))) w).
Proof.
  intros Hg Hsz Hstep Hlive Hfuel.
  assert (Hgsz : size <$> heap w !! image gi = Some (size gimg)) by now rewrite Hg.
  pose proof (column_while_run draw texts gi lp (size gimg) cols fuel
                (first_column lp tp (fst (one_image_size gi))) w Hgsz Hlive Hstep) as Hrun.
  cbv zeta in Hrun. specialize (Hrun ltac:(rewrite Hsz; simpl; lia) Hfuel).
  exact (draw_column_text_run _ _ _ _ _ _ _ _ _ Hrun).
Qed.

Lemma row_pass_run fuel draw texts gi w gimg (rows : nat) lp tp :
  heap w !! image gi = Some gimg ->
  snd (size gimg) = snd (one_image_size gi) * Z.of_nat rows
                    + (Z.of_nat rows - 1) * gap gi ->
  0 < snd (one_image_size gi) + gap gi ->
  (draw_image draw < length (heap w))%nat ->
  (rows <= fuel)%nat ->
  _draw_row_text fuel draw texts gi lp tp w =
    Returns tt
      (draw_bands (next_row (snd (one_image_size gi) + gap gi)) draw texts rows
         (first_row lp tp (snd (one_image_size gi))) w).
Proof.
  intros Hg Hsz Hstep Hlive Hfuel.
  assert (Hgsz : size <$> heap w !! image gi = Some (size gimg)) by now rewrite Hg.
  pose proof (row_while_run draw texts gi tp (size gimg) rows fuel
                (first_row lp tp (snd (one_image_size gi))) w Hgsz Hlive Hstep) as Hrun.
  cbv zeta in Hrun. specialize (Hrun ltac:(rewrite Hsz; simpl; lia) Hfuel).
  exact (draw_row_text_run _ _ _ _ _ _ _ _ _ Hrun).
Qed.

(** The effect of a pass of [count] bands on the store and the trace. *)
Lemma pass_effect next draw texts count b w :
  (forall b, b_i (next b) = b_i b + 1) ->
  b_i b = 0 ->
  (draw_image draw < length (heap w))%nat ->
  let w' := draw_bands next draw texts count b w in
  let new := zip_with (label_event draw) texts (band_rects next count b) in
  log w' = log w ++ new /\
  length new = Nat.min (length texts) count /\
  length (heap w') = length (heap w) /\
  (forall h, h <> draw_image draw -> heap w' !! h = heap w !! h) /\
  (forall im, heap w !! draw_image draw = Some im ->
     exists im',
       heap w' !! draw_image draw = Some im' /\
       size im' = size im /\
       forall X Y,
         im_pixel im' X Y =
         if inked (draw_font draw) new X Y then black else im_pixel im X Y).
Proof.
  intros Hnext Hb Hlive w' new. subst w' new.
  split; [| split; [| split; [| split]]].
  - rewrite (draw_bands_log next draw texts Hnext count b w 0%nat Hb Hlive).
    now rewrite drop_0.
  - now rewrite length_zip_with, band_rects_length.
  - apply draw_bands_length.
  - intros h Hne. now apply draw_bands_other.
  - intros im Him.
    destruct (draw_bands_store next draw texts Hnext count b w 0%nat im Hb Him)
      as (im' & Him' & Hsz & Hpix).
    rewrite drop_0 in Hpix. now exists im'.
Qed.

(** C9. Labels are handed out by band index.  One band: with index i the
    call draws label i when there is one, inking it in black on the image of
    the drawing context at its centred position, and changes nothing
    otherwise; it raises no error and returns i + 1 either way.  A whole pass
    over the bands of a grid: band i receives label i, so the labels drawn
    are exactly the first min(labelCount, bandCount) ones, each in its own
    band, and no label of index >= bandCount is drawn; the image drawn on is
    black wherever one of these labels has ink and as before elsewhere, and
    no other image changes. *)
Theorem labels_by_band_index :
  (forall xy (i : nat) draw texts w,
     (draw_image draw < length (heap w))%nat ->
     exists w',
       _draw_text_by_xy xy (Z.of_nat i) draw texts w = Returns (Z.of_nat i + 1) w' /\
       match texts !! i with
       | Some text =>
           exists im,
             heap w !! draw_image draw = Some im /\
             w' = {| heap := <[draw_image draw :=
                                 ink_image (draw_font draw) im
                                   (label_position (draw_font draw) xy text)
                                   text black]> (heap w);
                     log := log w ++ [label_event draw text xy] |}
       | None => w' = w
       end) /\
  (forall fuel draw texts gi w gimg tileWidth tileHeight maxColumns maxRows
          left_padding top_padding,
     one_image_size gi = (tileWidth, tileHeight) ->
     heap w !! image gi = Some gimg ->
     size gimg = (tileWidth * maxColumns + (maxColumns - 1) * gap gi,
                  tileHeight * maxRows + (maxRows - 1) * gap gi) ->
     1 <= tileWidth -> 1 <= tileHeight -> 0 <= gap gi ->
     (draw_image draw < length (heap w))%nat ->
     (Z.to_nat maxColumns <= fuel)%nat -> (Z.to_nat maxRows <= fuel)%nat ->
     let drawn (w' : World) (new : list Event) :=
       length (heap w') = length (heap w) /\
       (forall h, h <> draw_image draw -> heap w' !! h = heap w !! h) /\
       (forall im, heap w !! draw_image draw = Some im ->
          exists im',
            heap w' !! draw_image draw = Some im' /\
            size im' = size im /\
            forall X Y,
              im_pixel im' X Y =
              if inked (draw_font draw) new X Y then black else im_pixel im X Y) in
     (exists w' new,
        _draw_column_text fuel draw texts gi left_padding top_padding w =
          Returns tt w' /\
        w' = draw_bands (next_column (tileWidth + gap gi)) draw texts
               (Z.to_nat maxColumns)
               (first_column left_padding top_padding tileWidth) w /\
        log w' = log w ++ new /\
        length new = Nat.min (length texts) (Z.to_nat maxColumns) /\
        (forall (i : nat) text,
           texts !! i = Some text -> (i < Z.to_nat maxColumns)%nat ->
           new !! i =
             Some (label_event draw text
                     (left_padding + Z.of_nat i * (tileWidth + gap gi), 0,
                      left_padding + tileWidth + Z.of_nat i * (tileWidth + gap gi),
                      top_padding))) /\
        drawn w' new) /\
     (exists w' new,
        _draw_row_text fuel draw texts gi left_padding top_padding w =
          Returns tt w' /\
        w' = draw_bands (next_row (tileHeight + gap gi)) draw texts
               (Z.to_nat maxRows)
               (first_row left_padding top_padding tileHeight) w /\
        log w' = log w ++ new /\
        length new = Nat.min (length texts) (Z.to_nat maxRows) /\
        (forall (i : nat) text,
           texts !! i = Some text -> (i < Z.to_nat maxRows)%nat ->
           new !! i =
             Some (label_event draw text
                     (0, top_padding + Z.of_nat i * (tileHeight + gap gi),
                      left_padding,
                      top_padding + tileHeight + Z.of_nat i * (tileHeight + gap gi)))) /\
        drawn w' new)).
Proof.
  split.
  - intros [[[x0 y0] x1] y1] i draw texts w Hlive.
    pose proof (draw_text_by_xy_ok
                  {| b_i := Z.of_nat i; b_x0 := x0; b_y0 := y0; b_x1 := x1; b_y1 := y1 |}
                  draw texts w Hlive) as Hrun.
    eexists. split; [exact Hrun |].
    unfold draw_band. cbn [b_i]. rewrite py_index_nat.
    destruct (texts !! i) as [text |]; [| reflexivity].
    destruct (lookup_lt_is_Some_2 _ _ Hlive) as [im Him].
    exists im. split; [exact Him |].
    unfold draw_label. rewrite Him. reflexivity.
  - intros fuel draw texts gi w gimg tw th mc mr lp tp
           Htile Hg Hsz Htw Hth Hgap Hlive Hfc Hfr drawn.
    pose proof (size_nonneg gimg) as [Hgw Hgh]. rewrite Hsz in Hgw, Hgh.
    cbn [fst snd] in Hgw, Hgh.
    assert (Hmc : 0 <= mc) by nia. assert (Hmr : 0 <= mr) by nia.
    split.
    + pose proof (column_pass_run fuel draw texts gi w gimg (Z.to_nat mc) lp tp Hg) as Hrun.
      rewrite Hsz, Htile in Hrun. cbn [fst snd] in Hrun.
      specialize (Hrun ltac:(lia) ltac:(lia) Hlive Hfc).
      destruct (pass_effect (next_column (tw + gap gi)) draw texts (Z.to_nat mc)
                  (first_column lp tp tw) w (fun b => eq_refl) eq_refl Hlive)
        as (Hlog & Hlen & Hheap & Hother & Himage).
      eexists. eexists. split; [exact Hrun |]. split; [reflexivity |].
      split; [exact Hlog |]. split; [exact Hlen |]. split.
      * intros i text Ht Hi. apply zip_labels_lookup; [exact Ht |].
        rewrite band_rects_lookup by exact Hi. rewrite iter_next_column.
        unfold band_rect, first_column. cbn [b_x0 b_y0 b_x1 b_y1]. reflexivity.
      * subst drawn. cbv beta. split; [exact Hheap |]. split; [exact Hother | exact Himage].
    + pose proof (row_pass_run fuel draw texts gi w gimg (Z.to_nat mr) lp tp Hg) as Hrun.
      rewrite Hsz, Htile in Hrun. cbn [fst snd] in Hrun.
      specialize (Hrun ltac:(lia) ltac:(lia) Hlive Hfr).
      destruct (pass_effect (next_row (th + gap gi)) draw texts (Z.to_nat mr)
                  (first_row lp tp th) w (fun b => eq_refl) eq_refl Hlive)
        as (Hlog & Hlen & Hheap & Hother & Himage).
      eexists. eexists. split; [exact Hrun |]. split; [reflexivity |].
      split; [exact Hlog |]. split; [exact Hlen |]. split.
      * intros i text Ht Hi. apply zip_labels_lookup; [exact Ht |].
        rewrite band_rects_lookup by exact Hi. rewrite iter_next_row.
        unfold band_rect, first_row. cbn [b_x0 b_y0 b_x1 b_y1]. reflexivity.
      * subst drawn. cbv beta. split; [exact Hheap |]. split; [exact Hother | exact Himage].
Qed.

Lemma labels_by_band_index_witness :
  exists w' new im',
    _draw_column_text 2 sample_draw ["a"; "b"; "c"] sample_grid_info 20 20
      grid_and_canvas = Returns tt w' /\
    log w' = log grid_and_canvas ++ new /\
    length new = 2%nat /\
    new !! 1%nat = Some (label_event sample_draw "b" (32, 0, 42, 20)) /\
    heap w' !! 1%nat = Some im' /\
    forall X Y,
      im_pixel im' X Y = if inked block_font new X Y then black else white.
Proof.
  destruct labels_by_band_index as [_ Hpass].
  destruct (Hpass 2%nat sample_draw ["a"; "b"; "c"] sample_grid_info
              grid_and_canvas (solid 22 22 grey) 10 10 2 2 20 20
              eq_refl eq_refl eq_refl ltac:(lia) ltac:(lia) ltac:(simpl; lia)
              ltac:(simpl; lia) ltac:(simpl; lia) ltac:(simpl; lia))
    as [(w' & new & Hrun & _ & Hlog & Hlen & Hat & _ & _ & Hink) _].
  destruct (Hink (solid 42 42 white) eq_refl) as (im' & Him' & _ & Hpix).
  exists w', new, im'. split; [exact Hrun |]. split; [exact Hlog |].
  split; [exact Hlen |]. split; [exact (Hat 1%nat "b" eq_refl ltac:(simpl; lia)) |].
  split; [exact Him' | exact Hpix].
Defined.

(** C10. A label drawn within the band rectangle (x0, y0, x1, y1) is drawn
    at ((x1 - bboxWidth + x0)/2, (y1 - bboxHeight + y0)/2), where bboxWidth
    and bboxHeight are the last two components of the bounding box that the
    drawing context measures for the label at the origin (0, 0); the label is
    inked there on the image of the drawing context. *)
Theorem center_text_position draw x0 y0 x1 y1 text fill w im
    left top bboxWidth bboxHeight :
  heap w !! draw_image draw = Some im ->
  ImageDraw_textbbox draw (0, 0) text w =
    Returns (left, top, bboxWidth, bboxHeight) w ->
  let pos := (Qmake (x1 - bboxWidth + x0) 2, Qmake (y1 - bboxHeight + y0) 2) in
  _draw_center_text draw (x0, y0, x1, y1) text fill w =
    Returns tt
      {| heap := <[draw_image draw := ink_image (draw_font draw) im pos text fill]>
                   (heap w);
         log := log w ++ [EvText (draw_image draw) pos text fill] |}.
Proof.
  intros Him Hbbox pos.
  unfold _draw_center_text. rewrite (bind_returns _ _ _ _ _ Hbbox).
  now apply ImageDraw_text_ok.
Qed.

Lemma center_text_position_witness :
  _draw_center_text sample_draw (20, 0, 30, 20) "a" black grid_and_canvas =
    Returns tt
      {| heap := <[1%nat := ink_image block_font (solid 42 42 white)
                              (Qmake (30 - 8 + 20) 2, Qmake (20 - 9 + 0) 2) "a" black]>
                   (heap grid_and_canvas);
         log := [EvText 1%nat (Qmake (30 - 8 + 20) 2, Qmake (20 - 9 + 0) 2) "a" black] |}.
Proof.
  exact (center_text_position sample_draw 20 0 30 20 "a" black grid_and_canvas
           (solid 42 42 white) 0 2 8 9 eq_refl eq_refl).
Defined.

(** ** The annotated canvas *)

Lemma paste_image_pixel dst src x y px py :
  im_pixel (paste_image dst src (x, y)) px py =
  if inside src (px - x) (py - y) then im_pixel src (px - x) (py - y)
  else im_pixel dst px py.
Proof. reflexivity. Qed.

(** The store of the counted description: the canvas is a new image of the
    size of the grid plus the paddings; the trace gains its allocation, the
    paste of the grid at the paddings and then label drawings only; images
    that were in the store are untouched; and a pixel of the canvas that no
    label inks shows the grid, shifted by the paddings, or else white. *)
Lemma annotation_stage_canvas gi gimg column_texts row_texts f widest cols rows w :
  heap w !! image gi = Some gimg ->
  0 <= fst (size gimg) + left_padding_of f widest ->
  0 <= snd (size gimg) + top_padding_of f ->
  let lp := left_padding_of f widest in
  let tp := top_padding_of f in
  let canvas := length (heap w) in
  let csz := (fst (size gimg) + lp, snd (size gimg) + tp) in
  let w' := annotation_stage gi gimg column_texts row_texts f widest cols rows w in
  exists cimg new,
    heap w' !! canvas = Some cimg /\
    size cimg = csz /\
    log w' = log w ++ EvNew canvas csz white
                      :: EvPaste canvas (image gi) (lp, tp) :: new /\
    pastes new = [] /\
    (forall h, (h < length (heap w))%nat -> heap w' !! h = heap w !! h) /\
    forall px py,
      (forall pos text fill, In (EvText canvas pos text fill) new ->
         ink f pos text px py = false) ->
      im_pixel cimg px py =
      if inside gimg (px - lp) (py - tp) then im_pixel gimg (px - lp) (py - tp)
      else white.
Proof.
  intros Hg Hcw Hch lp tp canvas csz w'.
  subst w'. unfold annotation_stage. fold lp tp canvas.
  set (draw := {| draw_image := canvas; draw_font := f |}).
  set (w1 := canvas_with_grid gimg lp tp (image gi) w).
  set (blank := {| im_width := Z.to_N (fst csz); im_height := Z.to_N (snd csz);
                   im_pixel := fun _ _ => white |}).
  assert (Hc0 : heap w1 !! draw_image draw = Some (paste_image blank gimg (lp, tp))).
  { subst w1. unfold canvas_with_grid. simpl. apply list_lookup_insert_eq.
    rewrite length_app. simpl. lia. }
  set (next1 := next_column _). set (b1 := first_column _ _ _).
  destruct (draw_bands_inked next1 draw column_texts cols b1 w1 _ Hc0)
    as (im1 & new1 & Him1 & Hlog1 & Hnone1 & Hsz1 & Hpix1).
  set (w2 := draw_bands next1 draw column_texts cols b1 w1) in *.
  set (next2 := next_row _). set (b2 := first_row _ _ _).
  destruct (draw_bands_inked next2 draw row_texts rows b2 w2 _ Him1)
    as (im2 & new2 & Him2 & Hlog2 & Hnone2 & Hsz2 & Hpix2).
  exists im2, (new1 ++ new2). split; [exact Him2 |].
  split; [| split; [| split; [now rewrite pastes_app, Hnone1, Hnone2 | split]]].
  - rewrite Hsz2, Hsz1, size_paste_image. subst blank. now apply size_new.
  - rewrite Hlog2, Hlog1. subst w1. unfold canvas_with_grid. simpl.
    rewrite <- !app_assoc. reflexivity.
  - intros h Hh.
    assert (Hne : h <> draw_image draw) by (simpl; lia).
    rewrite draw_bands_other by exact Hne. fold w2. subst w2.
    rewrite draw_bands_other by exact Hne.
    subst w1. unfold canvas_with_grid. simpl.
    rewrite list_lookup_insert_ne by (fold canvas; lia).
    now apply lookup_app_l.
  - intros px py Hclear.
    rewrite Hpix2, Hpix1.
    + apply paste_image_pixel.
    + intros pos text fill Hin. apply (Hclear pos text fill).
      apply in_or_app. now left.
    + intros pos text fill Hin. apply (Hclear pos text fill).
      apply in_or_app. now right.
Qed.

(** ** The empty-labels error comes from the gate only *)

Lemma quiet_ret {A} (a : A) : quiet (ret a).
Proof. intros w w'. discriminate. Qed.

Lemma quiet_bind {A B} (c : M A) (k : A -> M B) :
  quiet c -> (forall a, quiet (k a)) -> quiet (bind c k).
Proof.
  intros Hc Hk w w'. unfold bind. destruct (c w) as [a w1 | e w1 |] eqn:Hcw.
  - apply Hk.
  - intros [= He Hw]. subst. exact (Hc w _ Hcw).
  - discriminate.
Qed.

Lemma quiet_raise {A} e : e <> empty_labels_error -> quiet (@raise A e).
Proof. intros He w w' [= ? ?]. contradiction. Qed.

Lemma quiet_out_of_fuel {A} : quiet (@out_of_fuel A).
Proof. intros w w'. discriminate. Qed.

Lemma quiet_emit e : quiet (emit e).
Proof. intros w w'. discriminate. Qed.

Lemma quiet_alloc im : quiet (alloc im).
Proof. intros w w'. discriminate. Qed.

Lemma quiet_store h im : quiet (store h im).
Proof. intros w w'. discriminate. Qed.

Lemma quiet_deref h : quiet (deref h).
Proof. intros w w'. unfold deref. destruct (heap w !! h); discriminate. Qed.

Lemma quiet_if {A} (b : bool) (c1 c2 : M A) :
  quiet c1 -> quiet c2 -> quiet (if b then c1 else c2).
Proof. now destruct b. Qed.

Lemma quiet_suppress c : quiet c -> quiet (suppress_IndexError c).
Proof.
  intros Hc w w'. unfold suppress_IndexError.
  destruct (c w) as [a w1 | e w1 |] eqn:Hcw; try discriminate.
  destruct e; try discriminate.
  intros [= Hmsg Hw]. subst. exact (Hc w _ Hcw).
Qed.

Create HintDb quiet.
#[local] Hint Resolve quiet_ret quiet_out_of_fuel quiet_emit quiet_alloc
  quiet_store quiet_deref : quiet.

Ltac quiet_step :=
  first [ apply quiet_bind; [| intros ?]
        | apply quiet_if
        | apply quiet_suppress
        | apply quiet_raise; discriminate
        | solve [auto with quiet] ].

Lemma quiet_Image_size h : quiet (Image_size h).
Proof. unfold Image_size. repeat quiet_step. Qed.

Lemma quiet_Image_new sz fill : quiet (Image_new sz fill).
Proof. unfold Image_new. repeat quiet_step. Qed.

Lemma quiet_Image_paste dst src at_ : quiet (Image_paste dst src at_).
Proof. unfold Image_paste. repeat quiet_step. Qed.

Lemma quiet_draw_text_by_xy xy index draw texts :
  quiet (_draw_text_by_xy xy index draw texts).
Proof.
  unfold _draw_text_by_xy. repeat quiet_step.
  destruct (py_index texts index) as [text |]; [| repeat quiet_step].
  unfold _draw_center_text. destruct xy as [[[x0 y0] x1] y1].
  unfold ImageDraw_textbbox. destruct (getbbox (draw_font draw) text) as [[[l t] r] b].
  unfold ImageDraw_text. repeat quiet_step.
  destruct a as [[[? ?] ?] ?]. repeat quiet_step.
Qed.

#[local] Hint Resolve quiet_Image_size quiet_Image_new quiet_Image_paste
  quiet_draw_text_by_xy : quiet.

Lemma quiet_column_while draw texts gi lp : forall fuel b,
  quiet (_draw_column_text_while fuel draw texts gi lp b).
Proof.
  induction fuel as [| fuel IH]; intros b; cbn [_draw_column_text_while];
    (apply quiet_bind; [auto with quiet | intros gs]);
    apply quiet_if; auto with quiet.
  apply quiet_bind; [auto with quiet | intros i; apply IH].
Qed.

Lemma quiet_row_while draw texts gi tp : forall fuel b,
  quiet (_draw_row_text_while fuel draw texts gi tp b).
Proof.
  induction fuel as [| fuel IH]; intros b; cbn [_draw_row_text_while];
    (apply quiet_bind; [auto with quiet | intros gs]);
    apply quiet_if; auto with quiet.
  apply quiet_bind; [auto with quiet | intros i; apply IH].
Qed.

#[local] Hint Resolve quiet_column_while quiet_row_while : quiet.

Lemma quiet_annotations fuel gi column_texts row_texts f :
  column_texts <> [] -> row_texts <> [] ->
  quiet (_create_grid_annotations fuel gi column_texts row_texts f).
Proof.
  intros Hc Hr. unfold _create_grid_annotations.
  rewrite (py_not_nonempty _ Hc), (py_not_nonempty _ Hr). cbn [orb].
  destruct (py_max (map (getlength f) row_texts)); [| repeat quiet_step].
  unfold _paste_image_to_lower_left_corner, _draw_column_text, _draw_row_text.
  repeat quiet_step.
Qed.

(** C3. When an annotation is requested and the column labels or the row
    labels are empty, the annotation stage raises its error at once, leaving
    the store and the trace as they were: nothing has been allocated or drawn
    for the annotation.  Seen from the builder, the error comes in the very
    state in which the call without annotation returns, the grid being
    complete.  When both label lists are non-empty that error is not raised. *)
Theorem empty_labels_rejected :
  (forall fuel gi column_texts row_texts f w,
     column_texts = [] \/ row_texts = [] ->
     _create_grid_annotations fuel gi column_texts row_texts f w =
       Raises (ValueError "Column text or row text is empty") w) /\
  (forall fuel first rest gap max_columns max_rows a w,
     Forall (fun h => (h < length (heap w))%nat) (first :: rest) ->
     0 <= gap -> 1 <= max_columns -> 1 <= max_rows ->
     column_texts a = [] \/ row_texts a = [] ->
     exists canvas w',
       _create_images_grid fuel (first :: rest) gap max_columns max_rows None w =
         Returns canvas w' /\
       _create_images_grid fuel (first :: rest) gap max_columns max_rows (Some a) w =
         Raises (ValueError "Column text or row text is empty") w') /\
  (forall fuel gi column_texts row_texts f w w',
     column_texts <> [] -> row_texts <> [] ->
     _create_grid_annotations fuel gi column_texts row_texts f w <>
       Raises (ValueError "Column text or row text is empty") w').
Proof.
  split; [| split].
  - intros fuel gi column_texts row_texts f w Hempty.
    unfold _create_grid_annotations.
    destruct Hempty as [-> | ->]; [reflexivity |].
    now destruct column_texts.
  - intros fuel first rest gap mc mr a w Hall Hgap Hmc Hmr Hempty.
    assert (Hfirst : (first < length (heap w))%nat).
    { apply Forall_cons in Hall as [Hfirst _]. exact Hfirst. }
    destruct (lookup_lt_is_Some_2 _ _ Hfirst) as [fimg Hfimg].
    pose proof (size_nonneg fimg) as [Htw Hth].
    destruct (build_grid_spec first rest gap mc mr w fimg Hall Hfimg)
      as (w' & Hrun & _); try nia.
    exists (length (heap w)), w'. rewrite !create_images_grid_stages.
    rewrite !(bind_returns _ _ _ _ _ Hrun). split; [reflexivity |].
    cbn [fst snd].
    unfold _create_grid_annotations.
    destruct Hempty as [-> | ->]; [reflexivity |].
    now destruct (column_texts a).
  - intros fuel gi column_texts row_texts f w w' Hc Hr.
    exact (quiet_annotations fuel gi column_texts row_texts f Hc Hr w w').
Qed.

Lemma empty_labels_rejected_witness :
  _create_grid_annotations 2 sample_grid_info [] ["top"] block_font grid_only =
    Raises (ValueError "Column text or row text is empty") grid_only /\
  _create_grid_annotations 2 sample_grid_info ["left"] ["top"] block_font grid_only <>
    Raises (ValueError "Column text or row text is empty") grid_only.
Proof.
  destruct empty_labels_rejected as (Hgate & _ & Hquiet). split.
  - apply Hgate. now left.
  - apply Hquiet; discriminate.
Defined.

(** ** The claims on the annotated canvas *)

Lemma margin_nonneg f : 0 <= font_size f -> 0 <= margin_of f.
Proof. intros H. unfold margin_of. apply Z.div_pos; lia. Qed.

(** C5, as stated, fails when the widest row label has a fractional width:
    with a font of size 10 whose labels are 10.5 wide, the 22x22 grid gets a
    canvas 42 wide, that is a left padding of 20, not 10.5 + 2*5. *)
Lemma left_padding_drops_fraction :
  exists canvas w',
    create_images_grid_by_columns 2 [0; 1; 2; 3]%nat 2 2
      (Some (two_by_two half_pixel_font)) four_tiles = Returns canvas w' /\
    size <$> heap w' !! canvas = Some (22 + 20, 22 + 20) /\
    py_max (map (getlength half_pixel_font) (row_texts (two_by_two half_pixel_font)))
      = Some (21 # 2)%Q /\
    ~ (inject_Z 20 == (21 # 2) + inject_Z (2 * (font_size half_pixel_font / 2)))%Q.
Proof.
  eexists. eexists. split; [vm_compute; reflexivity |].
  split; [reflexivity |]. split; [reflexivity |].
  vm_compute. discriminate.
Qed.

(** C6, as stated, fails for a label that is taller than the top padding.
    With a font of size 10 that sets ten pixels a line and a first column
    label of four lines, the grid is pasted at (18, 20) and that label is
    drawn at (20, -10), reaching down to row 30: the canvas pixel (22, 25),
    which lies in the grid region, is black where the grid pixel (4, 5) has
    the colour of the first tile. *)
Lemma tall_label_overwrites_grid :
  exists canvas w',
    create_images_grid_by_columns 2 [0; 1; 2; 3]%nat 2 2
      (Some tall_first_column) four_tiles = Returns canvas w' /\
    pastes (log w') !! 4%nat = Some (canvas, 4%nat, (18, 20)) /\
    In (EvText canvas (40 # 2, -20 # 2)%Q four_lines black) (log w') /\
    (fun im => im_pixel im 4 5) <$> heap w' !! 4%nat = Some (RGB 200 0 0) /\
    (fun im => im_pixel im (4 + 18) (5 + 20)) <$> heap w' !! canvas = Some black.
Proof.
  eexists. eexists. split; [vm_compute; reflexivity |].
  split; [reflexivity |]. split; [| split; reflexivity].
  vm_compute. tauto.
Qed.

Section AnnotatedGrid.

(** The annotation stage on a grid built for maxColumns x maxRows tiles of at
    least one pixel, with non-empty label lists, a font of non-negative size
    and widths, and fuel for both passes. *)
Variables (fuel : nat) (gi : _GridInfo) (column_texts row_texts : list string).
Variables (f : Font) (w : World) (gimg : Image).
Variables (tileWidth tileHeight maxColumns maxRows : Z).

Hypothesis columns_given : column_texts <> [].
Hypothesis rows_given : row_texts <> [].
Hypothesis tile_size : one_image_size gi = (tileWidth, tileHeight).
Hypothesis grid_live : heap w !! image gi = Some gimg.
Hypothesis grid_size :
  size gimg = (tileWidth * maxColumns + (maxColumns - 1) * gap gi,
               tileHeight * maxRows + (maxRows - 1) * gap gi).
Hypothesis tile_wide : 1 <= tileWidth.
Hypothesis tile_high : 1 <= tileHeight.
Hypothesis gap_nonneg : 0 <= gap gi.
Hypothesis font_nonneg : 0 <= font_size f.
Hypothesis widths_nonneg :
  forall text, In text row_texts -> (0 <= getlength f text)%Q.
Hypothesis fuel_columns : (Z.to_nat maxColumns <= fuel)%nat.
Hypothesis fuel_rows : (Z.to_nat maxRows <= fuel)%nat.

(** The stage returns, in the store of its counted description. *)
Lemma annotations_return :
  exists widest,
    py_max (map (getlength f) row_texts) = Some widest /\
    0 <= left_padding_of f widest /\ 0 <= top_padding_of f /\
    _create_grid_annotations fuel gi column_texts row_texts f w =
      Returns (length (heap w))
        (annotation_stage gi gimg column_texts row_texts f widest
           (Z.to_nat maxColumns) (Z.to_nat maxRows) w).
Proof.
  pose proof (size_nonneg gimg) as [Hgw Hgh].
  assert (Hmc : 0 <= maxColumns)
    by (rewrite grid_size in Hgw; cbn [fst] in Hgw; nia).
  assert (Hmr : 0 <= maxRows)
    by (rewrite grid_size in Hgh; cbn [snd] in Hgh; nia).
  destruct (py_max_nonempty (map (getlength f) row_texts)) as [widest Hmax].
  { destruct row_texts; [congruence | discriminate]. }
  pose proof (margin_nonneg f font_nonneg) as Hm.
  assert (Hlp : 0 <= left_padding_of f widest).
  { unfold left_padding_of. apply py_max_spec in Hmax as [Hin _].
    apply in_map_iff in Hin as (text & <- & Hin).
    pose proof (py_int_nonneg _ (widths_nonneg text Hin)). lia. }
  assert (Htp : 0 <= top_padding_of f) by (unfold top_padding_of; lia).
  exists widest. split; [exact Hmax |]. split; [exact Hlp |]. split; [exact Htp |].
  apply annotations_run; try assumption; rewrite ?tile_size; cbn [fst snd]; try lia.
  rewrite grid_size. f_equal; rewrite Z2Nat.id by assumption; reflexivity.
Qed.

(** C5, amended.  With non-empty label lists, margin = floor(fontSize/2),
    leftPadding = int(max over the row labels of textWidth) + 2*margin, the
    width being cut to its integer part, topPadding = fontSize + 2*margin,
    and the annotated canvas has size exactly
    (gridWidth + leftPadding, gridHeight + topPadding); it is allocated
    white, and stays white wherever neither the grid nor a label lands. *)
Theorem annotated_canvas_size :
  exists canvas w' cimg widest new,
    _create_grid_annotations fuel gi column_texts row_texts f w =
      Returns canvas w' /\
    heap w' !! canvas = Some cimg /\
    (exists text, In text row_texts /\ widest = getlength f text) /\
    (forall text, In text row_texts -> (getlength f text <= widest)%Q) /\
    let margin := Qfloor (inject_Z (font_size f) / inject_Z 2) in
    let leftPadding := py_int widest + 2 * margin in
    let topPadding := font_size f + 2 * margin in
    size cimg = (fst (size gimg) + leftPadding, snd (size gimg) + topPadding) /\
    log w' = log w ++ EvNew canvas (size cimg) white
                      :: EvPaste canvas (image gi) (leftPadding, topPadding)
                      :: new /\
    forall px py,
      inside gimg (px - leftPadding) (py - topPadding) = false ->
      (forall pos text fill, In (EvText canvas pos text fill) new ->
         ink f pos text px py = false) ->
      im_pixel cimg px py = white.
Proof.
  destruct annotations_return as (widest & Hmax & Hlp & Htp & Hrun).
  pose proof (size_nonneg gimg) as [Hgw Hgh].
  destruct (annotation_stage_canvas gi gimg column_texts row_texts f widest
              (Z.to_nat maxColumns) (Z.to_nat maxRows) w grid_live)
    as (cimg & new & Hcimg & Hcsz & Hlog & _ & _ & Hpix); try lia.
  exists (length (heap w)).
  exists (annotation_stage gi gimg column_texts row_texts f widest
            (Z.to_nat maxColumns) (Z.to_nat maxRows) w).
  exists cimg, widest, new.
  split; [exact Hrun |]. split; [exact Hcimg |].
  apply py_max_spec in Hmax as [Hin Hall].
  split; [| split].
  - apply in_map_iff in Hin as (text & <- & Hin). now exists text.
  - intros text Hin'. apply Hall. now apply in_map.
  - assert (Hmargin : Qfloor (inject_Z (font_size f) / inject_Z 2) = margin_of f).
    { unfold margin_of, Qfloor, Qdiv, Qinv, Qmult, inject_Z. simpl.
      now rewrite Z.mul_1_r. }
    rewrite Hmargin. cbv zeta.
    fold (left_padding_of f widest). fold (top_padding_of f).
    split; [exact Hcsz |]. split; [rewrite Hcsz; exact Hlog |].
    intros px py Hout Hclear. rewrite (Hpix px py Hclear). now rewrite Hout.
Qed.

(** C6, amended.  The grid is pasted into the annotated canvas at offset
    (leftPadding, topPadding), which puts it flush against the bottom-right
    corner, the canvas being larger than the grid by exactly the paddings;
    the grid canvas itself is left as it was; and every pixel of the grid
    region of the annotated canvas that the ink of no label covers is
    identical to the pixel of the grid.  After the paste nothing but labels
    is drawn. *)
Theorem grid_kept_in_corner :
  exists canvas w' cimg leftPadding topPadding new,
    _create_grid_annotations fuel gi column_texts row_texts f w =
      Returns canvas w' /\
    heap w' !! canvas = Some cimg /\
    heap w' !! image gi = Some gimg /\
    log w' = log w ++ EvNew canvas (size cimg) white
                      :: EvPaste canvas (image gi) (leftPadding, topPadding)
                      :: new /\
    pastes new = [] /\
    (leftPadding, topPadding) =
      (fst (size cimg) - fst (size gimg), snd (size cimg) - snd (size gimg)) /\
    0 <= leftPadding /\ 0 <= topPadding /\
    forall px py,
      inside gimg px py = true ->
      (forall pos text fill, In (EvText canvas pos text fill) new ->
         ink f pos text (px + leftPadding) (py + topPadding) = false) ->
      inside cimg (px + leftPadding) (py + topPadding) = true /\
      im_pixel cimg (px + leftPadding) (py + topPadding) = im_pixel gimg px py.
Proof.
  destruct annotations_return as (widest & Hmax & Hlp & Htp & Hrun).
  pose proof (size_nonneg gimg) as [Hgw Hgh].
  destruct (annotation_stage_canvas gi gimg column_texts row_texts f widest
              (Z.to_nat maxColumns) (Z.to_nat maxRows) w grid_live)
    as (cimg & new & Hcimg & Hcsz & Hlog & Hnone & Hframe & Hpix); try lia.
  set (w' := annotation_stage gi gimg column_texts row_texts f widest
               (Z.to_nat maxColumns) (Z.to_nat maxRows) w) in *.
  exists (length (heap w)), w', cimg.
  exists (left_padding_of f widest), (top_padding_of f), new.
  split; [exact Hrun |]. split; [exact Hcimg |].
  split; [rewrite Hframe; [exact grid_live | eapply lookup_lt_Some; eauto] |].
  split; [rewrite Hcsz; exact Hlog |].
  split; [exact Hnone |].
  split; [rewrite Hcsz; cbn [fst snd]; f_equal; lia |].
  split; [exact Hlp |]. split; [exact Htp |].
  intros px py Hin Hclear. split.
  - unfold inside in *. rewrite Hcsz. cbn [fst snd].
    apply andb_prop in Hin as [Hin Hy1]. apply andb_prop in Hin as [Hin Hy0].
    apply andb_prop in Hin as [Hx0 Hx1].
    apply Z.leb_le in Hx0, Hy0. apply Z.ltb_lt in Hx1, Hy1.
    repeat (apply andb_true_intro; split);
      first [apply Z.leb_le | apply Z.ltb_lt]; lia.
  - rewrite (Hpix _ _ Hclear).
    replace (px + left_padding_of f widest - left_padding_of f widest) with px by lia.
    replace (py + top_padding_of f - top_padding_of f) with py by lia.
    now rewrite Hin.
Qed.

End AnnotatedGrid.

Lemma block_widths_nonneg :
  forall text, In text ["top"; "bottom"] -> (0 <= getlength block_font text)%Q.
Proof. intros text _. discriminate. Qed.

Lemma annotated_canvas_size_witness :
  exists canvas w' cimg,
    _create_grid_annotations 2 sample_grid_info ["left"; "right"]
      ["top"; "bottom"] block_font grid_only = Returns canvas w' /\
    heap w' !! canvas = Some cimg /\
    size cimg = (22 + (8 + 2 * 5), 22 + (10 + 2 * 5)).
Proof.
  destruct (annotated_canvas_size 2 sample_grid_info ["left"; "right"]
              ["top"; "bottom"] block_font grid_only (solid 22 22 grey) 10 10 2 2
              ltac:(discriminate) ltac:(discriminate) eq_refl eq_refl eq_refl
              ltac:(lia) ltac:(lia) ltac:(simpl; lia) ltac:(simpl; lia)
              block_widths_nonneg ltac:(simpl; lia) ltac:(simpl; lia))
    as (canvas & w' & cimg & widest & new & Hrun & Hcimg & Hin & _ & Hsize & _).
  exists canvas, w', cimg. split; [exact Hrun |]. split; [exact Hcimg |].
  destruct Hin as (text & _ & ->). exact Hsize.
Defined.

Lemma grid_kept_in_corner_witness :
  exists canvas w' cimg,
    _create_grid_annotations 2 sample_grid_info ["left"; "right"]
      ["top"; "bottom"] block_font grid_only = Returns canvas w' /\
    heap w' !! canvas = Some cimg /\
    heap w' !! 0%nat = Some (solid 22 22 grey).
Proof.
  destruct (grid_kept_in_corner 2 sample_grid_info ["left"; "right"]
              ["top"; "bottom"] block_font grid_only (solid 22 22 grey) 10 10 2 2
              ltac:(discriminate) ltac:(discriminate) eq_refl eq_refl eq_refl
              ltac:(lia) ltac:(lia) ltac:(simpl; lia) ltac:(simpl; lia)
              block_widths_nonneg ltac:(simpl; lia) ltac:(simpl; lia))
    as (canvas & w' & cimg & lp & tp & new & Hrun & Hcimg & Hgrid & _).
  exists canvas, w', cimg. split; [exact Hrun |]. split; [exact Hcimg | exact Hgrid].
Defined.

(** * Further properties of the module *)

(** ** No image of the caller is ever written to *)

Lemma extends_refl n0 w : (n0 <= length (heap w))%nat -> extends n0 w w.
Proof. intros H. split; [exact H | reflexivity]. Qed.

Lemma extends_trans n0 w1 w2 w3 :
  extends n0 w1 w2 -> extends n0 w2 w3 -> extends n0 w1 w3.
Proof.
  intros [H1 F1] [H2 F2]. split; [exact H2 |].
  intros h Hh. now rewrite F2, F1.
Qed.

Lemma keeps_ret {A} n0 (a : A) (Q : A -> Prop) : Q a -> keeps n0 (ret a) Q.
Proof. intros HQ w Hw. simpl. split; [now apply extends_refl | exact HQ]. Qed.

Lemma keeps_raise {A} n0 e (Q : A -> Prop) : keeps n0 (raise e) Q.
Proof. intros w Hw. simpl. now apply extends_refl. Qed.

Lemma keeps_out_of_fuel {A} n0 (Q : A -> Prop) : keeps n0 out_of_fuel Q.
Proof. intros w Hw. exact I. Qed.

Lemma keeps_bind {A B} n0 (c : M A) (k : A -> M B) Q R :
  keeps n0 c Q -> (forall a, Q a -> keeps n0 (k a) R) -> keeps n0 (bind c k) R.
Proof.
  intros Hc Hk w Hw. unfold bind. specialize (Hc w Hw).
  destruct (c w) as [a w1 | e w1 |]; [| exact Hc | exact I].
  destruct Hc as [Hext HQ]. specialize (Hk a HQ w1 (proj1 Hext)).
  destruct (k a w1) as [b w2 | e w2 |]; [| | exact I].
  - destruct Hk as [Hext2 HR]. split; [eapply extends_trans; eauto | exact HR].
  - eapply extends_trans; eauto.
Qed.

Lemma keeps_weaken {A} n0 (c : M A) (Q R : A -> Prop) :
  keeps n0 c Q -> (forall a, Q a -> R a) -> keeps n0 c R.
Proof.
  intros Hc HQR w Hw. specialize (Hc w Hw).
  destruct (c w); [| exact Hc | exact I].
  destruct Hc as [Hext HQ]. split; [exact Hext | now apply HQR].
Qed.

Lemma keeps_if {A} n0 (b : bool) (c1 c2 : M A) Q :
  keeps n0 c1 Q -> keeps n0 c2 Q -> keeps n0 (if b then c1 else c2) Q.
Proof. now destruct b. Qed.

Lemma keeps_emit n0 e : keeps n0 (emit e) (fun _ => True).
Proof. intros w Hw. simpl. split; [| exact I]. split; [exact Hw | reflexivity]. Qed.

Lemma keeps_deref n0 h : keeps n0 (deref h) (fun _ => True).
Proof.
  intros w Hw. unfold deref. destruct (heap w !! h).
  - split; [now apply extends_refl | exact I].
  - now apply extends_refl.
Qed.

Lemma keeps_alloc n0 im : keeps n0 (alloc im) (fun h => (n0 <= h)%nat).
Proof.
  intros w Hw. unfold alloc. split; [| exact Hw]. split; cbn [heap].
  - rewrite length_app. simpl. lia.
  - intros h Hh. apply lookup_app_l. lia.
Qed.

Lemma keeps_store n0 h im :
  (n0 <= h)%nat -> keeps n0 (store h im) (fun _ => True).
Proof.
  intros Hh w Hw. unfold store. split; [| exact I]. split; cbn [heap].
  - now rewrite length_insert.
  - intros h' Hh'. apply list_lookup_insert_ne. lia.
Qed.

Lemma keeps_py_mod n0 a b : keeps n0 (py_mod a b) (fun _ => True).
Proof. unfold py_mod. apply keeps_if; [apply keeps_raise | now apply keeps_ret]. Qed.

Lemma keeps_py_floordiv n0 a b : keeps n0 (py_floordiv a b) (fun _ => True).
Proof. unfold py_floordiv. apply keeps_if; [apply keeps_raise | now apply keeps_ret]. Qed.

Lemma keeps_Image_size n0 h : keeps n0 (Image_size h) (fun _ => True).
Proof.
  unfold Image_size. eapply keeps_bind; [apply keeps_deref |].
  intros im _. now apply keeps_ret.
Qed.

Lemma keeps_Image_new n0 sz fill :
  keeps n0 (Image_new sz fill) (fun h => (n0 <= h)%nat).
Proof.
  unfold Image_new. apply keeps_if; [apply keeps_raise |].
  eapply keeps_bind; [apply keeps_alloc |]. intros h Hh.
  eapply keeps_bind; [apply keeps_emit |]. intros _ _. now apply keeps_ret.
Qed.

Lemma keeps_Image_crop n0 h box :
  keeps n0 (Image_crop h box) (fun new => (n0 <= new)%nat).
Proof.
  destruct box as [[[x0 y0] x1] y1]. unfold Image_crop.
  eapply keeps_bind; [apply keeps_deref |]. intros src _.
  apply keeps_if; [apply keeps_raise |].
  apply keeps_if; [apply keeps_raise |].
  eapply keeps_bind; [apply keeps_alloc |]. intros new Hnew.
  eapply keeps_bind; [apply keeps_emit |]. intros _ _. now apply keeps_ret.
Qed.

Lemma keeps_Image_paste n0 dst src at_ :
  (n0 <= dst)%nat -> keeps n0 (Image_paste dst src at_) (fun _ => True).
Proof.
  intros Hdst. unfold Image_paste.
  eapply keeps_bind; [apply keeps_deref |]. intros s _.
  eapply keeps_bind; [apply keeps_deref |]. intros d _.
  eapply keeps_bind; [now apply keeps_store |]. intros _ _. apply keeps_emit.
Qed.

Lemma keeps_ImageDraw_text n0 draw pos text fill :
  (n0 <= draw_image draw)%nat ->
  keeps n0 (ImageDraw_text draw pos text fill) (fun _ => True).
Proof.
  intros Hd. unfold ImageDraw_text.
  eapply keeps_bind; [apply keeps_deref |]. intros im _.
  eapply keeps_bind; [now apply keeps_store |]. intros _ _. apply keeps_emit.
Qed.

Lemma keeps_suppress n0 c Q :
  keeps n0 c Q -> keeps n0 (suppress_IndexError c) (fun _ => True).
Proof.
  intros Hc w Hw. unfold suppress_IndexError. specialize (Hc w Hw).
  destruct (c w) as [a w1 | e w1 |]; [| | exact I].
  - split; [exact (proj1 Hc) | exact I].
  - destruct e; try exact Hc. split; [exact Hc | exact I].
Qed.

Lemma keeps_arrange n0 g tile mc gap : forall images i,
  (n0 <= g)%nat ->
  keeps n0 (_arrange_images_from i g images tile mc gap) (fun _ => True).
Proof.
  induction images as [| h rest IH]; intros i Hg; cbn [_arrange_images_from].
  - now apply keeps_ret.
  - eapply keeps_bind; [apply keeps_Image_size |]. intros sz _.
    eapply keeps_bind with (Q := fun _ => True).
    { apply keeps_if.
      - eapply keeps_weaken; [apply (keeps_Image_crop n0) | auto].
      - now apply keeps_ret. }
    intros src _.
    eapply keeps_bind; [apply keeps_py_mod |]. intros c _.
    eapply keeps_bind; [apply keeps_py_floordiv |]. intros r _.
    eapply keeps_bind; [now apply keeps_Image_paste |]. intros _ _.
    now apply IH.
Qed.

Lemma keeps_draw_text_by_xy n0 xy index draw texts :
  (n0 <= draw_image draw)%nat ->
  keeps n0 (_draw_text_by_xy xy index draw texts) (fun _ => True).
Proof.
  intros Hd. unfold _draw_text_by_xy.
  eapply keeps_bind with (Q := fun _ => True); [| intros _ _; now apply keeps_ret].
  eapply keeps_suppress with (Q := fun _ => True).
  destruct (py_index texts index) as [text |]; [| apply keeps_raise].
  destruct xy as [[[x0 y0] x1] y1]. unfold _draw_center_text, ImageDraw_textbbox.
  destruct (getbbox (draw_font draw) text) as [[[l t] r] b].
  eapply keeps_bind with (Q := fun _ => True); [now apply keeps_ret |].
  intros [[[? ?] ?] ?] _. now apply keeps_ImageDraw_text.
Qed.

Lemma keeps_column_while n0 draw texts gi lp : forall fuel b,
  (n0 <= draw_image draw)%nat ->
  keeps n0 (_draw_column_text_while fuel draw texts gi lp b) (fun _ => True).
Proof.
  induction fuel as [| fuel IH]; intros b Hd; cbn [_draw_column_text_while];
    (eapply keeps_bind; [apply keeps_Image_size | intros gs _]);
    (apply keeps_if; [| now apply keeps_ret]).
  - apply keeps_out_of_fuel.
  - eapply keeps_bind; [now apply keeps_draw_text_by_xy |].
    intros i _. now apply IH.
Qed.

Lemma keeps_row_while n0 draw texts gi tp : forall fuel b,
  (n0 <= draw_image draw)%nat ->
  keeps n0 (_draw_row_text_while fuel draw texts gi tp b) (fun _ => True).
Proof.
  induction fuel as [| fuel IH]; intros b Hd; cbn [_draw_row_text_while];
    (eapply keeps_bind; [apply keeps_Image_size | intros gs _]);
    (apply keeps_if; [| now apply keeps_ret]).
  - apply keeps_out_of_fuel.
  - eapply keeps_bind; [now apply keeps_draw_text_by_xy |].
    intros i _. now apply IH.
Qed.

Lemma keeps_annotations n0 fuel gi column_texts row_texts f :
  keeps n0 (_create_grid_annotations fuel gi column_texts row_texts f)
    (fun canvas => (n0 <= canvas)%nat).
Proof.
  unfold _create_grid_annotations. apply keeps_if; [apply keeps_raise |].
  destruct (py_max (map (getlength f) row_texts)) as [widest |]; [| apply keeps_raise].
  eapply keeps_bind; [apply keeps_Image_size |]. intros gs _.
  eapply keeps_bind; [apply keeps_Image_new |]. intros canvas Hcanvas.
  eapply keeps_bind with (Q := fun _ => True).
  { unfold _paste_image_to_lower_left_corner.
    eapply keeps_bind; [apply keeps_Image_size |]. intros bs _.
    eapply keeps_bind; [apply keeps_Image_size |]. intros isz _.
    now apply keeps_Image_paste. }
  intros _ _.
  eapply keeps_bind with (Q := fun _ => True).
  { unfold _draw_column_text.
    eapply keeps_bind; [now apply keeps_column_while |].
    intros _ _. now apply keeps_ret. }
  intros _ _.
  eapply keeps_bind with (Q := fun _ => True).
  { unfold _draw_row_text.
    eapply keeps_bind; [now apply keeps_row_while |].
    intros _ _. now apply keeps_ret. }
  intros _ _. now apply keeps_ret.
Qed.

Lemma keeps_create_images_grid n0 fuel images gap mc mr annotation :
  keeps n0 (_create_images_grid fuel images gap mc mr annotation)
    (fun canvas => (n0 <= canvas)%nat).
Proof.
  unfold _create_images_grid.
  destruct (py_index images 0) as [first |]; [| apply keeps_raise].
  eapply keeps_bind; [apply keeps_Image_size |]. intros sz _.
  eapply keeps_bind; [apply keeps_Image_new |]. intros g Hg.
  eapply keeps_bind; [now apply keeps_arrange |]. intros _ _.
  destruct annotation as [a |]; [apply keeps_annotations | now apply keeps_ret].
Qed.

(** X1. Neither public operation ever writes to an image that existed when
    it was called, whatever its arguments, with or without annotation, and
    whether it returns or raises: every image of the initial store is found
    unchanged afterwards, and the image returned is a new one. *)
Theorem caller_images_untouched fuel images gap count annotation w :
  let unchanged w' :=
    forall h, (h < length (heap w))%nat -> heap w' !! h = heap w !! h in
  (match create_images_grid_by_columns fuel images gap count annotation w with
   | Returns canvas w' => unchanged w' /\ (length (heap w) <= canvas)%nat
   | Raises _ w' => unchanged w'
   | OutOfFuel => True
   end) /\
  (match create_images_grid_by_rows fuel images gap count annotation w with
   | Returns canvas w' => unchanged w' /\ (length (heap w) <= canvas)%nat
   | Raises _ w' => unchanged w'
   | OutOfFuel => True
   end).
Proof.
  intros unchanged.
  assert (Hcols : keeps (length (heap w))
            (create_images_grid_by_columns fuel images gap count annotation)
            (fun canvas => (length (heap w) <= canvas)%nat)).
  { unfold create_images_grid_by_columns.
    eapply keeps_bind; [apply keeps_py_floordiv |]. intros mr _.
    apply keeps_create_images_grid. }
  assert (Hrows : keeps (length (heap w))
            (create_images_grid_by_rows fuel images gap count annotation)
            (fun canvas => (length (heap w) <= canvas)%nat)).
  { unfold create_images_grid_by_rows.
    eapply keeps_bind; [apply keeps_py_floordiv |]. intros mc _.
    apply keeps_create_images_grid. }
  specialize (Hcols w (Nat.le_refl _)). specialize (Hrows w (Nat.le_refl _)).
  split.
  - destruct (create_images_grid_by_columns fuel images gap count annotation w);
      [| | exact I].
    + destruct Hcols as [[_ Hframe] Hnew]. split; [exact Hframe | exact Hnew].
    + exact (proj2 Hcols).
  - destruct (create_images_grid_by_rows fuel images gap count annotation w);
      [| | exact I].
    + destruct Hrows as [[_ Hframe] Hnew]. split; [exact Hframe | exact Hnew].
    + exact (proj2 Hrows).
Qed.

(** ** Tiles do not overlap, and the canvas shows them *)

Lemma in_tile_inside src tile x y X Y :
  size src = tile -> inside src (X - x) (Y - y) = in_tile tile (x, y) X Y.
Proof.
  intros <-. unfold inside, in_tile. cbn [fst snd].
  destruct (Z.leb_spec 0 (X - x)), (Z.leb_spec x X); try lia;
  destruct (Z.ltb_spec (X - x) (fst (size src))),
           (Z.ltb_spec X (x + fst (size src))); try lia;
  destruct (Z.leb_spec 0 (Y - y)), (Z.leb_spec y Y); try lia;
  destruct (Z.ltb_spec (Y - y) (snd (size src))),
           (Z.ltb_spec Y (y + snd (size src))); try lia; reflexivity.
Qed.

(** Row-major order: a later index is on a later row, or on the same row in
    a later column. *)
Lemma later_tile mc a b :
  1 <= mc -> 0 <= a -> a < b ->
  a / mc < b / mc \/ (a / mc = b / mc /\ a mod mc < b mod mc).
Proof.
  intros Hmc Ha Hab.
  pose proof (Z.div_mod a mc ltac:(lia)) as Ea.
  pose proof (Z.div_mod b mc ltac:(lia)) as Eb.
  pose proof (Z.mod_pos_bound a mc ltac:(lia)) as Ba.
  pose proof (Z.mod_pos_bound b mc ltac:(lia)) as Bb.
  destruct (Z.lt_trichotomy (a / mc) (b / mc)) as [Hlt | [Heq | Hgt]].
  - now left.
  - right. split; [exact Heq |]. rewrite Heq in Ea. lia.
  - exfalso. assert (mc * (b / mc + 1) <= mc * (a / mc)) by (apply Z.mul_le_mono_nonneg_l; lia).
    lia.
Qed.

(** The tile rectangles of two distinct indices are separated along one
    axis, by the gap at least. *)
Lemma tile_rects_apart tile mc gap a b :
  1 <= mc -> 0 <= gap -> 0 <= fst tile -> 0 <= snd tile -> 0 <= a -> a < b ->
  let oa := tile_origin tile mc gap a in
  let ob := tile_origin tile mc gap b in
  fst oa + fst tile + gap <= fst ob \/ snd oa + snd tile + gap <= snd ob.
Proof.
  intros Hmc Hgap Htw Hth Ha Hab oa ob. subst oa ob. unfold tile_origin. cbn [fst snd].
  destruct (later_tile mc a b Hmc Ha Hab) as [Hrow | [Hrow Hcol]].
  - right.
    assert ((a / mc + 1) * (snd tile + gap) <= (b / mc) * (snd tile + gap))
      by (apply Z.mul_le_mono_nonneg_r; lia).
    lia.
  - left.
    assert ((a mod mc + 1) * (fst tile + gap) <= (b mod mc) * (fst tile + gap))
      by (apply Z.mul_le_mono_nonneg_r; lia).
    lia.
Qed.

Lemma in_tile_true tile origin X Y :
  in_tile tile origin X Y = true ->
  fst origin <= X < fst origin + fst tile /\ snd origin <= Y < snd origin + snd tile.
Proof.
  unfold in_tile. intros H.
  apply andb_prop in H as [H Hy1]. apply andb_prop in H as [H Hy0].
  apply andb_prop in H as [Hx0 Hx1].
  apply Z.leb_le in Hx0, Hy0. apply Z.ltb_lt in Hx1, Hy1. lia.
Qed.

Lemma in_tile_false tile origin X Y :
  X < fst origin \/ fst origin + fst tile <= X \/
  Y < snd origin \/ snd origin + snd tile <= Y ->
  in_tile tile origin X Y = false.
Proof.
  intros H. unfold in_tile.
  destruct (Z.leb_spec (fst origin) X); [| reflexivity].
  destruct (Z.ltb_spec X (fst origin + fst tile)); [| reflexivity].
  destruct (Z.leb_spec (snd origin) Y); [| reflexivity].
  destruct (Z.ltb_spec Y (snd origin + snd tile)); [| reflexivity].
  lia.
Qed.

Lemma tiles_apart tile mc gap a b X Y :
  1 <= mc -> 0 <= gap -> 0 <= fst tile -> 0 <= snd tile -> 0 <= a -> a < b ->
  in_tile tile (tile_origin tile mc gap a) X Y = true ->
  in_tile tile (tile_origin tile mc gap b) X Y = false.
Proof.
  intros Hmc Hgap Htw Hth Ha Hab Hin.
  apply in_tile_true in Hin.
  pose proof (tile_rects_apart tile mc gap a b Hmc Hgap Htw Hth Ha Hab) as Hapart.
  cbv zeta in Hapart. apply in_tile_false. lia.
Qed.

(** One turn of the placer, whatever the size of the image: the canvas
    receives, at the tile origin, an image of the tile size that shows the
    input; the rest of the store is as before. *)
Lemma arrange_step i g h rest tile mc gap w img d :
  mc <> 0 -> 0 <= fst tile -> 0 <= snd tile ->
  heap w !! h = Some img -> heap w !! g = Some d ->
  exists w1 src,
    _arrange_images_from i g (h :: rest) tile mc gap w =
      _arrange_images_from (i + 1) g rest tile mc gap w1 /\
    heap w1 !! g = Some (paste_image d src (tile_origin tile mc gap i)) /\
    size src = tile /\
    (forall px py, inside src px py = true -> im_pixel src px py = shown img px py) /\
    (length (heap w) <= length (heap w1))%nat /\
    (forall h', (h' < length (heap w))%nat -> h' <> g ->
       heap w1 !! h' = heap w !! h').
Proof.
  intros Hmc Htw Hth Himg Hd.
  assert (Hg : (g < length (heap w))%nat) by (eapply lookup_lt_Some; eauto).
  destruct (size_eqb_spec (size img) tile) as [Hsz | Hsz].
  - eexists. exists img. split; [now apply (arrange_step_same i g h rest tile mc gap w img d) |].
    cbn [heap]. split; [now apply list_lookup_insert_eq |]. split; [exact Hsz |].
    split; [| split].
    + intros px py Hin. unfold shown. now rewrite Hin.
    + now rewrite length_insert.
    + intros h' Hh' Hne. apply list_lookup_insert_ne. congruence.
  - eexists. exists (crop_image img (0, 0, fst tile, snd tile)).
    split; [now apply (arrange_step_crop i g h rest tile mc gap w img d) |].
    cbn [heap]. split; [| split; [| split; [| split]]].
    + apply list_lookup_insert_eq. rewrite length_app. simpl. lia.
    + rewrite size_crop_image by assumption. destruct tile. cbn [fst snd]. f_equal; lia.
    + intros px py _. apply crop_image_pixel.
    + rewrite length_insert, length_app. simpl. lia.
    + intros h' Hh' Hne. rewrite list_lookup_insert_ne by congruence.
      now apply lookup_app_l.
Qed.

(** The canvas after the placer: a pixel inside the tile of an input image
    shows that image; a pixel inside no tile is as it was. *)
Lemma arrange_from_pixels g tile mc gap : forall images i w w' d,
  1 <= mc -> 0 <= gap -> 0 <= fst tile -> 0 <= snd tile -> 0 <= i ->
  heap w !! g = Some d ->
  Forall (fun h => (h < length (heap w))%nat /\ h <> g) images ->
  _arrange_images_from i g images tile mc gap w = Returns tt w' ->
  exists d', heap w' !! g = Some d' /\
    forall X Y,
      (forall (k : nat) h img,
         images !! k = Some h -> heap w !! h = Some img ->
         in_tile tile (tile_origin tile mc gap (i + Z.of_nat k)) X Y = true ->
         im_pixel d' X Y =
           shown img (X - fst (tile_origin tile mc gap (i + Z.of_nat k)))
                     (Y - snd (tile_origin tile mc gap (i + Z.of_nat k)))) /\
      ((forall k : nat, (k < length images)%nat ->
          in_tile tile (tile_origin tile mc gap (i + Z.of_nat k)) X Y = false) ->
       im_pixel d' X Y = im_pixel d X Y).
Proof.
  induction images as [| h rest IH]; intros i w w' d Hmc Hgap Htw Hth Hi Hd Hall Hrun.
  - injection Hrun as <-. exists d. split; [exact Hd |]. intros X Y. split.
    + intros k h img Hk. discriminate.
    + reflexivity.
  - apply Forall_cons in Hall as [[Hh Hne] Hrest].
    destruct (lookup_lt_is_Some_2 _ _ Hh) as [img Himg].
    destruct (arrange_step i g h rest tile mc gap w img d ltac:(lia) Htw Hth Himg Hd)
      as (w1 & src & Hstep & Hd1 & Hsrc & Hshow & Hlen1 & Hold).
    rewrite Hstep in Hrun.
    destruct (IH (i + 1) w1 w' _ Hmc Hgap Htw Hth ltac:(lia) Hd1) as (d' & Hd' & Hpix).
    { eapply Forall_impl; [exact Hrest |]. intros h' [Hh' Hne']. split; [lia | exact Hne']. }
    { exact Hrun. }
    exists d'. split; [exact Hd' |]. intros X Y. destruct (Hpix X Y) as [Hin Hout].
    assert (Hfirst : im_pixel (paste_image d src (tile_origin tile mc gap i)) X Y =
                     if in_tile tile (tile_origin tile mc gap i) X Y
                     then im_pixel src (X - fst (tile_origin tile mc gap i))
                                       (Y - snd (tile_origin tile mc gap i))
                     else im_pixel d X Y).
    { destruct (tile_origin tile mc gap i) as [x y] eqn:Ho. cbn [fst snd].
      rewrite paste_image_pixel, (in_tile_inside src tile x y X Y Hsrc). reflexivity. }
    split.
    + intros [| k] h0 img0 Hk Himg0 Htile.
      * injection Hk as <-. assert (img0 = img) as -> by congruence.
        rewrite Z.add_0_r in *.
        rewrite Hout.
        -- rewrite Hfirst, Htile. apply Hshow.
           destruct (tile_origin tile mc gap i) as [x y]. cbn [fst snd].
           now rewrite (in_tile_inside src tile x y X Y Hsrc).
        -- intros k Hk. apply (tiles_apart tile mc gap i); try assumption. lia.
      * simpl in Hk.
        replace (i + Z.of_nat (S k)) with (i + 1 + Z.of_nat k) in * by lia.
        apply (Hin k h0 img0 Hk); [| exact Htile].
        rewrite Hold; [exact Himg0 | eapply lookup_lt_Some; eauto |].
        apply list_elem_of_lookup_2 in Hk.
        rewrite Forall_forall in Hrest. now destruct (Hrest h0 Hk).
    + intros Hnone. rewrite Hout.
      * rewrite Hfirst. specialize (Hnone 0%nat ltac:(simpl; lia)).
        rewrite Z.add_0_r in Hnone. now rewrite Hnone.
      * intros k Hk. specialize (Hnone (S k) ltac:(simpl; lia)).
        now replace (i + Z.of_nat (S k)) with (i + 1 + Z.of_nat k) in Hnone by lia.
Qed.

(** The canvas after the placer, whatever the columns and the gap: a pixel
    shows the last tile pasted over it, and a pixel under no tile is as it
    was. *)
Lemma arrange_from_last_paste g tile mc gap : forall images i w w' d,
  mc <> 0 -> 0 <= fst tile -> 0 <= snd tile ->
  heap w !! g = Some d ->
  Forall (fun h => (h < length (heap w))%nat /\ h <> g) images ->
  _arrange_images_from i g images tile mc gap w = Returns tt w' ->
  exists d', heap w' !! g = Some d' /\ size d' = size d /\
    forall X Y,
      (forall (k : nat) h img,
         images !! k = Some h -> heap w !! h = Some img ->
         in_tile tile (tile_origin tile mc gap (i + Z.of_nat k)) X Y = true ->
         (forall k' : nat, (k < k' < length images)%nat ->
            in_tile tile (tile_origin tile mc gap (i + Z.of_nat k')) X Y = false) ->
         im_pixel d' X Y =
           shown img (X - fst (tile_origin tile mc gap (i + Z.of_nat k)))
                     (Y - snd (tile_origin tile mc gap (i + Z.of_nat k)))) /\
      ((forall k : nat, (k < length images)%nat ->
          in_tile tile (tile_origin tile mc gap (i + Z.of_nat k)) X Y = false) ->
       im_pixel d' X Y = im_pixel d X Y).
Proof.
  induction images as [| h rest IH]; intros i w w' d Hmc Htw Hth Hd Hall Hrun.
  - injection Hrun as <-. exists d. split; [exact Hd |]. split; [reflexivity |].
    intros X Y. split.
    + intros k h img Hk. discriminate.
    + reflexivity.
  - apply Forall_cons in Hall as [[Hh Hne] Hrest].
    destruct (lookup_lt_is_Some_2 _ _ Hh) as [img Himg].
    destruct (arrange_step i g h rest tile mc gap w img d Hmc Htw Hth Himg Hd)
      as (w1 & src & Hstep & Hd1 & Hsrc & Hshow & Hlen1 & Hold).
    rewrite Hstep in Hrun.
    destruct (IH (i + 1) w1 w' _ Hmc Htw Hth Hd1) as (d' & Hd' & Hsz & Hpix).
    { eapply Forall_impl; [exact Hrest |]. intros h' [Hh' Hne']. split; [lia | exact Hne']. }
    { exact Hrun. }
    exists d'. split; [exact Hd' |].
    split; [rewrite Hsz; apply size_paste_image |].
    intros X Y. destruct (Hpix X Y) as [Hin Hout].
    assert (Hfirst : im_pixel (paste_image d src (tile_origin tile mc gap i)) X Y =
                     if in_tile tile (tile_origin tile mc gap i) X Y
                     then im_pixel src (X - fst (tile_origin tile mc gap i))
                                       (Y - snd (tile_origin tile mc gap i))
                     else im_pixel d X Y).
    { destruct (tile_origin tile mc gap i) as [x y] eqn:Ho. cbn [fst snd].
      rewrite paste_image_pixel, (in_tile_inside src tile x y X Y Hsrc). reflexivity. }
    split.
    + intros [| k] h0 img0 Hk Himg0 Htile Hlater.
      * injection Hk as <-. assert (img0 = img) as -> by congruence.
        rewrite Z.add_0_r in *.
        rewrite Hout.
        -- rewrite Hfirst, Htile. apply Hshow.
           destruct (tile_origin tile mc gap i) as [x y]. cbn [fst snd].
           now rewrite (in_tile_inside src tile x y X Y Hsrc).
        -- intros k Hk. specialize (Hlater (S k) ltac:(simpl; lia)).
           now replace (i + Z.of_nat (S k)) with (i + 1 + Z.of_nat k) in Hlater by lia.
      * simpl in Hk.
        replace (i + Z.of_nat (S k)) with (i + 1 + Z.of_nat k) in * by lia.
        apply (Hin k h0 img0 Hk); [| exact Htile |].
        -- rewrite Hold; [exact Himg0 | eapply lookup_lt_Some; eauto |].
           apply list_elem_of_lookup_2 in Hk.
           rewrite Forall_forall in Hrest. now destruct (Hrest h0 Hk).
        -- intros k' Hk'. specialize (Hlater (S k') ltac:(simpl; lia)).
           now replace (i + Z.of_nat (S k')) with (i + 1 + Z.of_nat k') in Hlater by lia.
    + intros Hnone. rewrite Hout.
      * rewrite Hfirst. specialize (Hnone 0%nat ltac:(simpl; lia)).
        rewrite Z.add_0_r in Hnone. now rewrite Hnone.
      * intros k Hk. specialize (Hnone (S k) ltac:(simpl; lia)).
        now replace (i + Z.of_nat (S k)) with (i + 1 + Z.of_nat k) in Hnone by lia.
Qed.

(** C2. The tile placer pastes the image at linear index i (0-based) at the
    pixel origin x = (i mod maxColumns)*(tileWidth+gap),
    y = (i div maxColumns)*(tileHeight+gap): its pastes are exactly one per
    input image, in order, into the canvas, and the canvas then holds them:
    it keeps its size, a pixel inside the tile rectangle of image i, under no
    later tile, shows image i at the offset from that origin (black where
    the image is smaller than the tile), and a pixel inside no tile rectangle
    is as it was.  In particular four 10x10 images with gap 2 and
    maxColumns 2 give a 22x22 canvas with the tiles at (0,0), (12,0), (0,12)
    and (12,12), each showing its image, on white. *)
Theorem tile_placer_origins :
  (forall grid_image images tileWidth tileHeight maxColumns gap w,
     maxColumns <> 0 -> 0 <= tileWidth -> 0 <= tileHeight ->
     (grid_image < length (heap w))%nat ->
     Forall (fun h => (h < length (heap w))%nat /\ h <> grid_image) images ->
     let origin (i : nat) :=
       ((Z.of_nat i mod maxColumns) * (tileWidth + gap),
        (Z.of_nat i / maxColumns) * (tileHeight + gap)) in
     exists w' new,
       _arrange_images_on_grid grid_image images (tileWidth, tileHeight)
         maxColumns gap w = Returns tt w' /\
       log w' = log w ++ new /\
       length (pastes new) = length images /\
       (forall (i : nat) h, images !! i = Some h ->
          exists src,
            pastes new !! i =
              Some (grid_image, src,
                    ((Z.of_nat i mod maxColumns) * (tileWidth + gap),
                     (Z.of_nat i / maxColumns) * (tileHeight + gap))) /\
            tile_source w w' (tileWidth, tileHeight) h src) /\
       exists canvas_before canvas_after,
         heap w !! grid_image = Some canvas_before /\
         heap w' !! grid_image = Some canvas_after /\
         size canvas_after = size canvas_before /\
         forall X Y,
           (forall (i : nat) h img,
              images !! i = Some h -> heap w !! h = Some img ->
              in_tile (tileWidth, tileHeight) (origin i) X Y = true ->
              (forall j : nat, (i < j < length images)%nat ->
                 in_tile (tileWidth, tileHeight) (origin j) X Y = false) ->
              im_pixel canvas_after X Y =
                shown img (X - fst (origin i)) (Y - snd (origin i))) /\
           ((forall i : nat, (i < length images)%nat ->
               in_tile (tileWidth, tileHeight) (origin i) X Y = false) ->
            im_pixel canvas_after X Y = im_pixel canvas_before X Y)) /\
  (exists canvas w' cimg,
     create_images_grid_by_columns 0 [0; 1; 2; 3]%nat 2 2 None four_tiles =
       Returns canvas w' /\
     size <$> heap w' !! canvas = Some (22, 22) /\
     pastes (log w') =
       [(canvas, 0%nat, (0, 0)); (canvas, 1%nat, (12, 0));
        (canvas, 2%nat, (0, 12)); (canvas, 3%nat, (12, 12))] /\
     heap w' !! canvas = Some cimg /\
     forall X Y,
       im_pixel cimg X Y =
       if in_tile (10, 10) (12, 12) X Y then RGB 200 200 0
       else if in_tile (10, 10) (0, 12) X Y then RGB 0 0 200
       else if in_tile (10, 10) (12, 0) X Y then RGB 0 200 0
       else if in_tile (10, 10) (0, 0) X Y then RGB 200 0 0
       else white).
Proof.
  split.
  - intros g images tw th mc gap w Hmc Htw Hth Hg Hall origin.
    destruct (arrange_from_spec g (tw, th) mc gap images 0 w Hmc Htw Hth Hg Hall)
      as (w' & Hrun & _ & _ & _ & new & Hlog & Hcount & Hpastes).
    destruct (lookup_lt_is_Some_2 _ _ Hg) as [d Hd].
    destruct (arrange_from_last_paste g (tw, th) mc gap images 0 w w' d
                Hmc Htw Hth Hd Hall Hrun) as (d' & Hd' & Hsz & Hpix).
    exists w', new. split; [exact Hrun |]. split; [exact Hlog |].
    split; [exact Hcount |]. split; [exact Hpastes |].
    exists d, d'. split; [exact Hd |]. split; [exact Hd' |]. split; [exact Hsz |].
    intros X Y. destruct (Hpix X Y) as [Hin Hout]. split.
    + intros i h img Hi Himg Htile Hlater.
      exact (Hin i h img Hi Himg Htile Hlater).
    + intros Hnone. exact (Hout Hnone).
  - eexists. eexists.
    exists (paste_image
              (paste_image
                 (paste_image
                    (paste_image (solid 22 22 white)
                       (solid 10 10 (RGB 200 0 0)) (0, 0))
                    (solid 10 10 (RGB 0 200 0)) (12, 0))
                 (solid 10 10 (RGB 0 0 200)) (0, 12))
              (solid 10 10 (RGB 200 200 0)) (12, 12)).
    split; [vm_compute; reflexivity |].
    split; [reflexivity |]. split; [reflexivity |].
    split; [vm_compute; reflexivity |].
    intros X Y. rewrite !paste_image_pixel.
    rewrite !(in_tile_inside _ (10, 10)) by reflexivity. reflexivity.
Qed.

Lemma tile_placer_origins_witness :
  exists w' new canvas_after,
    _arrange_images_on_grid 3%nat [0; 1; 2]%nat (10, 10) 2 2 four_tiles =
      Returns tt w' /\
    log w' = log four_tiles ++ new /\
    pastes new !! 2%nat = Some (3%nat, 2%nat, (0, 12)) /\
    heap w' !! 3%nat = Some canvas_after /\
    im_pixel canvas_after 4 15 = RGB 0 0 200.
Proof.
  destruct tile_placer_origins as [Hgen _].
  destruct (Hgen 3%nat [0; 1; 2]%nat 10 10 2 2 four_tiles
              ltac:(lia) ltac:(lia) ltac:(lia) ltac:(simpl; lia) four_tiles_apart)
    as (w' & new & Hrun & Hlog & _ & Hat & d & d' & _ & Hd' & _ & Hpix).
  exists w', new, d'. split; [exact Hrun |]. split; [exact Hlog |].
  split.
  - destruct (Hat 2%nat 2%nat eq_refl) as (src & Hsrc & Hts).
    destruct Hts as (img & Himg & [[_ ->] | [Hne _]]).
    + exact Hsrc.
    + exfalso. apply Hne. injection Himg as <-. reflexivity.
  - split; [exact Hd' |].
    destruct (Hpix 4 15) as [Hin _].
    exact (Hin 2%nat 2%nat (solid 10 10 (RGB 0 0 200)) eq_refl eq_refl eq_refl
             ltac:(intros j Hj; simpl in Hj; lia)).
Defined.

Lemma tile_source_size w w' tile g h src :
  0 <= fst tile -> 0 <= snd tile -> h <> g ->
  (forall h', (h' < length (heap w))%nat -> h' <> g ->
     heap w' !! h' = heap w !! h') ->
  tile_source w w' tile h src ->
  size <$> heap w' !! src = Some tile.
Proof.
  intros Htw Hth Hne Hframe (img & Himg & [[Hsz ->] | (_ & _ & Hsrc)]).
  - rewrite Hframe; [| eapply lookup_lt_Some; eauto | exact Hne].
    now rewrite Himg, <- Hsz.
  - rewrite Hsrc. cbn. rewrite size_crop_image by assumption.
    destruct tile. cbn [fst snd]. do 2 f_equal; lia.
Qed.

(** X2. The tile placer never pastes two tiles over one another: for
    maxColumns >= 1 and gap >= 0, every image it pastes goes into the canvas
    and has the tile size, and of two pastes the later one lies at least one
    tile plus the gap further right, or further down, than the earlier
    one. *)
Theorem tiles_never_overlap grid_image images tileWidth tileHeight maxColumns gap w :
  1 <= maxColumns -> 0 <= gap -> 0 <= tileWidth -> 0 <= tileHeight ->
  (grid_image < length (heap w))%nat ->
  Forall (fun h => (h < length (heap w))%nat /\ h <> grid_image) images ->
  exists w' new,
    _arrange_images_on_grid grid_image images (tileWidth, tileHeight)
      maxColumns gap w = Returns tt w' /\
    log w' = log w ++ new /\
    (forall (k : nat) dst src x y,
       pastes new !! k = Some (dst, src, (x, y)) ->
       dst = grid_image /\
       size <$> heap w' !! src = Some (tileWidth, tileHeight)) /\
    (forall (j k : nat) dj sj xj yj dk sk xk yk,
       (j < k)%nat ->
       pastes new !! j = Some (dj, sj, (xj, yj)) ->
       pastes new !! k = Some (dk, sk, (xk, yk)) ->
       xj + tileWidth + gap <= xk \/ yj + tileHeight + gap <= yk).
Proof.
  intros Hmc Hgap Htw Hth Hg Hall.
  destruct (arrange_from_spec grid_image (tileWidth, tileHeight) maxColumns gap
              images 0 w ltac:(lia) Htw Hth Hg Hall)
    as (w' & Hrun & _ & Hframe & _ & new & Hlog & Hcount & Hpastes).
  assert (Hentry : forall (k : nat) p, pastes new !! k = Some p ->
            exists h src, h <> grid_image /\
              p = (grid_image, src,
                   tile_origin (tileWidth, tileHeight) maxColumns gap (Z.of_nat k)) /\
              tile_source w w' (tileWidth, tileHeight) h src).
  { intros k p Hk.
    assert (Hlt : (k < length images)%nat)
      by (rewrite <- Hcount; eapply lookup_lt_Some; eauto).
    destruct (lookup_lt_is_Some_2 _ _ Hlt) as [h Hh].
    destruct (Hpastes k h Hh) as (src & Hsrc & Hts).
    change (0 + Z.of_nat k) with (Z.of_nat k) in Hsrc.
    exists h, src. split; [| split; [congruence | exact Hts]].
    apply list_elem_of_lookup_2 in Hh.
    rewrite Forall_forall in Hall. now destruct (Hall _ Hh). }
  exists w', new. split; [exact Hrun |]. split; [exact Hlog |]. split.
  - intros k dst src x y Hk.
    destruct (Hentry k _ Hk) as (h & src' & Hne & Heq & Hts).
    injection Heq as Hd Hs _. subst dst src'. split; [reflexivity |].
    now apply (tile_source_size w w' (tileWidth, tileHeight) grid_image h).
  - intros j k dj sj xj yj dk sk xk yk Hjk Hj Hk.
    destruct (Hentry j _ Hj) as (hj & srcj & _ & Heqj & _).
    destruct (Hentry k _ Hk) as (hk & srck & _ & Heqk & _).
    pose proof (tile_rects_apart (tileWidth, tileHeight) maxColumns gap
                  (Z.of_nat j) (Z.of_nat k) Hmc Hgap Htw Hth ltac:(lia) ltac:(lia)) as Hapart.
    cbv zeta in Hapart. unfold tile_origin in *. cbn [fst snd] in *.
    injection Heqj as _ _ Hxj Hyj. injection Heqk as _ _ Hxk Hyk. lia.
Qed.

Lemma tiles_never_overlap_witness :
  exists w' new,
    _arrange_images_on_grid 2%nat [0; 1]%nat (10, 10) 2 2 small_second_canvas =
      Returns tt w' /\
    log w' = log small_second_canvas ++ new /\
    (forall xj yj xk yk dj sj dk sk,
       pastes new !! 0%nat = Some (dj, sj, (xj, yj)) ->
       pastes new !! 1%nat = Some (dk, sk, (xk, yk)) ->
       xj + 10 + 2 <= xk \/ yj + 10 + 2 <= yk).
Proof.
  destruct (tiles_never_overlap 2%nat [0; 1]%nat 10 10 2 2 small_second_canvas
              ltac:(lia) ltac:(lia) ltac:(lia) ltac:(lia) ltac:(simpl; lia)
              small_second_apart)
    as (w' & new & Hrun & Hlog & _ & Hapart).
  exists w', new. split; [exact Hrun |]. split; [exact Hlog |].
  intros xj yj xk yk dj sj dk sk Hj Hk.
  exact (Hapart 0%nat 1%nat dj sj xj yj dk sk xk yk ltac:(lia) Hj Hk).
Defined.

(** ** Tiles lie inside the canvas *)

(** The rounded-up quotient covers the count. *)
Lemma ceil_covers n m : 1 <= m -> n <= m * ((n + m - 1) / m).
Proof.
  intros Hm.
  pose proof (Z.div_mod (n + m - 1) m ltac:(lia)).
  pose proof (Z.mod_pos_bound (n + m - 1) m ltac:(lia)). lia.
Qed.

Lemma tile_fits tile mc mr gap k :
  1 <= mc -> 0 <= gap -> 0 <= fst tile -> 0 <= snd tile ->
  0 <= k < mc * mr ->
  let o := tile_origin tile mc gap k in
  0 <= fst o /\ 0 <= snd o /\
  fst o + fst tile <= fst tile * mc + (mc - 1) * gap /\
  snd o + snd tile <= snd tile * mr + (mr - 1) * gap.
Proof.
  intros Hmc Hgap Htw Hth Hk o. subst o. unfold tile_origin. cbn [fst snd].
  pose proof (Z.mod_pos_bound k mc ltac:(lia)) as Hc.
  assert (Hr : 0 <= k / mc < mr).
  { split; [apply Z.div_pos; lia | apply Z.div_lt_upper_bound; lia]. }
  assert ((k mod mc) * (fst tile + gap) <= (mc - 1) * (fst tile + gap))
    by (apply Z.mul_le_mono_nonneg_r; lia).
  assert ((k / mc) * (snd tile + gap) <= (mr - 1) * (snd tile + gap))
    by (apply Z.mul_le_mono_nonneg_r; lia).
  assert (0 <= (k mod mc) * (fst tile + gap)) by (apply Z.mul_nonneg_nonneg; lia).
  assert (0 <= (k / mc) * (snd tile + gap)) by (apply Z.mul_nonneg_nonneg; lia).
  lia.
Qed.

(** The two entry points without annotation, in terms of the grid stage. *)
Lemma by_columns_plain fuel images gap mc w built w' :
  mc <> 0 ->
  build_grid images gap mc ((Z.of_nat (length images) + mc - 1) / mc) w =
    Returns built w' ->
  create_images_grid_by_columns fuel images gap mc None w = Returns (fst built) w'.
Proof.
  intros Hmc Hrun. unfold create_images_grid_by_columns.
  rewrite (bind_returns _ _ _ _ _ (py_floordiv_ok _ mc w Hmc)).
  rewrite create_images_grid_stages. now rewrite (bind_returns _ _ _ _ _ Hrun).
Qed.

Lemma by_rows_plain fuel images gap mr w built w' :
  mr <> 0 ->
  build_grid images gap ((Z.of_nat (length images) + mr - 1) / mr) mr w =
    Returns built w' ->
  create_images_grid_by_rows fuel images gap mr None w = Returns (fst built) w'.
Proof.
  intros Hmr Hrun. unfold create_images_grid_by_rows.
  rewrite (bind_returns _ _ _ _ _ (py_floordiv_ok _ mr w Hmr)).
  rewrite create_images_grid_stages. now rewrite (bind_returns _ _ _ _ _ Hrun).
Qed.

(** The grid stage for counts that cover the images: every tile is pasted
    inside the canvas. *)
Lemma build_grid_fits first rest gap mc mr w fimg :
  Forall (fun h => (h < length (heap w))%nat) (first :: rest) ->
  heap w !! first = Some fimg ->
  0 <= gap -> 1 <= mc -> 1 <= mr ->
  Z.of_nat (length (first :: rest)) <= mc * mr ->
  let tile := size fimg in
  exists canvas w' W H new,
    build_grid (first :: rest) gap mc mr w = Returns (canvas, tile) w' /\
    size <$> heap w' !! canvas = Some (W, H) /\
    log w' = log w ++ EvNew canvas (W, H) white :: new /\
    length (pastes new) = length (first :: rest) /\
    forall (k : nat) dst src x y,
      pastes new !! k = Some (dst, src, (x, y)) ->
      dst = canvas /\
      0 <= x /\ 0 <= y /\ x + fst tile <= W /\ y + snd tile <= H.
Proof.
  intros Hall Hfirst Hgap Hmc Hmr Hcover tile.
  pose proof (size_nonneg fimg) as [Htw Hth].
  destruct (build_grid_spec first rest gap mc mr w fimg Hall Hfirst)
    as (w' & Hrun & Hgsz & _ & _ & new & Hlog & Hcount & Hpastes); try nia.
  fold tile in Hrun, Hgsz, Hlog, Hpastes.
  eexists. exists w'. eexists. eexists. exists new.
  split; [exact Hrun |]. split; [exact Hgsz |]. split; [exact Hlog |].
  split; [exact Hcount |].
  intros k dst src x y Hk.
  assert (Hlt : (k < length (first :: rest))%nat)
    by (rewrite <- Hcount; eapply lookup_lt_Some; eauto).
  destruct (lookup_lt_is_Some_2 _ _ Hlt) as [h Hh].
  destruct (Hpastes k h Hh) as (src' & Hsrc & _).
  assert (Hd : dst = length (heap w)) by congruence.
  assert (Ho : (x, y) = tile_origin tile mc gap (Z.of_nat k)) by congruence.
  split; [exact Hd |].
  pose proof (tile_fits tile mc mr gap (Z.of_nat k) Hmc Hgap Htw Hth ltac:(lia)) as Hfit.
  cbv zeta in Hfit. rewrite <- Ho in Hfit. exact Hfit.
Qed.

(** X3. Every tile lies inside the grid canvas, with both public operations:
    for a non-empty list of live images, gap >= 0 and a count >= 1, the
    operation returns and each of its n pastes puts an image of the tile size
    at a non-negative origin with its right and lower edges within the width
    and height of the canvas.  In particular [create_images_grid_by_rows]
    always has room for the last tile. *)
Theorem tiles_inside_canvas fuel first rest gap count w fimg :
  Forall (fun h => (h < length (heap w))%nat) (first :: rest) ->
  heap w !! first = Some fimg ->
  0 <= gap -> 1 <= count ->
  let images := first :: rest in
  let fits (run : M handle) :=
    exists canvas w' W H new,
      run w = Returns canvas w' /\
      size <$> heap w' !! canvas = Some (W, H) /\
      log w' = log w ++ EvNew canvas (W, H) white :: new /\
      length (pastes new) = length images /\
      forall (k : nat) dst src x y,
        pastes new !! k = Some (dst, src, (x, y)) ->
        dst = canvas /\
        0 <= x /\ 0 <= y /\
        x + fst (size fimg) <= W /\ y + snd (size fimg) <= H in
  fits (create_images_grid_by_columns fuel images gap count None) /\
  fits (create_images_grid_by_rows fuel images gap count None).
Proof.
  intros Hall Hfirst Hgap Hcount images fits.
  set (n := Z.of_nat (length images)).
  assert (Hn : 1 <= n) by (subst n images; simpl; lia).
  pose proof (rows_at_least_one n count Hn Hcount) as Hother.
  pose proof (ceil_covers n count Hcount) as Hcover.
  split.
  - destruct (build_grid_fits first rest gap count ((n + count - 1) / count) w fimg
                Hall Hfirst Hgap Hcount Hother Hcover)
      as (canvas & w' & W & H & new & Hrun & Hrest).
    exists canvas, w', W, H, new. split; [| exact Hrest].
    exact (by_columns_plain fuel images gap count w _ w' ltac:(lia) Hrun).
  - destruct (build_grid_fits first rest gap ((n + count - 1) / count) count w fimg
                Hall Hfirst Hgap Hother Hcount ltac:(fold images n; lia))
      as (canvas & w' & W & H & new & Hrun & Hrest).
    exists canvas, w', W, H, new. split; [| exact Hrest].
    exact (by_rows_plain fuel images gap count w _ w' ltac:(lia) Hrun).
Qed.

Lemma tiles_inside_canvas_witness :
  exists canvas w' W H new,
    create_images_grid_by_rows 0 [0; 1; 2; 3]%nat 2 3 None four_tiles =
      Returns canvas w' /\
    size <$> heap w' !! canvas = Some (W, H) /\
    log w' = log four_tiles ++ EvNew canvas (W, H) white :: new /\
    length (pastes new) = 4%nat.
Proof.
  destruct (tiles_inside_canvas 0 0%nat [1; 2; 3]%nat 2 3 four_tiles
              (solid 10 10 (RGB 200 0 0)) four_tiles_live eq_refl
              ltac:(lia) ltac:(lia))
    as [_ (canvas & w' & W & H & new & Hrun & Hsize & Hlog & Hcount & _)].
  exists canvas, w', W, H, new.
  split; [exact Hrun |]. split; [exact Hsize |]. split; [exact Hlog | exact Hcount].
Defined.

(** ** What the grid canvas shows *)

Lemma in_tile_shift tile origin px py :
  0 <= px < fst tile -> 0 <= py < snd tile ->
  in_tile tile origin (fst origin + px) (snd origin + py) = true.
Proof.
  intros Hx Hy. unfold in_tile.
  repeat (apply andb_true_intro; split);
    first [apply Z.leb_le | apply Z.ltb_lt]; lia.
Qed.

(** The canvas of the grid stage, pixel by pixel. *)
Lemma build_grid_pixels first rest gap mc mr w fimg :
  Forall (fun h => (h < length (heap w))%nat) (first :: rest) ->
  heap w !! first = Some fimg ->
  0 <= gap -> 1 <= mc -> 1 <= mr ->
  let tile := size fimg in
  exists canvas w' cimg,
    build_grid (first :: rest) gap mc mr w = Returns (canvas, tile) w' /\
    heap w' !! canvas = Some cimg /\
    forall X Y,
      (forall (k : nat) h img,
         (first :: rest) !! k = Some h -> heap w !! h = Some img ->
         in_tile tile (tile_origin tile mc gap (Z.of_nat k)) X Y = true ->
         im_pixel cimg X Y =
           shown img (X - fst (tile_origin tile mc gap (Z.of_nat k)))
                     (Y - snd (tile_origin tile mc gap (Z.of_nat k)))) /\
      ((forall k : nat, (k < length (first :: rest))%nat ->
          in_tile tile (tile_origin tile mc gap (Z.of_nat k)) X Y = false) ->
       im_pixel cimg X Y = white).
Proof.
  intros Hall Hfirst Hgap Hmc Hmr tile.
  pose proof (size_nonneg fimg) as [Htw Hth]. fold tile in Htw, Hth.
  set (gsz := (fst tile * mc + (mc - 1) * gap, snd tile * mr + (mr - 1) * gap)).
  assert (Hgw : 0 <= fst gsz) by (subst gsz; cbn [fst]; nia).
  assert (Hgh : 0 <= snd gsz) by (subst gsz; cbn [snd]; nia).
  set (g := length (heap w)).
  set (blank := {| im_width := Z.to_N (fst gsz); im_height := Z.to_N (snd gsz);
                   im_pixel := fun _ _ => white |}).
  set (w1 := {| heap := heap w ++ [blank];
                log := log w ++ [EvNew g gsz white] |}).
  assert (Hblank : heap w1 !! g = Some blank).
  { subst w1 g. cbn [heap]. rewrite lookup_app_r by lia. now rewrite Nat.sub_diag. }
  assert (Hall1 : Forall (fun h => (h < length (heap w1))%nat /\ h <> g) (first :: rest)).
  { eapply Forall_impl; [exact Hall |]. intros h Hh. cbv beta in Hh.
    subst w1 g. cbn [heap]. rewrite length_app. simpl. lia. }
  destruct (arrange_from_spec g tile mc gap (first :: rest) 0 w1
              ltac:(lia) Htw Hth ltac:(eapply lookup_lt_Some; eauto) Hall1)
    as (w' & Harr & _).
  destruct (arrange_from_pixels g tile mc gap (first :: rest) 0 w1 w' blank
              Hmc Hgap Htw Hth ltac:(lia) Hblank Hall1 Harr) as (cimg & Hcimg & Hpix).
  exists g, w', cimg. split; [| split; [exact Hcimg |]].
  - unfold build_grid. rewrite py_index_0.
    rewrite (bind_returns _ _ _ _ _ (Image_size_ok _ _ _ Hfirst)).
    rewrite (bind_returns _ _ _ _ _ (Image_new_ok gsz white w Hgw Hgh)).
    unfold _arrange_images_on_grid. fold g blank w1.
    now rewrite (bind_returns _ _ _ _ _ Harr).
  - intros X Y. destruct (Hpix X Y) as [Hin Hout]. split.
    + intros k h img Hk Himg Htile. apply (Hin k h img Hk); [| exact Htile].
      subst w1. cbn [heap]. rewrite lookup_app_l; [exact Himg |].
      eapply lookup_lt_Some; eauto.
    + intros Hnone. now rewrite Hout.
Qed.

(** X4. What the grid returned by either public operation shows, without
    annotation, for a non-empty list of live images, gap >= 0 and a count
    >= 1: inside tile k, the pixel at offset (px, py) is the pixel (px, py)
    of image k, or black if image k has no such pixel; a pixel that lies in
    no tile is white.  So images of the tile size appear whole, larger ones
    are cut at the tile, smaller ones are completed in black, and the gaps
    and any unused cells are white. *)
Theorem grid_shows_images fuel first rest gap count w fimg :
  Forall (fun h => (h < length (heap w))%nat) (first :: rest) ->
  heap w !! first = Some fimg ->
  0 <= gap -> 1 <= count ->
  let images := first :: rest in
  let n := Z.of_nat (length images) in
  let tileWidth := fst (size fimg) in
  let tileHeight := snd (size fimg) in
  let shows (columns : Z) (run : M handle) :=
    exists canvas w' cimg,
      run w = Returns canvas w' /\
      heap w' !! canvas = Some cimg /\
      (forall (k : nat) h img px py,
         images !! k = Some h -> heap w !! h = Some img ->
         0 <= px < tileWidth -> 0 <= py < tileHeight ->
         im_pixel cimg ((Z.of_nat k mod columns) * (tileWidth + gap) + px)
                       ((Z.of_nat k / columns) * (tileHeight + gap) + py) =
         if inside img px py then im_pixel img px py else black) /\
      (forall X Y,
         (forall k : nat, (k < length images)%nat ->
            ~ ((Z.of_nat k mod columns) * (tileWidth + gap) <= X
                 < (Z.of_nat k mod columns) * (tileWidth + gap) + tileWidth /\
               (Z.of_nat k / columns) * (tileHeight + gap) <= Y
                 < (Z.of_nat k / columns) * (tileHeight + gap) + tileHeight)) ->
         im_pixel cimg X Y = white) in
  shows count (create_images_grid_by_columns fuel images gap count None) /\
  shows (ceil_div n count) (create_images_grid_by_rows fuel images gap count None).
Proof.
  intros Hall Hfirst Hgap Hcount images n tileWidth tileHeight shows.
  assert (Hn : 1 <= n) by (subst n images; simpl; lia).
  pose proof (rows_at_least_one n count Hn Hcount) as Hother.
  assert (Hshow : forall mc mr run,
            1 <= mc -> 1 <= mr ->
            (forall built w', build_grid images gap mc mr w = Returns built w' ->
                              run w = Returns (fst built) w') ->
            shows mc run).
  { intros mc mr run Hmc Hmr Hplain.
    destruct (build_grid_pixels first rest gap mc mr w fimg Hall Hfirst Hgap Hmc Hmr)
      as (canvas & w' & cimg & Hrun & Hcimg & Hpix).
    exists canvas, w', cimg. split; [exact (Hplain _ _ Hrun) |].
    split; [exact Hcimg |]. split.
    - intros k h img px py Hk Himg Hpx Hpy.
      destruct (Hpix ((Z.of_nat k mod mc) * (tileWidth + gap) + px)
                     ((Z.of_nat k / mc) * (tileHeight + gap) + py)) as [Hin _].
      rewrite (Hin k h img Hk Himg).
      + unfold shown, tile_origin. cbn [fst snd]. fold tileWidth tileHeight.
        replace (Z.of_nat k mod mc * (tileWidth + gap) + px
                 - Z.of_nat k mod mc * (tileWidth + gap)) with px by lia.
        replace (Z.of_nat k / mc * (tileHeight + gap) + py
                 - Z.of_nat k / mc * (tileHeight + gap)) with py by lia.
        reflexivity.
      + exact (in_tile_shift (size fimg)
                 (tile_origin (size fimg) mc gap (Z.of_nat k)) px py Hpx Hpy).
    - intros X Y Hnone. destruct (Hpix X Y) as [_ Hout]. apply Hout.
      intros k Hk. apply in_tile_false. specialize (Hnone k Hk).
      unfold tile_origin. cbn [fst snd]. fold tileWidth tileHeight. lia. }
  split.
  - apply (Hshow count ((n + count - 1) / count)); try assumption.
    intros built w' Hrun.
    exact (by_columns_plain fuel images gap count w built w' ltac:(lia) Hrun).
  - rewrite (ceil_div_floordiv n count Hcount).
    apply (Hshow ((n + count - 1) / count) count); try assumption.
    intros built w' Hrun.
    exact (by_rows_plain fuel images gap count w built w' ltac:(lia) Hrun).
Qed.

Lemma grid_shows_images_witness :
  exists canvas w' cimg,
    create_images_grid_by_columns 0 [0; 1; 2; 3]%nat 2 2 None four_tiles =
      Returns canvas w' /\
    heap w' !! canvas = Some cimg /\
    im_pixel cimg (1 * (10 + 2) + 3) (1 * (10 + 2) + 4) = RGB 200 200 0.
Proof.
  destruct (grid_shows_images 0 0%nat [1; 2; 3]%nat 2 2 four_tiles
              (solid 10 10 (RGB 200 0 0)) four_tiles_live eq_refl
              ltac:(lia) ltac:(lia))
    as [(canvas & w' & cimg & Hrun & Hcimg & Htiles & _) _].
  exists canvas, w', cimg. split; [exact Hrun |]. split; [exact Hcimg |].
  exact (Htiles 3%nat 3%nat (solid 10 10 (RGB 200 200 0)) 3 4 eq_refl eq_refl
           ltac:(simpl; lia) ltac:(simpl; lia)).
Defined.

(** ** The label loops for any gap *)





(** ** Calls outside the contract *)

(** X6. What the public operations do outside their contract.  A count of
    zero raises ZeroDivisionError, and an empty list of images with a
    non-zero count raises IndexError, in both cases before anything is
    allocated or traced.  A grid that would have a negative width or height
    (a gap negative enough) is refused by the canvas allocation with
    ValueError, again with nothing allocated. *)
Theorem calls_outside_contract :
  (forall fuel images gap annotation w,
     create_images_grid_by_columns fuel images gap 0 annotation w =
       Raises ZeroDivisionError w /\
     create_images_grid_by_rows fuel images gap 0 annotation w =
       Raises ZeroDivisionError w) /\
  (forall fuel gap count annotation w,
     count <> 0 ->
     create_images_grid_by_columns fuel [] gap count annotation w =
       Raises IndexError w /\
     create_images_grid_by_rows fuel [] gap count annotation w =
       Raises IndexError w) /\
  (forall fuel first rest gap count annotation w fimg,
     heap w !! first = Some fimg ->
     count <> 0 ->
     let images := first :: rest in
     let other := (Z.of_nat (length images) + count - 1) / count in
     let refused (width height : Z) (run : M handle) :=
       width < 0 \/ height < 0 ->
       run w = Raises (ValueError "Width and height must be >= 0") w in
     refused (fst (size fimg) * count + (count - 1) * gap)
             (snd (size fimg) * other + (other - 1) * gap)
             (create_images_grid_by_columns fuel images gap count annotation) /\
     refused (fst (size fimg) * other + (other - 1) * gap)
             (snd (size fimg) * count + (count - 1) * gap)
             (create_images_grid_by_rows fuel images gap count annotation)).
Proof.
  split; [| split].
  - intros. split; reflexivity.
  - intros fuel gap count annotation w Hcount.
    unfold create_images_grid_by_columns, create_images_grid_by_rows.
    rewrite !(bind_returns _ _ _ _ _ (py_floordiv_ok _ count w Hcount)).
    split; reflexivity.
  - intros fuel first rest gap count annotation w fimg Hfirst Hcount images other refused.
    assert (Hneg : forall mc mr,
              fst (size fimg) * mc + (mc - 1) * gap < 0 \/
              snd (size fimg) * mr + (mr - 1) * gap < 0 ->
              _create_images_grid fuel images gap mc mr annotation w =
                Raises (ValueError "Width and height must be >= 0") w).
    { intros mc mr Hbad. unfold _create_images_grid. subst images.
      rewrite py_index_0.
      rewrite (bind_returns _ _ _ _ _ (Image_size_ok _ _ _ Hfirst)).
      unfold bind, Image_new. cbn [fst snd].
      destruct Hbad as [Hbad | Hbad].
      - destruct (Z.ltb_spec (fst (size fimg) * mc + (mc - 1) * gap) 0); [reflexivity | lia].
      - destruct (Z.ltb_spec (snd (size fimg) * mr + (mr - 1) * gap) 0); [| lia].
        now rewrite orb_true_r. }
    split; intros Hbad.
    + unfold create_images_grid_by_columns.
      rewrite (bind_returns _ _ _ _ _ (py_floordiv_ok _ count w Hcount)).
      now apply Hneg.
    + unfold create_images_grid_by_rows.
      rewrite (bind_returns _ _ _ _ _ (py_floordiv_ok _ count w Hcount)).
      now apply Hneg.
Qed.

Lemma calls_outside_contract_witness :
  create_images_grid_by_columns 0 [] 2 3 None four_tiles =
    Raises IndexError four_tiles /\
  create_images_grid_by_columns 0 [0; 1]%nat (-30) 2 None four_tiles =
    Raises (ValueError "Width and height must be >= 0") four_tiles.
Proof.
  destruct calls_outside_contract as (_ & Hempty & Hneg). split.
  - exact (proj1 (Hempty 0%nat 2 3 None four_tiles ltac:(lia))).
  - exact (proj1 (Hneg 0%nat 0%nat [1%nat] (-30) 2 None four_tiles
                    (solid 10 10 (RGB 200 0 0)) eq_refl ltac:(lia))
             ltac:(left; simpl; lia)).
Defined.

(** ** Rows against columns *)

(** X7. [create_images_grid_by_rows] with maxRows >= 1 on n >= 1 images
    works with c = ceil(n/maxRows) columns, and c columns need
    ceil(n/c) <= maxRows rows: the canvas never lacks a row.  When
    ceil(n/c) = maxRows the call is the very same computation as
    [create_images_grid_by_columns] with maxColumns = c, for every
    annotation and every store. *)
Theorem rows_against_columns fuel images gap maxRows annotation w :
  images <> [] -> 1 <= maxRows ->
  let n := Z.of_nat (length images) in
  let c := ceil_div n maxRows in
  1 <= c /\ ceil_div n c <= maxRows /\
  (ceil_div n c = maxRows ->
   create_images_grid_by_rows fuel images gap maxRows annotation w =
   create_images_grid_by_columns fuel images gap c annotation w).
Proof.
  intros Himages Hr n c.
  assert (Hn : 1 <= n) by (subst n; destruct images; [congruence | simpl; lia]).
  subst c. rewrite (ceil_div_floordiv n maxRows Hr).
  pose proof (rows_at_least_one n maxRows Hn Hr) as Hc.
  set (c := (n + maxRows - 1) / maxRows) in *.
  rewrite (ceil_div_floordiv n c Hc).
  split; [exact Hc |]. split.
  - pose proof (ceil_covers n maxRows Hr) as Hcover. fold c in Hcover.
    assert ((n + c - 1) / c < maxRows + 1); [| lia].
    apply Z.div_lt_upper_bound; nia.
  - intros Heq. unfold create_images_grid_by_rows, create_images_grid_by_columns.
    rewrite (bind_returns _ _ _ _ _ (py_floordiv_ok _ maxRows w ltac:(lia))).
    rewrite (bind_returns _ _ _ _ _ (py_floordiv_ok _ c w ltac:(lia))).
    fold n. fold c. now rewrite Heq.
Qed.

Lemma rows_against_columns_witness :
  create_images_grid_by_rows 0 [0; 1; 2; 3]%nat 2 2 None four_tiles =
  create_images_grid_by_columns 0 [0; 1; 2; 3]%nat 2 (ceil_div 4 2) None four_tiles.
Proof.
  exact (proj2 (proj2 (rows_against_columns 0 [0; 1; 2; 3]%nat 2 2 None four_tiles
                         ltac:(discriminate) ltac:(lia))) eq_refl).
Defined.

(** ** Where the label box ends up *)

(** X8. A label is centred on its right and bottom bounding-box coordinates,
    so the box of its ink is off the middle of the band by half its left and
    top bearings: the middle of the box lies at the middle of the band plus
    (left/2, top/2), and the label is exactly centred only when the text
    service reports a box that starts at (0, 0). *)
Theorem label_box_off_centre draw x0 y0 x1 y1 text fill w im left top right bottom :
  heap w !! draw_image draw = Some im ->
  getbbox (draw_font draw) text = (left, top, right, bottom) ->
  exists pos w',
    _draw_center_text draw (x0, y0, x1, y1) text fill w = Returns tt w' /\
    log w' = log w ++ [EvText (draw_image draw) pos text fill] /\
    (fst pos + inject_Z (left + right) / inject_Z 2 ==
       inject_Z (x0 + x1) / inject_Z 2 + inject_Z left / inject_Z 2)%Q /\
    (snd pos + inject_Z (top + bottom) / inject_Z 2 ==
       inject_Z (y0 + y1) / inject_Z 2 + inject_Z top / inject_Z 2)%Q.
Proof.
  intros Him Hbox.
  eexists. eexists. split; [exact (draw_center_text_ok draw x0 y0 x1 y1 text fill w im Him) |].
  cbn [log]. split; [reflexivity |].
  unfold label_position. rewrite Hbox. cbn [fst snd].
  unfold Qeq, Qplus, Qdiv, Qmult, Qinv, inject_Z. simpl. split; lia.
Qed.

Lemma label_box_off_centre_witness :
  exists (pos : Q * Q) w',
    _draw_center_text sample_draw (20, 0, 30, 20) "a" black grid_and_canvas =
      Returns tt w' /\
    log w' = log grid_and_canvas ++ [EvText 1%nat pos "a" black] /\
    (snd pos + inject_Z (2 + 9) / inject_Z 2 ==
       inject_Z (0 + 20) / inject_Z 2 + inject_Z 2 / inject_Z 2)%Q.
Proof.
  destruct (label_box_off_centre sample_draw 20 0 30 20 "a" black grid_and_canvas
              (solid 42 42 white) 0 2 8 9 eq_refl eq_refl)
    as (pos & w' & Hrun & Hlog & _ & Hy).
  exists pos, w'. split; [exact Hrun |]. split; [exact Hlog | exact Hy].
Defined.

(** ** The annotated grid, end to end *)

(** The trace of the annotation stage in its counted description: the new
    canvas, the paste of the grid, the column labels, the row labels. *)
Lemma annotation_stage_log gi gimg column_texts row_texts f widest cols rows w :
  let lp := left_padding_of f widest in
  let tp := top_padding_of f in
  let canvas := length (heap w) in
  let draw := {| draw_image := canvas; draw_font := f |} in
  let tile := one_image_size gi in
  log (annotation_stage gi gimg column_texts row_texts f widest cols rows w) =
    log w ++
    EvNew canvas (fst (size gimg) + lp, snd (size gimg) + tp) white
    :: EvPaste canvas (image gi) (lp, tp)
    :: (zip_with (label_event draw) column_texts
          (band_rects (next_column (fst tile + gap gi)) cols
             (first_column lp tp (fst tile)))
        ++ zip_with (label_event draw) row_texts
             (band_rects (next_row (snd tile + gap gi)) rows
                (first_row lp tp (snd tile)))).
Proof.
  intros lp tp canvas draw tile. unfold annotation_stage.
  fold lp tp canvas draw tile.
  set (w1 := canvas_with_grid gimg lp tp (image gi) w).
  assert (Hlive1 : (draw_image draw < length (heap w1))%nat).
  { subst w1. unfold canvas_with_grid. cbn [heap draw_image draw].
    rewrite length_insert, length_app. simpl. lia. }
  rewrite (draw_bands_log (next_row (snd tile + gap gi)) draw row_texts
             (fun b => eq_refl) rows (first_row lp tp (snd tile)) _ 0%nat eq_refl)
    by (rewrite draw_bands_length; exact Hlive1).
  rewrite (draw_bands_log (next_column (fst tile + gap gi)) draw column_texts
             (fun b => eq_refl) cols (first_column lp tp (fst tile)) w1 0%nat
             eq_refl Hlive1).
  rewrite !drop_0. subst w1. unfold canvas_with_grid. cbn [log].
  rewrite <- !app_assoc. reflexivity.
Qed.

Lemma pastes_labels draw texts rects :
  pastes (zip_with (label_event draw) texts rects) = [].
Proof.
  revert rects. induction texts as [| t texts IH]; intros [| r rects]; try reflexivity.
  simpl. unfold label_event at 1. rewrite pastes_cons_text. apply IH.
Qed.

Lemma inked_app f l1 l2 X Y :
  inked f (l1 ++ l2) X Y = inked f l1 X Y || inked f l2 X Y.
Proof. unfold inked. apply existsb_app. Qed.

(** The store of the annotation stage in its counted description: one image
    more, the canvas; the images that were there unchanged; and every pixel
    of the canvas: black under the ink of a label drawn, else the grid
    shifted by the paddings, else white. *)
Lemma annotation_stage_store gi gimg column_texts row_texts f widest cols rows w :
  let lp := left_padding_of f widest in
  let tp := top_padding_of f in
  let canvas := length (heap w) in
  let draw := {| draw_image := canvas; draw_font := f |} in
  let tile := one_image_size gi in
  let labels :=
    zip_with (label_event draw) column_texts
      (band_rects (next_column (fst tile + gap gi)) cols
         (first_column lp tp (fst tile)))
    ++ zip_with (label_event draw) row_texts
         (band_rects (next_row (snd tile + gap gi)) rows
            (first_row lp tp (snd tile))) in
  let w' := annotation_stage gi gimg column_texts row_texts f widest cols rows w in
  length (heap w') = S (length (heap w)) /\
  (forall h, (h < length (heap w))%nat -> heap w' !! h = heap w !! h) /\
  exists cimg,
    heap w' !! canvas = Some cimg /\
    forall X Y,
      im_pixel cimg X Y =
      if inked f labels X Y then black
      else if inside gimg (X - lp) (Y - tp) then im_pixel gimg (X - lp) (Y - tp)
      else white.
Proof.
  intros lp tp canvas draw tile labels w'.
  subst w'. unfold annotation_stage. fold lp tp canvas draw tile.
  set (w1 := canvas_with_grid gimg lp tp (image gi) w).
  set (csz := (fst (size gimg) + lp, snd (size gimg) + tp)).
  set (blank := {| im_width := Z.to_N (fst csz); im_height := Z.to_N (snd csz);
                   im_pixel := fun _ _ => white |}).
  assert (Hlen1 : length (heap w1) = S (length (heap w))).
  { subst w1. unfold canvas_with_grid. cbn [heap].
    rewrite length_insert, length_app. simpl. lia. }
  assert (Hc0 : heap w1 !! draw_image draw = Some (paste_image blank gimg (lp, tp))).
  { subst w1. unfold canvas_with_grid. cbn [heap draw_image draw].
    apply list_lookup_insert_eq. rewrite length_app. simpl. lia. }
  set (next1 := next_column (fst tile + gap gi)).
  set (b1 := first_column lp tp (fst tile)).
  set (next2 := next_row (snd tile + gap gi)).
  set (b2 := first_row lp tp (snd tile)).
  destruct (draw_bands_store next1 draw column_texts (fun b => eq_refl) cols b1 w1
              0%nat _ eq_refl Hc0) as (im1 & Him1 & _ & Hpix1).
  destruct (draw_bands_store next2 draw row_texts (fun b => eq_refl) rows b2
              (draw_bands next1 draw column_texts cols b1 w1)
              0%nat _ eq_refl Him1) as (im2 & Him2 & _ & Hpix2).
  rewrite drop_0 in Hpix1, Hpix2.
  split; [now rewrite !draw_bands_length |]. split.
  - intros h Hh.
    assert (Hne : h <> draw_image draw) by (cbn [draw_image draw]; subst canvas; lia).
    rewrite !draw_bands_other by exact Hne.
    subst w1. unfold canvas_with_grid. cbn [heap].
    rewrite list_lookup_insert_ne by lia.
    now apply lookup_app_l.
  - exists im2. split; [exact Him2 |].
    intros X Y. rewrite Hpix2, Hpix1. subst labels. rewrite inked_app.
    cbn [draw_font draw].
    destruct (inked f (zip_with (label_event draw) row_texts _) X Y);
      [now rewrite orb_true_r |].
    rewrite orb_false_r.
    destruct (inked f _ X Y); [reflexivity |].
    apply paste_image_pixel.
Qed.

(** A label of a pass is a drawing of one of the texts on the image of the
    drawing context, in black. *)
Lemma labels_are_drawings draw texts rects e :
  In e (zip_with (label_event draw) texts rects) ->
  exists pos text,
    In text texts /\ e = EvText (draw_image draw) pos text black.
Proof.
  revert rects. induction texts as [| t texts IH]; intros [| r rects] Hin;
    try contradiction.
  destruct Hin as [<- | Hin].
  - eexists _, t. split; [now left | reflexivity].
  - destruct (IH rects Hin) as (pos & text & Ht & He).
    exists pos, text. split; [now right | exact He].
Qed.

Section EndToEnd.

(** [create_images_grid_by_columns] with an annotation, inside its contract:
    a non-empty list of live images whose first one is at least one pixel
    wide and high, gap >= 0, maxColumns >= 1, non-empty label lists, a font of
    non-negative size and widths, and fuel for both label passes. *)
Variables (fuel : nat) (first : handle) (rest : list handle).
Variables (gap_px maxColumns : Z) (a : Annotation) (w : World) (fimg : Image).

Let images := first :: rest.
Let n := Z.of_nat (length images).
Let maxRows := (n + maxColumns - 1) / maxColumns.
Let tileWidth := fst (size fimg).
Let tileHeight := snd (size fimg).

Hypothesis images_live :
  Forall (fun h => (h < length (heap w))%nat) (first :: rest).
Hypothesis first_image : heap w !! first = Some fimg.
Hypothesis gap_nonneg : 0 <= gap_px.
Hypothesis columns_positive : 1 <= maxColumns.
Hypothesis tile_wide : 1 <= fst (size fimg).
Hypothesis tile_high : 1 <= snd (size fimg).
Hypothesis columns_given : column_texts a <> [].
Hypothesis rows_given : row_texts a <> [].
Hypothesis font_nonneg : 0 <= font_size (font a).
Hypothesis widths_nonneg :
  forall text, In text (row_texts a) -> (0 <= getlength (font a) text)%Q.
Hypothesis fuel_columns : (Z.to_nat maxColumns <= fuel)%nat.
Hypothesis fuel_rows :
  (Z.to_nat ((Z.of_nat (length (first :: rest)) + maxColumns - 1) / maxColumns)
   <= fuel)%nat.

(** The two stages in sequence. *)
Lemma annotated_pipeline :
  exists w1 gimg widest tiles,
    let grid := length (heap w) in
    let gi := {| image := grid; gap := gap_px; one_image_size := size fimg |} in
    create_images_grid_by_columns fuel images gap_px maxColumns None w =
      Returns grid w1 /\
    heap w1 !! grid = Some gimg /\
    size gimg = (tileWidth * maxColumns + (maxColumns - 1) * gap_px,
                 tileHeight * maxRows + (maxRows - 1) * gap_px) /\
    length (heap w1) <> grid /\
    log w1 = log w ++ EvNew grid (size gimg) white :: tiles /\
    length (pastes tiles) = length images /\
    (forall (k : nat) h, images !! k = Some h ->
       exists src,
         pastes tiles !! k =
           Some (grid, src, tile_origin (size fimg) maxColumns gap_px (Z.of_nat k))) /\
    py_max (map (getlength (font a)) (row_texts a)) = Some widest /\
    0 <= left_padding_of (font a) widest /\ 0 <= top_padding_of (font a) /\
    create_images_grid_by_columns fuel images gap_px maxColumns (Some a) w =
      Returns (length (heap w1))
        (annotation_stage gi gimg (column_texts a) (row_texts a) (font a) widest
           (Z.to_nat maxColumns) (Z.to_nat maxRows) w1).
Proof.
  assert (Hn : 1 <= n) by (subst n images; simpl; lia).
  pose proof (rows_at_least_one n maxColumns Hn columns_positive) as Hrows.
  fold maxRows in Hrows.
  destruct (build_grid_spec first rest gap_px maxColumns maxRows w fimg
              images_live first_image)
    as (w1 & Hrun & Hgsz & Hlen & _ & tiles & Hlog & Hcount & Hpastes); try nia.
  apply fmap_Some in Hgsz as (gimg & Hgimg & Hsize).
  set (gi := {| image := length (heap w); gap := gap_px; one_image_size := size fimg |}).
  destruct (annotations_return fuel gi (column_texts a) (row_texts a) (font a) w1 gimg
              tileWidth tileHeight maxColumns maxRows)
    as (widest & Hmax & Hlp & Htp & Hann); try assumption; try reflexivity.
  { symmetry. exact Hsize. }
  exists w1, gimg, widest, tiles. cbv zeta.
  split; [exact (by_columns_plain fuel images gap_px maxColumns w _ w1 ltac:(lia) Hrun) |].
  split; [exact Hgimg |]. split; [symmetry; exact Hsize |]. split; [lia |].
  split; [rewrite <- Hsize; exact Hlog |]. split; [exact Hcount |].
  split.
  { intros k h Hk. destruct (Hpastes k h Hk) as (src & Hsrc & _). now exists src. }
  split; [exact Hmax |]. split; [exact Hlp |]. split; [exact Htp |].
  unfold create_images_grid_by_columns.
  rewrite (bind_returns _ _ _ _ _ (py_floordiv_ok _ maxColumns w ltac:(lia))).
  rewrite create_images_grid_stages, (bind_returns _ _ _ _ _ Hrun).
  exact Hann.
Qed.

(** X9. How the stages compose.  With an annotation, the operation first
    builds exactly the grid that the call without annotation returns, then
    allocates the annotated canvas, pastes the grid into it and draws the
    labels, in this order and nothing else; the grid image is still in the
    store, unchanged, and is not the image returned.  The trace holds n tile
    pastes, one paste of the grid, and then the label drawings only: first
    the min(columnLabels, maxColumns) column labels, then the
    min(rowLabels, maxRows) row labels, label i of a list drawn in black on
    the canvas, centred in band i.  The store gains the canvas alone, and the
    canvas is black under the ink of these labels, shows the grid shifted by
    the paddings where no label has ink, and is white elsewhere. *)
Theorem annotated_grid_stages :
  exists grid canvas w1 w' gimg cimg tiles labels leftPadding topPadding,
    create_images_grid_by_columns fuel images gap_px maxColumns None w =
      Returns grid w1 /\
    create_images_grid_by_columns fuel images gap_px maxColumns (Some a) w =
      Returns canvas w' /\
    canvas <> grid /\
    heap w1 !! grid = Some gimg /\
    heap w' !! grid = Some gimg /\
    heap w' !! canvas = Some cimg /\
    size cimg = (fst (size gimg) + leftPadding, snd (size gimg) + topPadding) /\
    log w1 = log w ++ EvNew grid (size gimg) white :: tiles /\
    log w' = log w1 ++ EvNew canvas (size cimg) white
                       :: EvPaste canvas grid (leftPadding, topPadding)
                       :: labels /\
    length (pastes tiles) = length images /\
    pastes labels = [] /\
    length labels =
      (Nat.min (length (column_texts a)) (Z.to_nat maxColumns)
       + Nat.min (length (row_texts a)) (Z.to_nat maxRows))%nat /\
    (exists columnLabels rowLabels,
       labels = columnLabels ++ rowLabels /\
       length columnLabels =
         Nat.min (length (column_texts a)) (Z.to_nat maxColumns) /\
       length rowLabels = Nat.min (length (row_texts a)) (Z.to_nat maxRows) /\
       (forall (i : nat) text,
          column_texts a !! i = Some text -> (i < Z.to_nat maxColumns)%nat ->
          columnLabels !! i =
            Some (EvText canvas
                    (label_position (font a)
                       (leftPadding + Z.of_nat i * (tileWidth + gap_px), 0,
                        leftPadding + tileWidth + Z.of_nat i * (tileWidth + gap_px),
                        topPadding) text)
                    text black)) /\
       (forall (i : nat) text,
          row_texts a !! i = Some text -> (i < Z.to_nat maxRows)%nat ->
          rowLabels !! i =
            Some (EvText canvas
                    (label_position (font a)
                       (0, topPadding + Z.of_nat i * (tileHeight + gap_px),
                        leftPadding,
                        topPadding + tileHeight + Z.of_nat i * (tileHeight + gap_px))
                       text)
                    text black))) /\
    (forall e, In e labels ->
       exists pos text,
         In text (column_texts a ++ row_texts a) /\
         e = EvText canvas pos text black) /\
    length (heap w') = S (length (heap w1)) /\
    (forall h, (h < length (heap w1))%nat -> heap w' !! h = heap w1 !! h) /\
    (forall X Y,
       im_pixel cimg X Y =
       if inked (font a) labels X Y then black
       else if inside gimg (X - leftPadding) (Y - topPadding)
            then im_pixel gimg (X - leftPadding) (Y - topPadding)
            else white).
Proof.
  destruct annotated_pipeline
    as (w1 & gimg & widest & tiles & Hplain & Hgimg & Hsize & Hfresh & Hlog1
        & Hcount & _ & Hmax & Hlp & Htp & Hann).
  cbv zeta in *.
  set (gi := {| image := length (heap w); gap := gap_px; one_image_size := size fimg |}) in *.
  pose proof (size_nonneg gimg) as [Hgw Hgh].
  destruct (annotation_stage_canvas gi gimg (column_texts a) (row_texts a) (font a)
              widest (Z.to_nat maxColumns) (Z.to_nat maxRows) w1 Hgimg)
    as (cimg & new & Hcimg & Hcsz & _ & _ & Hframe & _); try lia.
  pose proof (annotation_stage_log gi gimg (column_texts a) (row_texts a) (font a)
                widest (Z.to_nat maxColumns) (Z.to_nat maxRows) w1) as Hlog.
  destruct (annotation_stage_store gi gimg (column_texts a) (row_texts a) (font a)
              widest (Z.to_nat maxColumns) (Z.to_nat maxRows) w1)
    as (Hlen & _ & cimg' & Hcimg' & Hpix).
  cbv zeta in Hlog, Hcimg, Hcimg', Hpix, Hlen.
  assert (cimg' = cimg) by congruence. subst cimg'.
  cbn [one_image_size gap gi] in Hlog, Hpix. fold tileWidth tileHeight in Hlog, Hpix.
  set (lp := left_padding_of (font a) widest) in *.
  set (tp := top_padding_of (font a)) in *.
  set (draw := {| draw_image := length (heap w1); draw_font := font a |}) in *.
  set (cl := zip_with (label_event draw) (column_texts a) _) in *.
  set (rl := zip_with (label_event draw) (row_texts a) _) in *.
  eexists (length (heap w)), (length (heap w1)), w1, _, gimg, cimg, tiles, (cl ++ rl).
  exists lp, tp.
  split; [exact Hplain |]. split; [exact Hann |]. split; [exact Hfresh |].
  split; [exact Hgimg |].
  split; [rewrite Hframe; [exact Hgimg | eapply lookup_lt_Some; eauto] |].
  split; [exact Hcimg |]. split; [exact Hcsz |]. split; [exact Hlog1 |].
  split; [rewrite Hcsz; exact Hlog |]. split; [exact Hcount |].
  split; [subst cl rl; now rewrite pastes_app, !pastes_labels |].
  split; [subst cl rl; now rewrite length_app, !length_zip_with, !band_rects_length |].
  split.
  { exists cl, rl. split; [reflexivity |].
    split; [subst cl; now rewrite length_zip_with, band_rects_length |].
    split; [subst rl; now rewrite length_zip_with, band_rects_length |].
    split.
    - intros i text Ht Hi. subst cl. rewrite (zip_labels_lookup _ _ _ _ _ _ Ht
        (band_rects_lookup _ _ _ _ Hi)).
      rewrite iter_next_column. reflexivity.
    - intros i text Ht Hi. subst rl. rewrite (zip_labels_lookup _ _ _ _ _ _ Ht
        (band_rects_lookup _ _ _ _ Hi)).
      rewrite iter_next_row. reflexivity. }
  split.
  { intros e Hin. apply in_app_or in Hin as [Hin | Hin];
      apply labels_are_drawings in Hin as (pos & text & Ht & He);
      exists pos, text; (split; [apply in_or_app; auto | exact He]). }
  split; [exact Hlen |]. split; [exact Hframe | exact Hpix].
Qed.

(** X10. Labels sit over the tiles they name.  For every tile k pasted at
    (x, y) in the grid, hence at (leftPadding + x, topPadding + y) in the
    annotated canvas: if its column k mod maxColumns has a label, that label
    is drawn centred in the band of the top margin that spans exactly the
    tile's pixel columns, and if its row k div maxColumns has a label, that
    label is drawn centred in the band of the left margin that spans exactly
    the tile's pixel rows. *)
Theorem labels_over_their_tiles :
  exists canvas w' tiles labels leftPadding topPadding,
    create_images_grid_by_columns fuel images gap_px maxColumns (Some a) w =
      Returns canvas w' /\
    log w' = log w ++ EvNew (length (heap w))
                        (tileWidth * maxColumns + (maxColumns - 1) * gap_px,
                         tileHeight * maxRows + (maxRows - 1) * gap_px) white
                      :: tiles
                      ++ EvNew canvas
                           (tileWidth * maxColumns + (maxColumns - 1) * gap_px
                              + leftPadding,
                            tileHeight * maxRows + (maxRows - 1) * gap_px
                              + topPadding) white
                      :: EvPaste canvas (length (heap w)) (leftPadding, topPadding)
                      :: labels /\
    forall k : nat, (k < length images)%nat ->
      exists src x y,
        pastes tiles !! k = Some (length (heap w), src, (x, y)) /\
        (forall text,
           column_texts a !! Z.to_nat (Z.of_nat k mod maxColumns) = Some text ->
           In (EvText canvas
                 (label_position (font a)
                    (leftPadding + x, 0, leftPadding + x + tileWidth, topPadding)
                    text)
                 text black) labels) /\
        (forall text,
           row_texts a !! Z.to_nat (Z.of_nat k / maxColumns) = Some text ->
           In (EvText canvas
                 (label_position (font a)
                    (0, topPadding + y, leftPadding, topPadding + y + tileHeight)
                    text)
                 text black) labels).
Proof.
  destruct annotated_pipeline
    as (w1 & gimg & widest & tiles & _ & Hgimg & Hsize & _ & Hlog1
        & Hcount & Htiles & _ & _ & _ & Hann).
  cbv zeta in *.
  set (gi := {| image := length (heap w); gap := gap_px; one_image_size := size fimg |}) in *.
  pose proof (annotation_stage_log gi gimg (column_texts a) (row_texts a) (font a)
                widest (Z.to_nat maxColumns) (Z.to_nat maxRows) w1) as Hlog.
  cbv zeta in Hlog. cbn [image gap one_image_size gi] in Hlog.
  set (lp := left_padding_of (font a) widest) in *.
  set (tp := top_padding_of (font a)) in *.
  set (draw := {| draw_image := length (heap w1); draw_font := font a |}) in *.
  assert (Hn : 1 <= n) by (subst n images; simpl; lia).
  pose proof (rows_at_least_one n maxColumns Hn columns_positive) as Hrows.
  fold maxRows in Hrows.
  eexists (length (heap w1)), _, tiles, _, lp, tp.
  split; [exact Hann |]. split.
  { rewrite Hlog, Hlog1, Hsize. cbn [fst snd]. rewrite <- app_assoc. reflexivity. }
  intros k Hk.
  destruct (lookup_lt_is_Some_2 _ _ Hk) as [h Hh].
  destruct (Htiles k h Hh) as (src & Hsrc).
  exists src. eexists. eexists. split; [exact Hsrc |].
  pose proof (Z.mod_pos_bound (Z.of_nat k) maxColumns ltac:(lia)) as Hc.
  assert (Hr : 0 <= Z.of_nat k / maxColumns < maxRows).
  { split; [apply Z.div_pos; lia |]. apply Z.div_lt_upper_bound; [lia |].
    pose proof (ceil_covers n maxColumns columns_positive). fold maxRows in H.
    subst n. lia. }
  split; intros text Htext; apply in_or_app.
  - left. apply list_elem_of_In. apply list_elem_of_lookup.
    exists (Z.to_nat (Z.of_nat k mod maxColumns)).
    assert (Hband := band_rects_lookup (next_column (fst (size fimg) + gap_px))
                       (Z.to_nat maxColumns) (first_column lp tp (fst (size fimg)))
                       (Z.to_nat (Z.of_nat k mod maxColumns)) ltac:(lia)).
    rewrite (zip_labels_lookup draw _ _ _ text _ Htext Hband).
    rewrite iter_next_column. unfold label_event, band_rect, first_column.
    cbn [b_x0 b_y0 b_x1 b_y1 draw_image draw_font draw fst snd].
    rewrite Z2Nat.id by lia. fold tileWidth.
    replace (lp + tileWidth + Z.of_nat k mod maxColumns * (tileWidth + gap_px))
      with (lp + Z.of_nat k mod maxColumns * (tileWidth + gap_px) + tileWidth) by lia.
    reflexivity.
  - right. apply list_elem_of_In. apply list_elem_of_lookup.
    exists (Z.to_nat (Z.of_nat k / maxColumns)).
    assert (Hband := band_rects_lookup (next_row (snd (size fimg) + gap_px))
                       (Z.to_nat maxRows) (first_row lp tp (snd (size fimg)))
                       (Z.to_nat (Z.of_nat k / maxColumns)) ltac:(lia)).
    rewrite (zip_labels_lookup draw _ _ _ text _ Htext Hband).
    rewrite iter_next_row. unfold label_event, band_rect, first_row.
    cbn [b_x0 b_y0 b_x1 b_y1 draw_image draw_font draw fst snd].
    rewrite Z2Nat.id by lia. fold tileHeight.
    replace (tp + tileHeight + Z.of_nat k / maxColumns * (tileHeight + gap_px))
      with (tp + Z.of_nat k / maxColumns * (tileHeight + gap_px) + tileHeight) by lia.
    reflexivity.
Qed.

(** X11. What the annotated picture shows.  Tile k of the grid appears in
    the returned canvas shifted by the paddings: the pixel at offset (px, py)
    inside that tile is the pixel (px, py) of input image k, or black if the
    image has no such pixel, provided no label drawn by the call inks that
    pixel of the canvas. *)
Theorem annotated_grid_shows_images :
  exists canvas w' cimg labels leftPadding topPadding,
    create_images_grid_by_columns fuel images gap_px maxColumns (Some a) w =
      Returns canvas w' /\
    heap w' !! canvas = Some cimg /\
    (exists before, log w' = before ++ EvPaste canvas (length (heap w))
                                         (leftPadding, topPadding) :: labels) /\
    pastes labels = [] /\
    forall (k : nat) h img px py,
      images !! k = Some h -> heap w !! h = Some img ->
      0 <= px < tileWidth -> 0 <= py < tileHeight ->
      let X := leftPadding + (Z.of_nat k mod maxColumns) * (tileWidth + gap_px) + px in
      let Y := topPadding + (Z.of_nat k / maxColumns) * (tileHeight + gap_px) + py in
      (forall pos text fill, In (EvText canvas pos text fill) labels ->
         ink (font a) pos text X Y = false) ->
      im_pixel cimg X Y = if inside img px py then im_pixel img px py else black.
Proof.
  destruct annotated_pipeline
    as (w1 & gimg & widest & tiles & Hplain & Hgimg & Hsize & _ & Hlog1
        & _ & _ & _ & Hlp & Htp & Hann).
  cbv zeta in *.
  set (gi := {| image := length (heap w); gap := gap_px; one_image_size := size fimg |}) in *.
  assert (Hn : 1 <= n) by (subst n images; simpl; lia).
  pose proof (rows_at_least_one n maxColumns Hn columns_positive) as Hrows.
  fold maxRows in Hrows.
  destruct (build_grid_pixels first rest gap_px maxColumns maxRows w fimg
              images_live first_image gap_nonneg columns_positive Hrows)
    as (g & w1' & gimg' & Hbuild & Hgimg' & Hpix).
  pose proof (by_columns_plain fuel images gap_px maxColumns w _ w1'
                ltac:(lia) Hbuild) as Hplain'.
  rewrite Hplain in Hplain'. injection Hplain' as Hg Hw. cbn [fst] in Hg.
  subst g w1'. assert (gimg' = gimg) as -> by congruence.
  pose proof (size_nonneg gimg) as [Hgw Hgh].
  destruct (annotation_stage_canvas gi gimg (column_texts a) (row_texts a) (font a)
              widest (Z.to_nat maxColumns) (Z.to_nat maxRows) w1 Hgimg)
    as (cimg & labels & Hcimg & _ & Hlog & Hnone & _ & Hcanvas); try lia.
  cbn [image gi] in Hlog.
  eexists (length (heap w1)), _, cimg, labels.
  exists (left_padding_of (font a) widest), (top_padding_of (font a)).
  split; [exact Hann |]. split; [exact Hcimg |]. split.
  { eexists (_ ++ [_]). rewrite Hlog, <- app_assoc. reflexivity. }
  split; [exact Hnone |].
  intros k h img px py Hk Himg Hpx Hpy.
  set (X := left_padding_of (font a) widest
            + (Z.of_nat k mod maxColumns) * (tileWidth + gap_px) + px).
  set (Y := top_padding_of (font a)
            + (Z.of_nat k / maxColumns) * (tileHeight + gap_px) + py).
  intros Hclear. rewrite (Hcanvas X Y Hclear).
  set (x := (Z.of_nat k mod maxColumns) * (tileWidth + gap_px)).
  set (y := (Z.of_nat k / maxColumns) * (tileHeight + gap_px)).
  replace (X - left_padding_of (font a) widest) with (x + px) by (subst X x; lia).
  replace (Y - top_padding_of (font a)) with (y + py) by (subst Y y; lia).
  assert (Hk' : (k < length images)%nat) by (eapply lookup_lt_Some; eauto).
  assert (Hfit : 0 <= x /\ 0 <= y /\
                 x + tileWidth <= fst (size gimg) /\ y + tileHeight <= snd (size gimg)).
  { pose proof (tile_fits (size fimg) maxColumns maxRows gap_px (Z.of_nat k)
                  columns_positive gap_nonneg ltac:(lia) ltac:(lia)) as Hfit.
    rewrite Hsize. cbn [fst snd]. apply Hfit.
    pose proof (ceil_covers n maxColumns columns_positive) as Hcover.
    fold maxRows in Hcover. subst n. lia. }
  assert (Hin : inside gimg (x + px) (y + py) = true).
  { unfold inside. repeat (apply andb_true_intro; split);
      first [apply Z.leb_le | apply Z.ltb_lt]; lia. }
  rewrite Hin.
  destruct (Hpix (x + px) (y + py)) as [Htile _].
  rewrite (Htile k h img Hk Himg).
  - unfold shown, tile_origin. cbn [fst snd]. fold tileWidth tileHeight x y.
    replace (x + px - x) with px by lia. replace (y + py - y) with py by lia.
    reflexivity.
  - exact (in_tile_shift (size fimg)
             (tile_origin (size fimg) maxColumns gap_px (Z.of_nat k)) px py Hpx Hpy).
Qed.

End EndToEnd.

Lemma annotated_grid_stages_witness :
  exists grid canvas w1 w' gimg cimg labels leftPadding topPadding,
    create_images_grid_by_columns 2 [0; 1; 2; 3]%nat 2 2 None four_tiles =
      Returns grid w1 /\
    create_images_grid_by_columns 2 [0; 1; 2; 3]%nat 2 2
      (Some (two_by_two block_font)) four_tiles = Returns canvas w' /\
    canvas <> grid /\
    heap w' !! canvas = Some cimg /\
    length labels = 4%nat /\
    (forall e, In e labels ->
       exists pos text,
         In text (column_texts (two_by_two block_font)
                  ++ row_texts (two_by_two block_font)) /\
         e = EvText canvas pos text black) /\
    forall X Y,
      im_pixel cimg X Y =
      if inked block_font labels X Y then black
      else if inside gimg (X - leftPadding) (Y - topPadding)
           then im_pixel gimg (X - leftPadding) (Y - topPadding)
           else white.
Proof.
  destruct (annotated_grid_stages 2 0%nat [1; 2; 3]%nat 2 2 (two_by_two block_font)
              four_tiles (solid 10 10 (RGB 200 0 0)) four_tiles_live eq_refl
              ltac:(lia) ltac:(lia) ltac:(simpl; lia) ltac:(simpl; lia)
              ltac:(discriminate) ltac:(discriminate) ltac:(vm_compute; discriminate)
              block_widths_nonneg ltac:(simpl; lia) ltac:(vm_compute; lia))
    as (grid & canvas & w1 & w' & gimg & cimg & tiles & labels & lp & tp
        & Hplain & Hann & Hne & _ & _ & Hcimg & _ & _ & _ & _ & _ & Hlen
        & _ & Hall & _ & _ & Hpix).
  exists grid, canvas, w1, w', gimg, cimg, labels, lp, tp.
  split; [exact Hplain |]. split; [exact Hann |]. split; [exact Hne |].
  split; [exact Hcimg |]. split; [exact Hlen |]. split; [exact Hall | exact Hpix].
Defined.

Lemma labels_over_their_tiles_witness :
  exists canvas w' tiles labels leftPadding topPadding src x y,
    create_images_grid_by_columns 2 [0; 1; 2; 3]%nat 2 2
      (Some (two_by_two block_font)) four_tiles = Returns canvas w' /\
    pastes tiles !! 3%nat = Some (length (heap four_tiles), src, (x, y)) /\
    In (EvText canvas
          (label_position block_font
             (leftPadding + x, 0, leftPadding + x + 10, topPadding) "right")
          "right" black) labels.
Proof.
  destruct (labels_over_their_tiles 2 0%nat [1; 2; 3]%nat 2 2 (two_by_two block_font)
              four_tiles (solid 10 10 (RGB 200 0 0)) four_tiles_live eq_refl
              ltac:(lia) ltac:(lia) ltac:(simpl; lia) ltac:(simpl; lia)
              ltac:(discriminate) ltac:(discriminate) ltac:(vm_compute; discriminate)
              block_widths_nonneg ltac:(simpl; lia) ltac:(vm_compute; lia))
    as (canvas & w' & tiles & labels & lp & tp & Hrun & _ & Hover).
  destruct (Hover 3%nat ltac:(simpl; lia)) as (src & x & y & Hpaste & Hcol & _).
  exists canvas, w', tiles, labels, lp, tp, src, x, y.
  split; [exact Hrun |]. split; [exact Hpaste |].
  exact (Hcol "right" eq_refl).
Defined.

Lemma annotated_grid_shows_images_witness :
  exists canvas w' cimg,
    create_images_grid_by_columns 2 [0; 1; 2; 3]%nat 2 2
      (Some (two_by_two block_font)) four_tiles = Returns canvas w' /\
    heap w' !! canvas = Some cimg.
Proof.
  destruct (annotated_grid_shows_images 2 0%nat [1; 2; 3]%nat 2 2
              (two_by_two block_font)
              four_tiles (solid 10 10 (RGB 200 0 0)) four_tiles_live eq_refl
              ltac:(lia) ltac:(lia) ltac:(simpl; lia) ltac:(simpl; lia)
              ltac:(discriminate) ltac:(discriminate) ltac:(vm_compute; discriminate)
              block_widths_nonneg ltac:(simpl; lia) ltac:(vm_compute; lia))
    as (canvas & w' & cimg & labels & lp & tp & Hrun & Hcimg & _).
  exists canvas, w', cimg. split; [exact Hrun | exact Hcimg].
Defined.
